(** * DDParser structured-decoding utilities

    A shallow embedding of [ddparser/parser/data_struct/utils.py]:
    the projective-tree validator ([NODE], [DepTree], [istree]), the
    Eisner decoder ([eisner]) and the length bucketer ([kmeans]),
    together with the properties established about them.

    Conventions of the embedding.
    - Python [int] values that may be negative are [Z]; list positions and
      node ids are [nat].
    - A Python call either returns, raises, or does not come back; this is
      the type [result].  Recursion and [while] loops that are not
      structural carry a [fuel] argument and answer [Diverge] when the fuel
      is used up; the theorems below show which amount of fuel is enough.
    - numpy arrays are nested lists in row-major order.
    - Scores are exact rationals extended with negative infinity; rounding,
      overflow and NaN of IEEE floats are outside the model. *)

From Stdlib Require Import ZArith QArith Qabs Lia Lqa.
From stdpp Require Import base tactics option list numbers sorting strings gmap.

Set Default Proof Using "Type".
Local Open Scope nat_scope.

(** ** Results of Python calls *)

Inductive exn := IndexError | ValueError | AssertionError.

Inductive result (A : Type) :=
  | Ok (a : A)
  | Raise (e : exn)
  | Diverge.
Arguments Ok {A} a.
Arguments Raise {A} e.
Arguments Diverge {A}.

#[export] Instance result_ret : MRet result := @Ok.
#[export] Instance result_bind : MBind result := λ A B f m,
  match m with
  | Ok a => f a
  | Raise e => Raise e
  | Diverge => Diverge
  end.
#[export] Instance result_fmap : FMap result := λ A B f m,
  match m with
  | Ok a => Ok (f a)
  | Raise e => Raise e
  | Diverge => Diverge
  end.

(** A [for] loop whose body may raise. *)
Fixpoint foldM {A B} (f : A → B → result A) (a : A) (l : list B) : result A :=
  match l with
  | [] => Ok a
  | b :: l => a' ← f a b; foldM f a' l
  end.

(** A list comprehension whose body may raise. *)
Fixpoint forM {A B} (f : A → result B) (l : list A) : result (list B) :=
  match l with
  | [] => Ok []
  | a :: l => b ← f a; bs ← forM f l; Ok (b :: bs)
  end.

(** [l[z]] for a Python list of length [len]: negative positions count from
    the end, anything else out of range raises [IndexError]. *)
Definition py_index (len : nat) (z : Z) : result nat :=
  if decide (0 ≤ z < Z.of_nat len)%Z then Ok (Z.to_nat z)
  else if decide (- Z.of_nat len ≤ z < 0)%Z then Ok (Z.to_nat (Z.of_nat len + z))
  else Raise IndexError.

(** [l[i]] where [i] is known to be a non-negative position. *)
Definition getitem {A} (l : list A) (i : nat) : result A :=
  match l !! i with
  | Some a => Ok a
  | None => Raise IndexError
  end.

(** Python's [sorted] on a list of ints. *)
Fixpoint insert_sorted (x : nat) (l : list nat) : list nat :=
  match l with
  | [] => [x]
  | y :: l' => if decide (x ≤ y) then x :: l else y :: insert_sorted x l'
  end.
Definition sorted (l : list nat) : list nat := foldr insert_sorted [] l.

(** ** Tree validator *)

Module Validator.

(** [class NODE]: [id] and [parent] are set by the constructor, [lefts] and
    [rights] start empty.  [build_tree] always passes an integer parent, so
    the [parent=None] default of the constructor is never used. *)
Record NODE := mkNODE {
  lefts : list nat;
  rights : list nat;
  id : nat;
  parent : Z
}.

Definition NODE_init (id : nat) (parent : Z) : NODE :=
  {| lefts := []; rights := []; id := id; parent := parent |}.

(** [DepTree.add]: the child goes to the right list when the parent's id is
    strictly smaller, to the left list otherwise (a node that is its own
    parent therefore lands in its own left list).  The ids are never
    [None], so the [raise] of the source is dead. *)
Definition add (p child : NODE) : NODE :=
  if decide (id p < id child)
  then {| lefts := lefts p; rights := sorted (rights p ++ [id child]);
          id := id p; parent := parent p |}
  else {| lefts := sorted (lefts p ++ [id child]); rights := rights p;
          id := id p; parent := parent p |}.

(** One round of the loop [for node in self.nodes[1:]] of [build_tree];
    [self.nodes[node.parent]] is a Python list access. *)
Definition build_step (nodes : list NODE) (i : nat) : result (list NODE) :=
  node ← getitem nodes i;
  p ← py_index (length nodes) (parent node);
  pn ← getitem nodes p;
  Ok (<[p := add pn node]> nodes).

Definition build_tree (sentence : list Z) : result (list NODE) :=
  let nodes := imap NODE_init sentence in
  foldM build_step nodes (seq 1 (length nodes - 1)).

(** The object state after [DepTree.__init__]; [root] is [nodes[0]]. *)
Record DepTree := mkDepTree {
  sentence : list Z;
  nodes : list NODE;
  visit : list bool
}.

(** The two [for] loops of [inorder_traversal], with the recursive call
    abstracted as [rec]. *)
Fixpoint traverse_children
    (rec : list bool → NODE → result (list nat * list bool))
    (nodes : list NODE) (children : list nat) (acc : list nat)
    (visit : list bool) : result (list nat * list bool) :=
  match children with
  | [] => Ok (acc, visit)
  | c :: children =>
      node ← getitem nodes c;
      '(l, visit) ← rec visit node;
      traverse_children rec nodes children (acc ++ l) visit
  end.

(** [DepTree.inorder_traversal]; the [visit] list is threaded through. *)
Fixpoint inorder_traversal (fuel : nat) (nodes : list NODE)
    (visit : list bool) (node : NODE) : result (list nat * list bool) :=
  match fuel with
  | 0 => Diverge
  | S fuel =>
      v ← getitem visit (id node);
      if (v : bool) then Ok ([], visit)
      else
        let visit := <[id node := true]> visit in
        '(lf_list, visit) ←
           traverse_children (inorder_traversal fuel nodes) nodes (lefts node) [] visit;
        '(rf_list, visit) ←
           traverse_children (inorder_traversal fuel nodes) nodes (rights node) [] visit;
        Ok (lf_list ++ [id node] ++ rf_list, visit)
  end.

(** [DepTree.__init__] on the contents of the copied list. *)
Definition DepTree_init (sequence : list Z) : result DepTree :=
  sentence ← (if decide (0 < length sequence) then Ok (<[0 := (-1)%Z]> sequence)
              else Raise IndexError);
  nodes ← build_tree sentence;
  Ok {| sentence := sentence; nodes := nodes;
        visit := replicate (length sentence) false |}.

(** [DepTree.judge_legal].  The traversal marks a fresh node at every call
    that does not return at once, so [S (length nodes)] calls deep is all it
    can go (see [inorder_traversal_fuel]). *)
Definition judge_legal (t : DepTree) : result bool :=
  let target_seq := seq 0 (length (nodes t)) in
  root ← getitem (nodes t) 0;
  if decide (length (lefts root ++ rights root) ≠ 1) then Ok false
  else
    '(cur_seq, _) ← inorder_traversal (S (length (nodes t))) (nodes t) (visit t) root;
    if decide (target_seq ≠ cur_seq) then Ok false else Ok true.

Definition istree (sequence : list Z) : result bool :=
  t ← DepTree_init sequence;
  judge_legal t.

(** *** The head array as a graph

    [head_of s c] is the node that [build_tree] attaches token [c] to:
    the list position that [s[c]] denotes.  The root has none. *)
Definition head_of (s : list Z) (c : nat) : option nat :=
  if decide (c = 0) then None
  else z ← s !! c;
       match py_index (length s) z with
       | Ok p => Some p
       | _ => None
       end.

(** [k] steps up from [u]. *)
Fixpoint ancestor (s : list Z) (k : nat) (u : nat) : option nat :=
  match k with
  | 0 => Some u
  | S k => p ← head_of s u; ancestor s k p
  end.

(** The induced graph has a cycle: some token comes back to itself. *)
Definition has_cycle (s : list Z) : Prop :=
  ∃ u k, u < length s ∧ 0 < k ∧ ancestor s k u = Some u.

(** Every entry at a position [≥ 1] is a position of the array. *)
Definition valid_heads (heads : list Z) : Prop :=
  Forall (λ h, (0 ≤ h < Z.of_nat (length heads))%Z) (drop 1 heads).

(** *** The traversal as the specification words it

    Dependents of [p] are the tokens [i ≥ 1] whose entry is [p], in
    ascending order; a dependent is a left one when its id is smaller than
    its head's, a right one otherwise. *)
Definition dependents (heads : list Z) (p : nat) : list nat :=
  filter (λ c, heads !! c = Some (Z.of_nat p)) (seq 1 (length heads - 1)).
Definition left_dependents (heads : list Z) (p : nat) : list nat :=
  filter (λ c, c < p) (dependents heads p).
Definition right_dependents (heads : list Z) (p : nat) : list nat :=
  filter (λ c, ¬ c < p) (dependents heads p).

(** Left subtrees, the node, right subtrees; [None] when the recursion is
    deeper than [fuel]. *)
Fixpoint inorder_spec (fuel : nat) (heads : list Z) (v : nat) : option (list nat) :=
  match fuel with
  | 0 => None
  | S fuel =>
      ls ← mapM (inorder_spec fuel heads) (left_dependents heads v);
      rs ← mapM (inorder_spec fuel heads) (right_dependents heads v);
      Some (concat ls ++ [v] ++ concat rs)
  end.

(** The recursive traversal from [v] comes back with [l]. *)
Definition inorder_is (heads : list Z) (v : nat) (l : list nat) : Prop :=
  ∃ fuel, inorder_spec fuel heads v = Some l.

End Validator.

(** ** The validator on a store of list objects

    [istree] receives a reference to the caller's list.  Here list objects
    live in a store, [copy.deepcopy] allocates a new object, and item
    assignment updates the object it is given. *)

Module Store.

(** Objects are named by numbers; the store maps the name of a list object
    to its contents. *)

(** A computation reads and updates the store and returns, raises or
    diverges; the store is there in each case. *)
Definition M (A : Type) : Type :=
  gmap nat (list Z) → result A * gmap nat (list Z).

#[export] Instance M_ret : MRet M := λ A a h, (Ok a, h).
#[export] Instance M_bind : MBind M := λ A B f m h,
  match m h with
  | (Ok a, h') => f a h'
  | (Raise e, h') => (Raise e, h')
  | (Diverge, h') => (Diverge, h')
  end.

(** A computation that does not touch the store. *)
Definition lift {A} (r : result A) : M A := λ h, (r, h).

Definition read (l : nat) : M (list Z) := λ h,
  match h !! l with
  | Some s => (Ok s, h)
  | None => (Raise ValueError, h)
  end.

(** [copy.deepcopy(sentence)] for a list of ints: a new object with the
    same contents. *)
Definition deepcopy (l : nat) : M nat :=
  s ← read l;
  (λ h, let l' := fresh (dom h) in (Ok l', <[l' := s]> h)) : M nat.

(** [obj[i] = v] *)
Definition setitem (l : nat) (i : nat) (v : Z) : M unit :=
  s ← read l;
  if decide (i < length s) then (λ h, (Ok (), <[l := <[i := v]> s]> h)) : M unit
  else lift (Raise IndexError).

(** [DepTree.__init__]: [sentence] is the reference to the copy that the
    object keeps. *)
Definition DepTree_init (sequence : nat) : M (nat * Validator.DepTree) :=
  sentence ← deepcopy sequence;
  _ ← setitem sentence 0 (-1)%Z;
  s ← read sentence;
  nodes ← lift (Validator.build_tree s);
  mret (sentence,
        {| Validator.sentence := s; Validator.nodes := nodes;
           Validator.visit := replicate (length s) false |}).

Definition istree (sequence : nat) : M bool :=
  '(_, t) ← DepTree_init sequence;
  lift (Validator.judge_legal t).

End Store.

(** ** Arrays

    A numpy array of rank 2 or 3 is a nested list; the operations below take
    the extents they produce as arguments, the way numpy reads them off the
    shapes of its operands. *)

Module NP.

Definition tab {A} (n : nat) (f : nat → A) : list A := f <$> seq 0 n.
Definition tab2 {A} (n m : nat) (f : nat → nat → A) : list (list A) :=
  tab n (λ i, tab m (f i)).
Definition tab3 {A} (n m k : nat) (f : nat → nat → nat → A) : list (list (list A)) :=
  tab n (λ i, tab2 m k (f i)).

Definition get2 `{Inhabited A} (x : list (list A)) (i j : nat) : A := (x !!! i) !!! j.
Definition get3 `{Inhabited A} (x : list (list (list A))) (i j k : nat) : A := ((x !!! i) !!! j) !!! k.

(** [x.transpose(2, 1, 0)] of an array of shape [(a, b, c)]. *)
Definition transpose_210 `{Inhabited A} (a b c : nat) (x : list (list (list A))) : list (list (list A)) :=
  tab3 c b a (λ k j i, get3 x i j k).

(** [x.transpose(2, 0, 1)] of an array of shape [(a, b, c)]. *)
Definition transpose_201 `{Inhabited A} (a b c : nat) (x : list (list (list A))) : list (list (list A)) :=
  tab3 c a b (λ k i j, get3 x i j k).

(** [x.diagonal(offset)] of an array of shape [(n, n, b)]: the diagonal of
    the first two axes, moved to the end, shape [(b, n - |offset|)]. *)
Definition diagonal `{Inhabited A} (n b : nat) (x : list (list (list A))) (offset : Z) : list (list A) :=
  let m := Z.to_nat (Z.abs offset) in
  tab2 b (n - m) (λ c k,
    if decide (0 ≤ offset)%Z then get3 x k (k + m) c else get3 x (k + m) k c).

End NP.

(** ** Scores *)

Inductive score := NegInf | Fin (q : Q).

#[export] Instance score_inhabited : Inhabited score := populate NegInf.

Definition score_add (a b : score) : score :=
  match a, b with
  | Fin x, Fin y => Fin (x + y)
  | _, _ => NegInf
  end.

(** [a < b] *)
Definition score_ltb (a b : score) : bool :=
  match a, b with
  | NegInf, NegInf => false
  | NegInf, Fin _ => true
  | Fin _, NegInf => false
  | Fin x, Fin y => negb (Qle_bool y x)
  end.

(** [max] and [argmax] along an axis; ties go to the first maximum.  numpy
    refuses an axis of length 0; every axis reduced in [eisner] has length
    [w ≥ 1], and the empty case answers position 0 and negative infinity. *)
Fixpoint argmax_from (best : score) (bi i : nat) (l : list score) : nat * score :=
  match l with
  | [] => (bi, best)
  | x :: l =>
      if score_ltb best x then argmax_from x i (S i) l
      else argmax_from best bi (S i) l
  end.
Definition argmax (l : list score) : nat :=
  match l with
  | [] => 0
  | x :: l => (argmax_from x 0 1 l).1
  end.
Definition amax (l : list score) : score :=
  match l with
  | [] => NegInf
  | x :: l => (argmax_from x 0 1 l).2
  end.

(** ** Eisner decoder *)

Module Decoder.
Import NP.

(** Modelled from the spec: [nn.stripe] is not part of the sources at hand.
    Following the recurrences of section 4.1 and the comments at its call
    sites in [eisner], [stripe x n w offset dim] is the [n × w] window of
    [x] that starts at [offset] and walks down the diagonal: entry [(k, l)]
    is [x[offset.1 + k, offset.2 + k + l]] for [dim = 1] and
    [x[offset.1 + k + l, offset.2 + k]] for [dim = 0]. *)
Definition stripe `{Inhabited A} (b : nat) (x : list (list (list A))) (n w : nat)
    (offset : nat * nat) (dim : nat) : list (list (list A)) :=
  tab3 n w b (λ k l c,
    if decide (dim = 0) then get3 x (offset.1 + k + l) (offset.2 + k) c
    else get3 x (offset.1 + k) (offset.2 + k + l) c).

(** Modelled from the spec: [nn.fill_diagonal] is not part of the sources at
    hand.  [fill_diagonal x value offset] stores [value[c, k]] on the
    diagonal [offset] of the first two axes of [x], shape [(n, n, b)]:
    at [x[k, k + offset, c]] for [offset ≥ 0] and at [x[k - offset, k, c]]
    for [offset < 0]. *)
Definition fill_diagonal `{Inhabited A} (n b : nat) (x : list (list (list A)))
    (value : list (list A)) (offset : Z) : list (list (list A)) :=
  let m := Z.to_nat (Z.abs offset) in
  tab3 n n b (λ i j c,
    if decide (0 ≤ offset)%Z
    then (if decide (j = i + m) then get2 value c i else get3 x i j c)
    else (if decide (i = j + m) then get2 value c j else get3 x i j c)).

(** Modelled from the spec: [nn.fill_diagonal] called with one number for the
    whole main diagonal, as in [nn.fill_diagonal(s_c, 0)]. *)
Definition fill_diagonal_scalar `{Inhabited A} (n b : nat) (x : list (list (list A)))
    (value : A) : list (list (list A)) :=
  tab3 n n b (λ i j c, if decide (j = i) then value else get3 x i j c).

(** Modelled from the spec: [nn.backtrack] is not part of the sources at
    hand.  Section 4.1: start from the complete span of the root,
    expand each stored split point, alternating between the complete and
    the incomplete table, and record the head found at every incomplete
    span.  [p_i] and [p_c] are the tables of one sentence. *)
Fixpoint backtrack (fuel : nat) (p_i p_c : list (list nat)) (heads : list Z)
    (i j : nat) (complete : bool) : result (list Z) :=
  match fuel with
  | 0 => Diverge
  | S fuel =>
      if decide (i = j) then Ok heads
      else if complete then
        row ← getitem p_c i;
        r ← getitem row j;
        heads ← backtrack fuel p_i p_c heads i r false;
        backtrack fuel p_i p_c heads r j true
      else
        row ← getitem p_i i;
        r ← getitem row j;
        heads ← (if decide (j < length heads) then Ok (<[j := Z.of_nat i]> heads)
                 else Raise IndexError);
        let '(i, j) := (i `min` j, i `max` j) in
        heads ← backtrack fuel p_i p_c heads i r true;
        backtrack fuel p_i p_c heads j (r + 1) true
  end.

(** Modelled from the spec: [nn.pad_sequence] is not part of the sources at
    hand.  Sections 4.1 and 6: the sequences are right-padded to [fix_len]
    with the sentinel 1; a sequence longer than [fix_len] cannot be. *)
Definition pad_sequence (sequences : list (list Z)) (fix_len : nat) : result (list (list Z)) :=
  if decide (Forall (λ s, length s ≤ fix_len) sequences)
  then Ok ((λ s, s ++ replicate (fix_len - length s) 1%Z) <$> sequences)
  else Raise AssertionError.

(** The four tables of the dynamic program, each of shape
    [(seq_len, seq_len, batch_size)]. *)
Record tables := mkTables {
  s_i : list (list (list score));
  s_c : list (list (list score));
  p_i : list (list (list nat));
  p_c : list (list (list nat))
}.

Section step.
Context (batch_size seq_len : nat) (scores : list (list (list score))) (lens : list nat).

(** Element-wise sum of two arrays of shape [(n, w, batch_size)]. *)
Definition add3 (n w : nat) (x y : list (list (list score))) : list (list (list score)) :=
  tab3 n w batch_size (λ k l c, score_add (get3 x k l c) (get3 y k l c)).

(** [x + d[..., np.newaxis]] for [x] of shape [(batch_size, n, w)]. *)
Definition add_newaxis (n w : nat) (x : list (list (list score))) (d : list (list score)) : list (list (list score)) :=
  tab3 batch_size n w (λ c k l, score_add (get3 x c k l) (get2 d c k)).

(** [x.max(-1)] and [x.argmax(-1)] for [x] of shape [(batch_size, n, w)]. *)
Definition max_last (n : nat) (x : list (list (list score))) : list (list score) :=
  tab2 batch_size n (λ c k, amax ((x !!! c) !!! k)).
Definition argmax_last (n : nat) (x : list (list (list score))) : list (list nat) :=
  tab2 batch_size n (λ c k, argmax ((x !!! c) !!! k)).

(** [path + starts] with [starts] of shape [(1, n)], and the same [+ 1]. *)
Definition add_starts (n : nat) (path : list (list nat)) (starts : list nat) (one : nat) : list (list nat) :=
  tab2 batch_size n (λ c k, get2 path c k + starts !!! k + one).

(** [s_c[0, w][np.not_equal(lens, w)] = float('-inf')] *)
Definition mask_root (x : list (list (list score))) (w : nat) : list (list (list score)) :=
  tab3 seq_len seq_len batch_size (λ i j c,
    if decide (i = 0 ∧ j = w ∧ lens !!! c ≠ w) then NegInf else get3 x i j c).

(** The body of [for w in range(1, seq_len)]; [scores] is the transposed
    tensor. *)
Definition eisner_step (t : tables) (w : nat) : tables :=
  let n := seq_len - w in
  let starts := seq 0 n in
  let s_i := s_i t in
  let s_c := s_c t in
  let p_i := p_i t in
  let p_c := p_c t in
  (* ilr = C(i->r) + C(j->r+1) *)
  let ilr := add3 n w (stripe batch_size s_c n w (0, 0) 1)
                      (stripe batch_size s_c n w (w, 1) 1) in
  let ilr := transpose_201 n w batch_size ilr in
  let il := add_newaxis n w ilr (diagonal seq_len batch_size scores (- Z.of_nat w)) in
  (* I(j->i) = max(C(i->r) + C(j->r+1) + s(j->i)), i <= r < j *)
  let il_span := max_last n il in
  let il_path := argmax_last n il in
  let s_i := fill_diagonal seq_len batch_size s_i il_span (- Z.of_nat w) in
  let p_i := fill_diagonal seq_len batch_size p_i (add_starts n il_path starts 0)
               (- Z.of_nat w) in
  let ir := add_newaxis n w ilr (diagonal seq_len batch_size scores (Z.of_nat w)) in
  (* I(i->j) = max(C(i->r) + C(j->r+1) + s(i->j)), i <= r < j *)
  let ir_span := max_last n ir in
  let ir_path := argmax_last n ir in
  let s_i := fill_diagonal seq_len batch_size s_i ir_span (Z.of_nat w) in
  let p_i := fill_diagonal seq_len batch_size p_i (add_starts n ir_path starts 0)
               (Z.of_nat w) in
  (* C(j->i) = max(C(r->i) + I(j->r)), i <= r < j *)
  let cl := add3 n w (stripe batch_size s_c n w (0, 0) 0)
                     (stripe batch_size s_i n w (w, 0) 1) in
  let cl := transpose_201 n w batch_size cl in
  let cl_span := max_last n cl in
  let cl_path := argmax_last n cl in
  let s_c := fill_diagonal seq_len batch_size s_c cl_span (- Z.of_nat w) in
  let p_c := fill_diagonal seq_len batch_size p_c (add_starts n cl_path starts 0)
               (- Z.of_nat w) in
  (* C(i->j) = max(I(i->r) + C(r->j)), i < r <= j *)
  let cr := add3 n w (stripe batch_size s_i n w (0, 1) 1)
                     (stripe batch_size s_c n w (1, w) 0) in
  let cr := transpose_201 n w batch_size cr in
  let cr_span := max_last n cr in
  let cr_path := argmax_last n cr in
  let s_c := fill_diagonal seq_len batch_size s_c cr_span (Z.of_nat w) in
  let s_c := mask_root s_c w in
  let p_c := fill_diagonal seq_len batch_size p_c (add_starts n cr_path starts 1)
               (Z.of_nat w) in
  {| s_i := s_i; s_c := s_c; p_i := p_i; p_c := p_c |}.

(** The tables before the loop. *)
Definition eisner_init : tables :=
  let s_i := tab3 seq_len seq_len batch_size (λ _ _ _, NegInf) in
  let s_c := tab3 seq_len seq_len batch_size (λ _ _ _, NegInf) in
  let p_i := tab3 seq_len seq_len batch_size (λ _ _ _, 0) in
  let p_c := tab3 seq_len seq_len batch_size (λ _ _ _, 0) in
  let s_c := fill_diagonal_scalar seq_len batch_size s_c (Fin 0) in
  {| s_i := s_i; s_c := s_c; p_i := p_i; p_c := p_c |}.

(** The tables after the widths [1 .. m]. *)
Definition eisner_loop (m : nat) : tables :=
  foldl eisner_step eisner_init (seq 1 m).
End step.

(** [mask.sum(1)] *)
Definition mask_sum (mask : list (list bool)) : list nat :=
  (λ row, length (filter (λ v, v = true) row)) <$> mask.

(** The shapes that section 4.1 asks for: [scores] is
    [(batch, n, n)] and [mask] is [(batch, n)]. *)
Definition shapes_ok (scores : list (list (list score))) (mask : list (list bool))
    (batch n : nat) : Prop :=
  length scores = batch ∧
  Forall (λ m, length m = n ∧ Forall (λ row, length row = n) m) scores ∧
  length mask = batch ∧
  Forall (λ row, length row = n) mask.

(** [eisner(scores, mask)].  The recursion of [backtrack] never needs more
    than [2 * length + 1] calls in depth (see [backtrack_complete]). *)
Definition eisner (scores : list (list (list score))) (mask : list (list bool)) : result (list (list Z)) :=
  let lens := mask_sum mask in
  let batch_size := length scores in
  let seq_len := length (scores !!! 0) in
  let scores := transpose_210 batch_size seq_len seq_len scores in
  let t := eisner_loop batch_size seq_len scores lens (seq_len - 1) in
  let p_c := transpose_201 seq_len seq_len batch_size (p_c t) in
  let p_i := transpose_201 seq_len seq_len batch_size (p_i t) in
  predicts ← forM (λ '(i, length),
                pi ← getitem p_i i;
                pc ← getitem p_c i;
                let heads := replicate (length + 1) 1%Z in
                backtrack (2 * length + 2) pi pc heads 0 length true)
              (imap pair lens);
  pad_sequence predicts seq_len.

End Decoder.

(** ** Length bucketer *)

Module Bucketer.

(** Arrays that hold sentence lengths or sums of them have whole values and
    are lists of [Z]; arrays that hold centroids or distances are lists of
    [Q].  The conversion of the input to [float32] keeps whole numbers as
    they are. *)

(** [np.unique]: the sorted distinct values ... *)
Fixpoint insert_uniq (z : Z) (l : list Z) : list Z :=
  match l with
  | [] => [z]
  | y :: l' =>
      if decide (z < y)%Z then z :: l
      else if decide (z = y) then l
      else y :: insert_uniq z l'
  end.
Definition unique (x : list Z) : list Z := foldr insert_uniq [] x.

(** ... with [return_inverse]: the position of a value among them ... *)
Fixpoint index_of (d : list Z) (z : Z) : nat :=
  match d with
  | [] => 0
  | y :: d => if decide (y = z) then 0 else S (index_of d z)
  end.

(** ... and with [return_counts]. *)
Definition count_of (x : list Z) (z : Z) : nat :=
  length (filter (λ v, v = z) x).

(** [np.unique] on an array of labels. *)
Definition unique_labels (y : list nat) : list nat :=
  Z.to_nat <$> unique (Z.of_nat <$> y).

Definition Qlt_bool (a b : Q) : bool := negb (Qle_bool b a).

(** [min], [argmin], [argmax] along an axis, first extremum on ties; numpy
    raises [ValueError] on an axis of length 0. *)
Fixpoint argmin_from (best : Q) (bi i : nat) (l : list Q) : nat * Q :=
  match l with
  | [] => (bi, best)
  | x :: l =>
      if Qlt_bool x best then argmin_from x i (S i) l
      else argmin_from best bi (S i) l
  end.
Definition argmin (l : list Q) : result (nat * Q) :=
  match l with
  | [] => Raise ValueError
  | x :: l => Ok (argmin_from x 0 1 l)
  end.

Fixpoint argmaxQ_from (best : Q) (bi i : nat) (l : list Q) : nat :=
  match l with
  | [] => bi
  | x :: l =>
      if Qlt_bool best x then argmaxQ_from x i (S i) l
      else argmaxQ_from best bi (S i) l
  end.
Definition argmaxQ (l : list Q) : result nat :=
  match l with
  | [] => Raise ValueError
  | x :: l => Ok (argmaxQ_from x 0 1 l)
  end.

Fixpoint argmaxN_from (best : nat) (bi i : nat) (l : list nat) : nat :=
  match l with
  | [] => bi
  | x :: l =>
      if decide (best < x) then argmaxN_from x i (S i) l
      else argmaxN_from best bi (S i) l
  end.
Definition argmaxN (l : list nat) : result nat :=
  match l with
  | [] => Raise ValueError
  | x :: l => Ok (argmaxN_from x 0 1 l)
  end.

(** [dists_abs = np.absolute(d[..., np.newaxis] - c)] followed by
    [dists_abs.min(axis=-1), dists_abs.argmin(axis=-1)]. *)
Definition assign (d : list Z) (c : list Q) : result (list Q * list nat) :=
  r ← forM (λ v, argmin ((λ cv, Qabs (inject_Z v - cv)%Q) <$> c)) d;
  Ok (snd <$> (r : list (nat * Q)), fst <$> r).

(** [np.equal(y, i).nonzero()[0]]: the positions that carry label [i]. *)
Definition members (y : list nat) (i : nat) : list nat :=
  filter (λ t, y !! t = Some i) (seq 0 (length y)).

(** One round of [for i in range(k)]: an empty cluster [i] takes the
    farthest datapoint of the biggest cluster. *)
Definition repair_step (k : nat) (dists : list Q) (y : list nat) (i : nat)
    : result (list nat) :=
  if decide (i ∈ y) then Ok y
  else
    let lens := (λ j, length (members y j)) <$> seq 0 k in
    big ← argmaxN lens;
    let biggest := members y big in
    far ← forM (getitem dists) biggest;
    farthest ← argmaxQ far;
    t ← getitem biggest farthest;
    if decide (t < length y) then Ok (<[t := i]> y) else Raise IndexError.

(** [(total * mask).sum(-1) / (f * mask).sum(-1)]; a division by zero is no
    exception in numpy, and the repair loop leaves no cluster empty. *)
Definition centroid (total : list Z) (f : list nat) (y : list nat) (j : nat) : Q :=
  let ms := members y j in
  let sum_total := foldr Z.add 0%Z ((λ t, default 0%Z (total !! t)) <$> ms) in
  let sum_f := foldr Nat.add 0 ((λ t, default 0 (f !! t)) <$> ms) in
  (inject_Z sum_total / inject_Z (Z.of_nat sum_f))%Q.

(** [np.equal(c, old).all()] *)
Fixpoint all_equal (c old : list Q) : bool :=
  match c, old with
  | [], [] => true
  | x :: c, y :: old => Qeq_bool x y && all_equal c old
  | _, _ => false
  end.

Record state := mkState {
  c : list Q;
  old : option (list Q);
  dists : list Q;
  y : list nat
}.

(** The body of the [while] loop. *)
Definition body (d total : list Z) (f : list nat) (k : nat) (st : state) : result state :=
  y1 ← foldM (repair_step k (dists st)) (y st) (seq 0 k);
  let c1 := (λ j, centroid total f y1 j) <$> seq 0 k in
  '(dists2, y2) ← assign d c1;
  Ok {| c := c1; old := Some (c st); dists := dists2; y := y2 |}.

(** [while old is None or not np.equal(c, old).all()] *)
Fixpoint loop (fuel : nat) (d total : list Z) (f : list nat) (k : nat) (st : state)
    : result state :=
  if (match old st with None => false | Some o => all_equal (c st) o end)
  then Ok st
  else match fuel with
       | 0 => Diverge
       | S fuel => st ← body d total f k st; loop fuel d total f k st
       end.

(** [kmeans(x, k)].  [perm] stands for the value that
    [np.random.permutation(len(d))] draws, [fuel] bounds the rounds of the
    [while] loop. *)
Definition kmeans (fuel : nat) (perm : list nat) (x : list Z) (k : nat)
    : result (list Q * list (list nat)) :=
  let d := unique x in
  let indices := index_of d <$> x in
  let f := count_of x <$> d in
  let total := zip_with (λ v n, (v * Z.of_nat n)%Z) d f in
  cz ← forM (getitem d) (take k perm);
  let c0 := inject_Z <$> cz in
  '(dists0, y0) ← assign d c0;
  let k := length d `min` k in
  st ← loop fuel d total f k {| c := c0; old := None; dists := dists0; y := y0 |};
  let assigned := unique_labels (y st) in
  y_all ← forM (getitem (y st)) indices;
  centroids ← forM (getitem (c st)) assigned;
  let clusters := (λ i, members y_all i) <$> assigned in
  Ok (centroids, clusters).

End Bucketer.

(** ** Auxiliary notions for the proofs *)

Module ValidatorAux.
Import Validator.

(** The children lists of node [p] once [build_tree] has attached the
    tokens below [m]. *)
Definition kid_l (s : list Z) (m p : nat) : list nat :=
  filter (λ c, head_of s c = Some p ∧ ¬ p < c) (seq 1 (m - 1)).
Definition kid_r (s : list Z) (m p : nat) : list nat :=
  filter (λ c, head_of s c = Some p ∧ p < c) (seq 1 (m - 1)).
Definition built (s : list Z) (m : nat) : list NODE :=
  imap (λ p z, mkNODE (kid_l s m p) (kid_r s m p) p z) s.

(** The node at position [v] of the finished tree. *)
Definition node_at (s : list Z) (v : nat) (z : Z) : NODE :=
  mkNODE (kid_l s (length s) v) (kid_r s (length s) v) v z.

(** The finished tree. *)
Definition tree_of (s : list Z) : list NODE := built s (length s).

(** [u] lies below [v]. *)
Definition desc (s : list Z) (v u : nat) : Prop :=
  ∃ k, ancestor s k u = Some v.

(** Number of nodes not visited yet. *)
Definition unvisited (visit : list bool) : nat :=
  length (filter (λ b, b = false) visit).

(** [rec] returns on every node as long as at most [bound] nodes are
    unvisited, and visits no node twice. *)
Definition returns_below (s : list Z)
    (rec : list bool → NODE → result (list nat * list bool)) (bound : nat) : Prop :=
  ∀ V c z, length V = length s → s !! c = Some z → unvisited V ≤ bound →
    ∃ l V', rec V (node_at s c z) = Ok (l, V') ∧
            length V' = length s ∧ unvisited V' ≤ unvisited V.

(** [rec] lists and marks only nodes below the one it is called on. *)
Definition marks_below (s : list Z)
    (rec : list bool → NODE → result (list nat * list bool)) : Prop :=
  ∀ V c z l V', s !! c = Some z → rec V (node_at s c z) = Ok (l, V') →
    length V' = length V ∧
    (∀ u, u ∈ l → desc s c u) ∧
    (∀ u, V' !! u = Some true → V !! u = Some true ∨ desc s c u).

(** On a reachable node with nothing visited below it, [rec] returns what
    the recursive traversal of the specification returns. *)
Definition sim_below (s heads : list Z)
    (rec : list bool → NODE → result (list nat * list bool)) (fuel : nat) : Prop :=
  ∀ V c z l V', s !! c = Some z → desc s 0 c →
    (∀ u, desc s c u → V !! u = Some false) →
    rec V (node_at s c z) = Ok (l, V') →
    inorder_spec fuel heads c = Some l.

End ValidatorAux.

Module DecoderAux.
Import NP Decoder.

Section reference.
Context (scores : list (list (list score))) (lens : list nat).

(** The entries that one round of the loop of [eisner] computes, written
    as functions of the tables before the round. *)
Definition ilr_at (t : tables) (w b k l : nat) : score :=
  score_add (get3 (s_c t) k (k + l) b) (get3 (s_c t) (w + k) (1 + k + l) b).
Definition il_row (t : tables) (w b k : nat) : list score :=
  tab w (λ l, score_add (ilr_at t w b k l) (get3 scores (k + w) k b)).
Definition ir_row (t : tables) (w b k : nat) : list score :=
  tab w (λ l, score_add (ilr_at t w b k l) (get3 scores k (k + w) b)).
Definition s_i_at (t : tables) (w i j b : nat) : score :=
  if decide (j = i + w) then amax (ir_row t w b i)
  else if decide (i = j + w) then amax (il_row t w b j)
  else get3 (s_i t) i j b.
Definition p_i_at (t : tables) (w i j b : nat) : nat :=
  if decide (j = i + w) then argmax (ir_row t w b i) + i
  else if decide (i = j + w) then argmax (il_row t w b j) + j
  else get3 (p_i t) i j b.
Definition cl_row (t : tables) (w b k : nat) : list score :=
  tab w (λ l, score_add (get3 (s_c t) (k + l) k b) (s_i_at t w (w + k) (k + l) b)).
Definition s_c_mid (t : tables) (w i j b : nat) : score :=
  if decide (i = j + w) then amax (cl_row t w b j) else get3 (s_c t) i j b.
Definition cr_row (t : tables) (w b k : nat) : list score :=
  tab w (λ l, score_add (s_i_at t w k (1 + k + l) b)
                        (s_c_mid t w (1 + k + l) (w + k) b)).
Definition s_c_at (t : tables) (w i j b : nat) : score :=
  if decide (i = 0 ∧ j = w ∧ lens !!! b ≠ w) then NegInf
  else if decide (j = i + w) then amax (cr_row t w b i)
  else s_c_mid t w i j b.
Definition p_c_at (t : tables) (w i j b : nat) : nat :=
  if decide (j = i + w) then argmax (cr_row t w b i) + i + 1
  else if decide (i = j + w) then argmax (cl_row t w b j) + j
  else get3 (p_c t) i j b.
End reference.

(** The positions that a call of [backtrack] on the complete span from [i]
    to [j] gives a head to. *)
Definition assigned (i j c : nat) : Prop :=
  (i < c ∧ c ≤ j) ∨ (j ≤ c ∧ c < i).

(** [H] holds the heads of a complete span with head [i] that reaches to
    [j]: the last dependent [r] of [i] on that side, the complete span of
    [i] up to the split point, the complete span of [r] back to the split
    point, and the complete span of [r] on to [j].  A span of the root
    splits at the root. *)
Inductive cspan (H : list Z) : nat → nat → Prop :=
  | cspan_nil i : cspan H i i
  | cspan_right i j r r' :
      i ≤ r' → r' < r → r ≤ j → (i = 0 → r' = 0) →
      H !! r = Some (Z.of_nat i) →
      cspan H i r' → cspan H r (r' + 1) → cspan H r j →
      cspan H i j
  | cspan_left i j r r' :
      j ≤ r → r ≤ r' → r' < i →
      H !! r = Some (Z.of_nat i) →
      cspan H r r' → cspan H i (r' + 1) → cspan H r j →
      cspan H i j.

(** The root has the one dependent [r], whose spans cover the sentence. *)
Definition root_span (H : list Z) (L : nat) : Prop :=
  ∃ r, 1 ≤ r ∧ r ≤ L ∧ H !! r = Some 0%Z ∧ cspan H r 1 ∧ cspan H r L.

(** No position outside the span has its head inside. *)
Definition sealed (H : list Z) (i j : nat) : Prop :=
  ∀ c p, 1 ≤ c → H !! c = Some (Z.of_nat p) → assigned i j p → assigned i j c.

(** The dependents of [p] among the positions [a .. a + k - 1]. *)
Definition deps_in (H : list Z) (p a k : nat) : list nat :=
  filter (λ c, H !! c = Some (Z.of_nat p)) (seq a k).

(** The traversals of a list of nodes, one after the other. *)
Definition inorder_list (fuel : nat) (H : list Z) (cs : list nat) : option (list nat) :=
  (λ ls, concat ls) <$> mapM (Validator.inorder_spec fuel H) cs.

(** The split points stored for a sentence of length [L] lie inside their
    spans, and the incomplete spans of the root split at the root. *)
Definition pointers_ok (pi pc : list (list nat)) (L : nat) : Prop :=
  ∀ i j, i ≤ L → j ≤ L → i ≠ j →
    ∃ ri rc, pi !! i ≫= (.!! j) = Some ri ∧ pc !! i ≫= (.!! j) = Some rc ∧
      i `min` j ≤ ri ∧ ri < i `max` j ∧
      (i < j → i < rc ∧ rc ≤ j) ∧ (j < i → j ≤ rc ∧ rc < i) ∧
      (i = 0 → ri = 0).

(** What the tables hold for sentence [c] after the rounds [1 .. m]. *)
Definition loop_inv (seq_len : nat) (lens : list nat) (t : tables) (m c : nat) : Prop :=
  (∀ i j, i < seq_len → j < seq_len → i ≠ j → i - j ≤ m → j - i ≤ m →
     i `min` j ≤ get3 (p_i t) i j c ∧ get3 (p_i t) i j c < i `max` j ∧
     (i < j → i < get3 (p_c t) i j c ∧ get3 (p_c t) i j c ≤ j) ∧
     (j < i → j ≤ get3 (p_c t) i j c ∧ get3 (p_c t) i j c < i)) ∧
  (∀ j, 1 ≤ j → j ≤ m → j < seq_len → lens !!! c ≠ j →
     get3 (s_c t) 0 j c = NegInf) ∧
  (∀ j, 1 ≤ j → j ≤ m → j < seq_len → j ≤ lens !!! c →
     get3 (p_i t) 0 j c = 0).

(** Two sets of tables hold the same for sentence [c] at the positions
    [0 .. L]. *)
Definition tables_agree (c L : nat) (t t' : tables) : Prop :=
  ∀ i j, i ≤ L → j ≤ L →
    get3 (s_i t) i j c = get3 (s_i t') i j c ∧
    get3 (s_c t) i j c = get3 (s_c t') i j c ∧
    get3 (p_i t) i j c = get3 (p_i t') i j c ∧
    get3 (p_c t) i j c = get3 (p_c t') i j c.

(** The tables that [eisner] backtracks through, and their slices for
    sentence [c]. *)
Definition final_tables (scores : list (list (list score))) (mask : list (list bool))
    : tables :=
  let batch_size := length scores in
  let seq_len := length (scores !!! 0) in
  eisner_loop batch_size seq_len (transpose_210 batch_size seq_len seq_len scores)
    (mask_sum mask) (seq_len - 1).
Definition sentence_p_i (scores : list (list (list score))) (mask : list (list bool))
    (c : nat) : list (list nat) :=
  let seq_len := length (scores !!! 0) in
  tab2 seq_len seq_len (λ i j, get3 (p_i (final_tables scores mask)) i j c).
Definition sentence_p_c (scores : list (list (list score))) (mask : list (list bool))
    (c : nat) : list (list nat) :=
  let seq_len := length (scores !!! 0) in
  tab2 seq_len seq_len (λ i j, get3 (p_c (final_tables scores mask)) i j c).

(** The head array that [eisner] computes for sentence [c], before
    padding. *)
Definition sentence_heads (scores : list (list (list score))) (mask : list (list bool))
    (c : nat) : result (list Z) :=
  let L := mask_sum mask !!! c in
  backtrack (2 * L + 2) (sentence_p_i scores mask c) (sentence_p_c scores mask c)
    (replicate (L + 1) 1%Z) 0 L true.

(** Tensors for the examples: whole-number scores given by position. *)
Definition score_matrix (n : nat) (f : nat → nat → Z) : list (list score) :=
  tab2 n n (λ dep head, Fin (inject_Z (f dep head))).

End DecoderAux.

Module BucketerAux.
Import Bucketer.

(** What holds of the loop state of [kmeans] between two rounds: a label
    below [k] and a distance for every distinct value, and [k] centroids. *)
Definition state_ok (d : list Z) (k : nat) (st : state) : Prop :=
  length (y st) = length d ∧ length (dists st) = length d ∧
  Forall (λ j, j < k) (y st) ∧ length (c st) = k.

End BucketerAux.

(** ** Notions for the further properties *)

Module ValidatorProps.
Import Validator ValidatorAux.

(** Every entry at a position [≥ 1] is an index that a Python list of this
    length accepts, counted from the front or from the end. *)
Definition index_ok (heads : list Z) : Prop :=
  Forall (λ h, (- Z.of_nat (length heads) ≤ h < Z.of_nat (length heads))%Z)
         (drop 1 heads).

(** The same array with every entry written as a position counted from the
    front. *)
Definition normalize (heads : list Z) : list Z :=
  (λ h, if decide (h < 0)%Z then (Z.of_nat (length heads) + h)%Z else h) <$> heads.

(** Exactly one token is attached to the root. *)
Definition single_root (heads : list Z) : Prop :=
  ∃ r, ∀ c, head_of heads c = Some 0 ↔ c = r.

(** Following the heads from any position leads to the root. *)
Definition connected (heads : list Z) : Prop :=
  ∀ u, u < length heads → desc heads 0 u.

(** No arc is crossed: every position strictly between a token and its
    head lies below that head. *)
Definition projective (heads : list Z) : Prop :=
  ∀ c p m, head_of heads c = Some p → c `min` p < m < c `max` p → desc heads p m.

End ValidatorProps.

Module BucketerProps.
Import Bucketer.

(** The labels and distances of a loop state are those of the nearest
    centroid of that state. *)
Definition state_assigned (d : list Z) (st : state) : Prop :=
  assign d (c st) = Ok (dists st, y st).

(** The sum of a list of whole numbers. *)
Definition sumZ (x : list Z) : Z := foldr Z.add 0%Z x.

(** The positions of the sentences of length [v]. *)
Definition positions (x : list Z) (v : Z) : list nat :=
  filter (λ p, x !! p = Some v) (seq 0 (length x)).

(** The centroid at position [j] is the distinct value that [perm] puts
    there. *)
Definition at_values (d : list Z) (perm : list nat) (cs : list Q) : Prop :=
  Forall2 (λ q t, (q == inject_Z (d !!! t))%Q) cs perm.

(** The label of the distinct value at position [t] is the place of [t] in
    [perm]. *)
Definition labels_invert (perm y : list nat) : Prop :=
  length y = length perm ∧ ∀ t j, y !! t = Some j → perm !! j = Some t.

End BucketerProps.

Module DecoderProps.
Import NP Decoder.

(** Two sets of tables hold the same at the positions [0 .. L], for
    sentence [c] of the one and sentence [c'] of the other. *)
Definition columns_agree (c c' L : nat) (t t' : tables) : Prop :=
  ∀ i j, i ≤ L → j ≤ L →
    get3 (s_i t) i j c = get3 (s_i t') i j c' ∧
    get3 (s_c t) i j c = get3 (s_c t') i j c' ∧
    get3 (p_i t) i j c = get3 (p_i t') i j c' ∧
    get3 (p_c t) i j c = get3 (p_c t') i j c'.

(** [a ≤ b] on scores. *)
Definition score_le (a b : score) : Prop :=
  match a, b with
  | NegInf, _ => True
  | Fin _, NegInf => False
  | Fin x, Fin y => (x <= y)%Q
  end.

(** The sum of [arc d] over the positions [a .. a + k - 1]. *)
Definition sum_range (arc : nat → score) (a k : nat) : score :=
  foldr score_add (Fin 0) (arc <$> seq a k).

(** The sum over the positions that a complete span from [i] to [j] gives a
    head to. *)
Definition span_sum (arc : nat → score) (i j : nat) : score :=
  if decide (i ≤ j) then sum_range arc (i + 1) (j - i) else sum_range arc j (i - j).

(** The entries of the score tables [T] for sentence [c], and the score of
    the arc from head [h] to dependent [d] in the transposed tensor. *)
Definition Cf (T : tables) (c i j : nat) : score := get3 (s_c T) i j c.
Definition If (T : tables) (c i j : nat) : score := get3 (s_i T) i j c.
Definition Af (sc : list (list (list score))) (c h d : nat) : score := get3 sc h d c.

(** The arcs of a head array, scored by [A head dependent]. *)
Definition arcs_of (A : nat → nat → score) (H : list Z) (d : nat) : score :=
  match H !! d with
  | Some z => A (Z.to_nat z) d
  | None => NegInf
  end.

(** The score of the arc that gives token [d] the head it has in [H];
    [S] holds the scores of one sentence, [S[d][h]] for the head [h] of
    [d]. *)
Definition arc_score (S : list (list score)) (H : list Z) (d : nat) : score :=
  match H !! d with
  | Some z => get2 S d (Z.to_nat z)
  | None => NegInf
  end.

(** The score of a head array for a sentence of [L] tokens: the sum of the
    scores of its arcs. *)
Definition tree_score (S : list (list score)) (H : list Z) (L : nat) : score :=
  sum_range (arc_score S H) 1 L.

End DecoderProps.

(** ** Tokens *)

Module Text.

(** The general categories that [unicodedata.category] answers, by their
    two-letter names. *)
Inductive category :=
  | Lu | Ll | Lt | Lm | Lo | Mn | Mc | Me | Nd | Nl | No
  | Pc | Pd | Ps | Pe | Pi | Pf | Po | Sm | Sc | Sk | So
  | Zs | Zl | Zp | Cc | Cf | Cs | Co | Cn.

(** [name.startswith('P')] *)
Definition startswith_P (g : category) : bool :=
  match g with
  | Pc | Pd | Ps | Pe | Pi | Pf | Po => true
  | _ => false
  end.

(** [ispunct(token)]; [category_of] stands for the table behind
    [unicodedata.category]. *)
Definition ispunct {char : Type} (category_of : char → category)
    (token : list char) : bool :=
  forallb (λ ch, startswith_P (category_of ch)) token.

End Text.

(** ** Paths of the model archive *)

Module Paths.

(** [os.path.commonprefix] of two strings: their longest common leading
    part, taken character by character. *)
Fixpoint commonprefix {char : Type} `{EqDecision char} (a b : list char) : list char :=
  match a, b with
  | x :: a, y :: b => if decide (x = y) then x :: commonprefix a b else []
  | _, _ => []
  end.

(** [os.path.join(path, name)] on a POSIX system, [sep] being the slash. *)
Definition join {char : Type} `{EqDecision char} (sep : char)
    (path name : list char) : list char :=
  if decide (head name = Some sep) then name
  else if decide (path = [] ∨ last path = Some sep) then path ++ name
  else path ++ sep :: name.

(** [is_within_directory(directory, target)]; [abspath] stands for
    [os.path.abspath] in the working directory of the process. *)
Definition is_within_directory {char : Type} `{EqDecision char}
    (abspath : list char → list char) (directory target : list char) : bool :=
  let abs_directory := abspath directory in
  let abs_target := abspath target in
  let prefix := commonprefix abs_directory abs_target in
  bool_decide (prefix = abs_directory).

(** What a call of [safe_extract] ends in: the members handed to
    [tar.extractall], or the exception of the check. *)
Inductive extraction (char : Type) :=
  | Extracted (members : list (list char))
  | PathTraversal.
Arguments Extracted {char} members.
Arguments PathTraversal {char}.

(** [safe_extract(tar, path)]: [names] are the names of
    [tar.getmembers()], in their order. *)
Fixpoint check_members {char : Type} `{EqDecision char}
    (abspath : list char → list char) (sep : char)
    (path : list char) (names : list (list char)) : bool :=
  match names with
  | [] => true
  | name :: names =>
      let member_path := join sep path name in
      if negb (is_within_directory abspath path member_path) then false
      else check_members abspath sep path names
  end.
Definition safe_extract {char : Type} `{EqDecision char}
    (abspath : list char → list char) (sep : char)
    (names : list (list char)) (path : list char) : extraction char :=
  if check_members abspath sep path names then Extracted names else PathTraversal.

End Paths.

(** ** Download of the model *)

Module Download.

Definition DOWNLOAD_MODEL_PATH_DICT : gmap string string :=
  {[ "ernie-lstm" := "https://ddparser.bj.bcebos.com/DDParser-ernie-lstm-1.0.6.tar.gz" ]}.

(** How a call ends: it returns [None], or it raises. *)
Inductive outcome := Returned | KeyError | OtherError.

(** [download_model_from_url(path, model)] up to the point where it starts
    to fetch: [exists_] is [os.path.exists] on the state [w] of the file
    system, and [fetch] stands for everything after the look-up of the
    address, run on that address. *)
Definition download_model_from_url {world : Type}
    (exists_ : world → string → bool)
    (fetch : string → string → world → outcome * world)
    (path model : string) (w : world) : outcome * world :=
  if exists_ w path then (Returned, w)
  else match DOWNLOAD_MODEL_PATH_DICT !! model with
       | None => (KeyError, w)
       | Some download_model_path => fetch download_model_path path w
       end.

(** The default value of the parameter [model]. *)
Definition default_model : string := "lstm".

End Download.

(** * Properties *)

(** ** Results *)

Lemma bind_Ok {A B} (m : result A) (f : A → result B) b :
  m ≫= f = Ok b ↔ ∃ a, m = Ok a ∧ f a = Ok b.
Proof.
  destruct m; simpl; split; try (intros (? & ? & ?)); try discriminate; eauto.
  by simplify_eq.
Qed.

Lemma getitem_Ok {A} (l : list A) i a : getitem l i = Ok a ↔ l !! i = Some a.
Proof. unfold getitem. destruct (l !! i); split; intros; by simplify_eq. Qed.

Lemma getitem_lt {A} (l : list A) i : i < length l → ∃ a, getitem l i = Ok a.
Proof.
  intros Hi. destruct (lookup_lt_is_Some_2 l i Hi) as [a Ha].
  exists a. by apply getitem_Ok.
Qed.

Lemma getitem_ge {A} (l : list A) i : length l ≤ i → getitem l i = Raise IndexError.
Proof. intros Hi. unfold getitem. by rewrite lookup_ge_None_2. Qed.

Lemma forM_exists {A B} (f : A → result B) (P : nat → A → B → Prop) l :
  (∀ i x, l !! i = Some x → ∃ y, f x = Ok y ∧ P i x y) →
  ∃ ys, forM f l = Ok ys ∧ length ys = length l ∧
        (∀ i x y, l !! i = Some x → ys !! i = Some y → P i x y).
Proof.
  revert P. induction l as [|a l IH]; intros P Hall; simpl.
  - exists []. split_and!; [done..|]. intros i x y Hx. done.
  - destruct (Hall 0 a eq_refl) as (b & -> & Hb). simpl.
    destruct (IH (λ i, P (S i))) as (ys & -> & Hlen & Hys).
    { intros i x Hx. by apply (Hall (S i)). }
    simpl. exists (b :: ys). split_and!; [done|simpl; lia|].
    intros [|i] x y Hx Hy; simplify_eq/=; [done|]. by eapply Hys.
Qed.

Lemma forM_Ok {A B} (f : A → result B) l ys :
  forM f l = Ok ys →
  length ys = length l ∧
  ∀ i x, l !! i = Some x → ∃ y, ys !! i = Some y ∧ f x = Ok y.
Proof.
  revert ys. induction l as [|a l IH]; intros ys Hys; simpl in Hys.
  - simplify_eq. split; [done|]. intros i x Hx. done.
  - apply bind_Ok in Hys as (b & Hb & Hys).
    apply bind_Ok in Hys as (bs & Hbs & Hys). simplify_eq.
    destruct (IH bs Hbs) as [Hlen Hall]. split; [simpl; lia|].
    intros [|i] x Hx; simplify_eq/=; [by eauto|]. by apply Hall.
Qed.

Ltac inv_bind H :=
  repeat match type of H with
  | _ ≫= _ = Ok _ =>
      let a := fresh "a" in let Ha := fresh "Ha" in
      apply bind_Ok in H as (a & Ha & H)
  end.

Lemma py_index_Ok len z p :
  py_index len z = Ok p ↔
  ((0 ≤ z < Z.of_nat len)%Z ∧ p = Z.to_nat z) ∨
  ((- Z.of_nat len ≤ z < 0)%Z ∧ p = Z.to_nat (Z.of_nat len + z)).
Proof.
  unfold py_index. repeat case_decide; split; intros; simplify_eq; try lia;
    intuition (try lia; try congruence).
Qed.

Lemma py_index_lt len z p : py_index len z = Ok p → p < len.
Proof. rewrite py_index_Ok. lia. Qed.

Lemma py_index_cases len z :
  (∃ p, py_index len z = Ok p) ∨ py_index len z = Raise IndexError.
Proof. unfold py_index. repeat case_decide; eauto. Qed.

Lemma py_index_Raise len z :
  py_index len z = Raise IndexError ↔
  (z < - Z.of_nat len ∨ Z.of_nat len ≤ z)%Z.
Proof.
  unfold py_index. repeat case_decide; split; intros; simplify_eq;
    first [done | lia | exfalso; lia].
Qed.

(** ** [sorted] leaves an ascending list as it is *)

Lemma insert_sorted_head x l :
  Forall (λ y, x ≤ y) l → insert_sorted x l = x :: l.
Proof.
  destruct l as [|y l]; [done|]. intros H%Forall_cons_1. simpl.
  case_decide; [done|lia].
Qed.

Lemma sorted_ascending l : StronglySorted le l → sorted l = l.
Proof.
  induction 1 as [|x l Hl IH Hx]; [done|].
  unfold sorted in *. simpl. rewrite IH. by apply insert_sorted_head.
Qed.

Lemma filter_seq_ascending (P : nat → Prop) `{∀ x, Decision (P x)} a k :
  StronglySorted le (filter P (seq a k)).
Proof.
  revert a. induction k as [|k IH]; intros a; simpl; [constructor|].
  rewrite filter_cons. case_decide; [|apply IH].
  constructor; [apply IH|].
  apply Forall_forall. intros y [_ Hy%elem_of_seq]%list_elem_of_filter. lia.
Qed.

Lemma filter_seq_snoc_sorted (P : nat → Prop) `{∀ x, Decision (P x)} a k c :
  a + k ≤ c → sorted (filter P (seq a k) ++ [c]) = filter P (seq a k) ++ [c].
Proof.
  intros Hc. apply sorted_ascending, StronglySorted_app.
  split_and!; [|apply filter_seq_ascending|repeat constructor].
  intros x y [_ Hx%elem_of_seq]%list_elem_of_filter ->%list_elem_of_singleton. lia.
Qed.

(** ** What [build_tree] builds *)

Section build_tree.
Import Validator ValidatorAux.

Lemma head_of_Some s c p :
  head_of s c = Some p ↔
  1 ≤ c ∧ ∃ z, s !! c = Some z ∧ py_index (length s) z = Ok p.
Proof.
  unfold head_of. case_decide.
  - split; [done|]. lia.
  - destruct (s !! c) as [z|]; simpl.
    + split.
      * intros Hp. split; [lia|]. exists z. split; [done|].
        destruct (py_index (length s) z); by simplify_eq.
      * intros (_ & z' & Hz & Hp). simplify_eq. by rewrite Hp.
    + split; [done|]. intros (_ & z' & Hz & _). done.
Qed.

Lemma head_of_lt s c p : head_of s c = Some p → 1 ≤ c < length s ∧ p < length s.
Proof.
  intros (? & z & Hz & Hp)%head_of_Some.
  apply lookup_lt_Some in Hz. apply py_index_lt in Hp. lia.
Qed.

Lemma head_of_None s c z :
  1 ≤ c → s !! c = Some z →
  head_of s c = None ↔ py_index (length s) z = Raise IndexError.
Proof.
  intros Hc Hz. unfold head_of. case_decide; [lia|]. rewrite Hz. simpl.
  destruct (py_index_cases (length s) z) as [[p ->]| ->]; done.
Qed.

Lemma built_length s m : length (built s m) = length s.
Proof. apply length_imap. Qed.

Lemma built_lookup s m p :
  built s m !! p = (λ z, mkNODE (kid_l s m p) (kid_r s m p) p z) <$> s !! p.
Proof. unfold built. by rewrite list_lookup_imap. Qed.

Lemma built_init s : imap NODE_init s = built s 1.
Proof. done. Qed.

Lemma seq_1_S m : 1 ≤ m → seq 1 (S m - 1) = seq 1 (m - 1) ++ [m].
Proof.
  intros Hm. replace (S m - 1) with (S (m - 1)) by lia.
  rewrite seq_S. do 2 f_equal. lia.
Qed.

Lemma kid_l_S s m p :
  1 ≤ m →
  kid_l s (S m) p =
  kid_l s m p ++ (if decide (head_of s m = Some p ∧ ¬ p < m) then [m] else []).
Proof.
  intros Hm. unfold kid_l. rewrite seq_1_S, filter_app by done.
  reflexivity.
Qed.

Lemma kid_r_S s m p :
  1 ≤ m →
  kid_r s (S m) p =
  kid_r s m p ++ (if decide (head_of s m = Some p ∧ p < m) then [m] else []).
Proof.
  intros Hm. unfold kid_r. rewrite seq_1_S, filter_app by done.
  reflexivity.
Qed.

Lemma build_step_ok s m p :
  1 ≤ m → head_of s m = Some p →
  build_step (built s m) m = Ok (built s (S m)).
Proof.
  intros Hm Hp. pose proof (head_of_lt _ _ _ Hp) as [Hlt Hplt].
  apply head_of_Some in Hp as (_ & z & Hz & Hidx).
  destruct (lookup_lt_is_Some_2 s p Hplt) as [zp Hzp].
  unfold build_step.
  assert (getitem (built s m) m = Ok (mkNODE (kid_l s m m) (kid_r s m m) m z)) as ->.
  { apply getitem_Ok. by rewrite built_lookup, Hz. }
  simpl. rewrite built_length, Hidx. simpl.
  assert (getitem (built s m) p = Ok (mkNODE (kid_l s m p) (kid_r s m p) p zp)) as ->.
  { apply getitem_Ok. by rewrite built_lookup, Hzp. }
  simpl. f_equal. apply list_eq. intros q.
  assert (Hhead : head_of s m = Some p).
  { apply head_of_Some. eauto. }
  destruct (decide (q = p)) as [->|Hq].
  - rewrite list_lookup_insert_eq by (rewrite built_length; lia).
    rewrite built_lookup, Hzp. simpl. f_equal.
    rewrite kid_l_S, kid_r_S by done. unfold add. simpl.
    case_decide.
    + rewrite decide_False, decide_True by (intuition lia).
      rewrite app_nil_r. f_equal.
      unfold kid_r. apply filter_seq_snoc_sorted. lia.
    + rewrite decide_True, decide_False by (intuition lia).
      rewrite app_nil_r. f_equal.
      unfold kid_l. apply filter_seq_snoc_sorted. lia.
  - rewrite list_lookup_insert_ne by done.
    rewrite !built_lookup. destruct (s !! q) as [zq|]; [|done]. simpl.
    rewrite kid_l_S, kid_r_S by done.
    rewrite !decide_False by (intros [? _]; congruence). by rewrite !app_nil_r.
Qed.

Lemma build_step_raise s m :
  1 ≤ m < length s → head_of s m = None →
  build_step (built s m) m = Raise IndexError.
Proof.
  intros Hm Hp.
  destruct (lookup_lt_is_Some_2 s m) as [z Hz]; [lia|].
  apply (head_of_None s m z) in Hp; [|lia|done].
  unfold build_step.
  assert (getitem (built s m) m = Ok (mkNODE (kid_l s m m) (kid_r s m m) m z)) as ->.
  { apply getitem_Ok. by rewrite built_lookup, Hz. }
  simpl. by rewrite built_length, Hp.
Qed.

Lemma build_fold_ok s k m :
  1 ≤ m → m + k = length s →
  (∀ c, m ≤ c < length s → is_Some (head_of s c)) →
  foldM build_step (built s m) (seq m k) = Ok (built s (length s)).
Proof.
  revert m. induction k as [|k IH]; intros m Hm Hlen Hall; simpl.
  - by replace (length s) with m by lia.
  - destruct (Hall m) as [p Hp]; [lia|].
    rewrite (build_step_ok s m p) by done. simpl.
    apply IH; [lia..|]. intros c Hc. apply Hall. lia.
Qed.

Lemma build_fold_raise s k m c :
  1 ≤ m → m + k = length s → m ≤ c < length s → head_of s c = None →
  foldM build_step (built s m) (seq m k) = Raise IndexError.
Proof.
  revert m. induction k as [|k IH]; intros m Hm Hlen Hc Hnone; simpl; [lia|].
  destruct (head_of s m) as [p|] eqn:Hp.
  - rewrite (build_step_ok s m p) by done. simpl.
    apply IH; [lia..| |done].
    destruct (decide (c = m)) as [->|]; [congruence|lia].
  - by rewrite build_step_raise by (done || lia).
Qed.

Lemma build_tree_ok s :
  0 < length s →
  (∀ c, 1 ≤ c < length s → is_Some (head_of s c)) →
  build_tree s = Ok (built s (length s)).
Proof.
  intros Hlen Hall. unfold build_tree. rewrite length_imap, built_init.
  apply build_fold_ok; [lia..|done].
Qed.

Lemma build_tree_raise s c :
  1 ≤ c < length s → head_of s c = None →
  build_tree s = Raise IndexError.
Proof.
  intros Hc Hnone. unfold build_tree. rewrite length_imap, built_init.
  apply (build_fold_raise s _ 1 c); [lia..|done].
Qed.

End build_tree.

(** ** The head array as a graph *)

Section graph.
Import Validator ValidatorAux.

Lemma ancestor_add s a b u :
  ancestor s (a + b) u = ancestor s a u ≫= ancestor s b.
Proof.
  revert u. induction a as [|a IH]; intros u; simpl; [done|].
  destruct (head_of s u) as [p|]; simpl; [apply IH|done].
Qed.

Lemma ancestor_root s k : 0 < k → ancestor s k 0 = None.
Proof. destruct k; [lia|done]. Qed.

Lemma ancestor_lt s k u v :
  ancestor s k u = Some v → u < length s → v < length s.
Proof.
  revert u. induction k as [|k IH]; intros u; simpl; [by intros [= <-]|].
  destruct (head_of s u) as [p|] eqn:Hp; [|done]. simpl. intros Hk _.
  apply (IH p); [done|]. by apply head_of_lt in Hp as [_ ?].
Qed.

Lemma ancestor_source_lt s k u v :
  0 < k → ancestor s k u = Some v → 1 ≤ u < length s.
Proof.
  destruct k; [lia|]. simpl. intros _.
  destruct (head_of s u) as [p|] eqn:Hp; [|done].
  intros _. by apply head_of_lt in Hp as [? _].
Qed.

Lemma desc_refl s v : desc s v v.
Proof. by exists 0. Qed.

Lemma desc_child s c v u : head_of s c = Some v → desc s c u → desc s v u.
Proof.
  intros Hc [k Hk]. exists (k + 1).
  rewrite ancestor_add, Hk. simpl. by rewrite Hc.
Qed.

Lemma desc_lt s v u : desc s v u → v < length s → u < length s.
Proof.
  intros [[|k] Hk] Hv; [by simplify_eq/=|].
  by apply ancestor_source_lt in Hk as [_ ?]; [|lia].
Qed.

Lemma ancestor_cycle s m v j :
  ancestor s m v = Some v → ancestor s (j * m) v = Some v.
Proof.
  intros Hm. induction j as [|j IH]; [done|].
  replace (S j * m) with (m + j * m) by lia.
  by rewrite ancestor_add, Hm.
Qed.

(** A node that the root reaches is on no cycle. *)
Lemma reach_acyclic s v m : desc s 0 v → ancestor s m v = Some v → m = 0.
Proof.
  intros [k Hk] Hm. destruct (decide (m = 0)) as [|Hne]; [done|exfalso].
  pose proof (ancestor_cycle s m v (S k) Hm) as Hcyc.
  replace (S k * m) with (k + (S k * m - k)) in Hcyc by nia.
  rewrite ancestor_add, Hk in Hcyc. simpl in Hcyc.
  rewrite ancestor_root in Hcyc by nia. done.
Qed.

Lemma reach_child s c v : head_of s c = Some v → desc s 0 v → desc s 0 c.
Proof.
  intros Hc [k Hk]. exists (S k). simpl. by rewrite Hc.
Qed.

(** The parent of a reachable node is not below it. *)
Lemma child_not_above s c v :
  desc s 0 v → head_of s c = Some v → ¬ desc s c v.
Proof.
  intros Hv Hc [k Hk].
  assert (ancestor s (k + 1) v = Some v) as Hcyc.
  { rewrite ancestor_add, Hk. simpl. by rewrite Hc. }
  apply reach_acyclic in Hcyc; [lia|done].
Qed.

(** Two children of a reachable node have nothing in common below them. *)
Lemma siblings_disjoint s c c' v u :
  desc s 0 v → head_of s c = Some v → head_of s c' = Some v → c ≠ c' →
  desc s c u → desc s c' u → False.
Proof.
  intros Hv Hc Hc' Hne [a Ha] [b Hb].
  assert (∀ c c' a b, head_of s c = Some v → head_of s c' = Some v → c ≠ c' →
            ancestor s a u = Some c → ancestor s b u = Some c' → a ≤ b → False)
    as Hwlog.
  { clear c c' a b Hc Hc' Hne Ha Hb. intros c c' a b Hc Hc' Hne Ha Hb Hab.
    replace b with (a + (b - a)) in Hb by lia.
    rewrite ancestor_add, Ha in Hb. simpl in Hb.
    destruct (b - a) as [|d] eqn:Hd; [by simplify_eq/=|].
    simpl in Hb. rewrite Hc in Hb. simpl in Hb.
    apply (child_not_above s c' v Hv Hc'). by exists d. }
  destruct (decide (a ≤ b)).
  - by apply (Hwlog c c' a b).
  - apply (Hwlog c' c b a); [done..|lia].
Qed.

End graph.

(** ** The traversal comes back *)

Section traversal.
Import Validator ValidatorAux.
Context (s : list Z).

Lemma nodes_lookup c node :
  (tree_of s) !! c = Some node ↔ ∃ z, s !! c = Some z ∧ node = node_at s c z.
Proof.
  unfold tree_of. rewrite built_lookup. unfold node_at.
  destruct (s !! c) as [z|]; simpl.
  - split; [intros [= <-]; by eauto|]. by intros (z0 & [= <-] & ->).
  - split; [done|]. by intros (z0 & ? & _).
Qed.

Lemma kid_l_elem c v : c ∈ kid_l s (length s) v → head_of s c = Some v.
Proof. unfold kid_l. rewrite list_elem_of_filter. by intros [[? _] _]. Qed.

Lemma kid_r_elem c v : c ∈ kid_r s (length s) v → head_of s c = Some v.
Proof. unfold kid_r. rewrite list_elem_of_filter. by intros [[? _] _]. Qed.

Lemma unvisited_insert (V : list bool) v :
  V !! v = Some false → S (unvisited (<[v := true]> V)) = unvisited V.
Proof.
  unfold unvisited. revert v. induction V as [|b V IH]; intros [|v] Hv;
    simplify_eq/=.
  - by rewrite filter_cons_False.
  - rewrite !(filter_cons _ b). case_decide; simpl; by rewrite <-(IH v).
Qed.

Lemma traverse_children_total rec bound cs acc V :
  returns_below s rec bound →
  Forall (λ c, c < length s) cs →
  length V = length s → unvisited V ≤ bound →
  ∃ l V', traverse_children rec (tree_of s) cs acc V = Ok (l, V') ∧
          length V' = length s ∧ unvisited V' ≤ unvisited V.
Proof.
  intros Hrec. revert acc V.
  induction cs as [|c cs IH]; intros acc V Hcs HV Hb; simpl; [by eauto|].
  apply Forall_cons_1 in Hcs as [Hc Hcs].
  destruct (lookup_lt_is_Some_2 s c Hc) as [z Hz].
  assert (getitem (tree_of s) c = Ok (node_at s c z)) as ->.
  { apply getitem_Ok, nodes_lookup. eauto. }
  simpl. destruct (Hrec V c z HV Hz Hb) as (l & V1 & -> & HV1 & Hle). simpl.
  destruct (IH (acc ++ l) V1 Hcs HV1) as (l' & V' & -> & ? & ?); [lia|].
  exists l', V'. split_and!; [done..|lia].
Qed.

Lemma kids_lt v :
  Forall (λ c, c < length s) (kid_l s (length s) v) ∧
  Forall (λ c, c < length s) (kid_r s (length s) v).
Proof.
  split; apply Forall_forall; intros c Hc.
  - apply kid_l_elem, head_of_lt in Hc. lia.
  - apply kid_r_elem, head_of_lt in Hc. lia.
Qed.

(** Every call either returns at once or marks a node that was not marked:
    more fuel than unmarked (tree_of s) is enough. *)
Lemma inorder_traversal_fuel fuel :
  ∀ V v z, length V = length s → s !! v = Some z → unvisited V < fuel →
    ∃ l V', inorder_traversal fuel (tree_of s) V (node_at s v z) = Ok (l, V') ∧
            length V' = length s ∧ unvisited V' ≤ unvisited V.
Proof.
  induction fuel as [|fuel IH]; intros V v z HV Hz Hf; [lia|].
  simpl. pose proof (lookup_lt_Some _ _ _ Hz) as Hv.
  destruct (lookup_lt_is_Some_2 V v) as [b Hb]; [lia|].
  assert (getitem V v = Ok b) as -> by by apply getitem_Ok.
  simpl. destruct b; [by eauto|].
  pose proof (unvisited_insert V v Hb) as Hun.
  assert (returns_below s (inorder_traversal fuel (tree_of s)) (unvisited (<[v:=true]> V)))
    as Hrec.
  { intros V1 c zc HV1 Hzc Hle. apply IH; [done..|lia]. }
  destruct (kids_lt v) as [Hl Hr].
  destruct (traverse_children_total _ _ _ [] (<[v:=true]> V) Hrec Hl)
    as (lf & V1 & -> & HV1 & Hle1); [by rewrite length_insert|done|].
  simpl.
  destruct (traverse_children_total _ _ _ [] V1 Hrec Hr)
    as (rf & V2 & -> & HV2 & Hle2); [done..|].
  simpl. eexists _, _. split_and!; [done..|lia].
Qed.


Lemma traverse_children_marks rec cs acc V l V' :
  marks_below s rec →
  traverse_children rec (tree_of s) cs acc V = Ok (l, V') →
  length V' = length V ∧
  (∀ u, u ∈ l → u ∈ acc ∨ ∃ c, c ∈ cs ∧ desc s c u) ∧
  (∀ u, V' !! u = Some true → V !! u = Some true ∨ ∃ c, c ∈ cs ∧ desc s c u).
Proof.
  intros Hrec. revert acc V.
  induction cs as [|c cs IH]; intros acc V H; simpl in H.
  - simplify_eq. split_and!; [done|by left|by left].
  - inv_bind H. destruct a0 as [l1 V1].
    apply getitem_Ok, nodes_lookup in Ha as (z & Hz & ->).
    destruct (Hrec _ _ _ _ _ Hz Ha0) as (Hlen1 & Hl1 & Hm1).
    destruct (IH _ _ H) as (Hlen & Hl & Hm).
    split_and!; [congruence| |].
    + intros u Hu. destruct (Hl u Hu) as [[?|?]%elem_of_app|(c' & ? & ?)].
      * by left.
      * right. exists c. split; [left|auto].
      * right. exists c'. split; [by right|done].
    + intros u Hu. destruct (Hm u Hu) as [Hu1|(c' & ? & ?)].
      * destruct (Hm1 u Hu1) as [?|?]; [by left|].
        right. exists c. split; [left|done].
      * right. exists c'. split; [by right|done].
Qed.

Lemma inorder_traversal_marks fuel :
  marks_below s (inorder_traversal fuel (tree_of s)).
Proof.
  induction fuel as [|fuel IH]; intros V v z l V' Hz H; [done|].
  simpl in H. inv_bind H.
  destruct a.
  { simplify_eq. split_and!; [done|by intros ? ?%elem_of_nil|by left]. }
  inv_bind H. destruct a as [lf V1]. inv_bind H. destruct a as [rf V2].
  simplify_eq.
  apply traverse_children_marks in Ha0 as (Hlen1 & Hl1 & Hm1); [|done].
  apply traverse_children_marks in Ha1 as (Hlen2 & Hl2 & Hm2); [|done].
  rewrite length_insert in Hlen1. split_and!; [congruence| |].
  - intros u [Hu|[->|Hu]%elem_of_cons]%elem_of_app.
    + destruct (Hl1 u Hu) as [?%elem_of_nil|(c & Hc%kid_l_elem & ?)]; [done|].
      by eapply desc_child.
    + apply desc_refl.
    + destruct (Hl2 u Hu) as [?%elem_of_nil|(c & Hc%kid_r_elem & ?)]; [done|].
      by eapply desc_child.
  - intros u Hu.
    destruct (Hm2 u Hu) as [Hu1|(c & Hc%kid_r_elem & ?)];
      [|right; by eapply desc_child].
    destruct (Hm1 u Hu1) as [Hu0|(c & Hc%kid_l_elem & ?)];
      [|right; by eapply desc_child].
    destruct (decide (u = v)) as [->|]; [right; apply desc_refl|].
    left. by rewrite list_lookup_insert_ne in Hu0.
Qed.

End traversal.

(** ** The traversal of the code and the traversal of the specification *)

Section simulation.
Import Validator ValidatorAux.
Context (s heads : list Z).
Hypothesis Hdep : ∀ v, desc s 0 v →
  kid_l s (length s) v = left_dependents heads v ∧
  kid_r s (length s) v = right_dependents heads v.

Lemma traverse_children_sim rec fuel cs acc V l V' v :
  marks_below s rec → sim_below s heads rec fuel → desc s 0 v → NoDup cs →
  (∀ c, c ∈ cs → head_of s c = Some v) →
  (∀ c u, c ∈ cs → desc s c u → V !! u = Some false) →
  traverse_children rec (tree_of s) cs acc V = Ok (l, V') →
  ∃ ls, mapM (inorder_spec fuel heads) cs = Some ls ∧ l = acc ++ concat ls.
Proof.
  intros Hmarks Hsim Hv. revert acc V.
  induction cs as [|c cs IH]; intros acc V Hnd Hhead Hfresh H; simpl in H.
  - simplify_eq. exists []. by rewrite app_nil_r.
  - inv_bind H. destruct a0 as [l1 V1].
    apply getitem_Ok, nodes_lookup in Ha as (z & Hz & ->).
    apply NoDup_cons in Hnd as [Hc Hnd].
    assert (Hhc : head_of s c = Some v) by (apply Hhead; left).
    pose proof (Hsim _ _ _ _ _ Hz (reach_child _ _ _ Hhc Hv)
                  (λ u Hu, Hfresh c u (list_elem_of_here _ _) Hu) Ha0) as Hspec.
    destruct (Hmarks _ _ _ _ _ Hz Ha0) as (Hlen1 & _ & Hm1).
    destruct (IH (acc ++ l1) V1) as (ls & Hls & ->); [done| | |done|].
    + intros c' Hc'. apply Hhead. by right.
    + intros c' u Hc' Hu.
      assert (V !! u = Some false) as HVu by (apply (Hfresh c'); [by right|done]).
      destruct (lookup_lt_is_Some_2 V1 u) as [b Hb].
      { rewrite Hlen1. by eapply lookup_lt_Some. }
      destruct b; [exfalso|done].
      destruct (Hm1 u Hb) as [?|Hcu]; [congruence|].
      apply (siblings_disjoint s c c' v u); try done.
      * apply Hhead. by right.
      * intros ->. done.
    + exists (l1 :: ls). simpl. rewrite Hspec. simpl. rewrite Hls. simpl.
      split; [done|]. by rewrite app_assoc.
Qed.

Lemma inorder_traversal_sim fuel :
  sim_below s heads (inorder_traversal fuel (tree_of s)) fuel.
Proof using Hdep.
  induction fuel as [|fuel IH]; intros V v z l V' Hz Hv Hfresh H; [done|].
  simpl in H. apply bind_Ok in H as (b & Hb & H).
  apply getitem_Ok in Hb.
  rewrite (Hfresh v (desc_refl s v)) in Hb. simplify_eq.
  apply bind_Ok in H as ([lf V1] & Ha0 & H).
  apply bind_Ok in H as ([rf V2] & Ha1 & H).
  simplify_eq.
  pose proof (inorder_traversal_marks s fuel) as Hmarks.
  destruct (traverse_children_marks s _ _ _ _ _ _ Hmarks Ha0) as (Hlen1 & _ & Hm1).
  rewrite length_insert in Hlen1.
  assert (Hins : ∀ c u, head_of s c = Some v → desc s c u →
            <[v:=true]> V !! u = Some false).
  { intros c u Hc Hu. rewrite list_lookup_insert_ne.
    - apply Hfresh. by eapply desc_child.
    - intros <-. by apply (child_not_above s c v). }
  apply (traverse_children_sim _ fuel _ _ _ _ _ v) in Ha0
    as (ls & Hls & ->); [|done|done|done| | |].
  2:{ apply NoDup_filter, NoDup_seq. }
  2:{ intros c Hc. by apply kid_l_elem. }
  2:{ intros c u Hc%kid_l_elem Hu. by apply (Hins c). }
  apply (traverse_children_sim _ fuel _ _ _ _ _ v) in Ha1
    as (rs & Hrs & ->); [|done|done|done| | |].
  2:{ apply NoDup_filter, NoDup_seq. }
  2:{ intros c Hc. by apply kid_r_elem. }
  2:{ intros c u Hc Hu.
      pose proof (kid_r_elem _ _ _ Hc) as Hhc.
      pose proof (Hins c u Hhc Hu) as HVu.
      destruct (lookup_lt_is_Some_2 V1 u) as [b Hb].
      { rewrite Hlen1. apply lookup_lt_Some in HVu.
        by rewrite length_insert in HVu. }
      destruct b; [exfalso|done].
      destruct (Hm1 u Hb) as [?|(c' & Hc' & Hu')]; [congruence|].
      apply (siblings_disjoint s c' c v u); try done.
      - by apply kid_l_elem.
      - intros ->. unfold kid_l, kid_r in *.
        apply list_elem_of_filter in Hc as [[_ ?] _].
        apply list_elem_of_filter in Hc' as [[_ ?] _]. done. }
  simpl. destruct (Hdep v Hv) as [<- <-]. rewrite Hls. simpl. rewrite Hrs. done.
Qed.

End simulation.

(** ** Valid head arrays *)

Section valid.
Import Validator ValidatorAux.

Lemma valid_heads_lookup heads i h :
  valid_heads heads → 1 ≤ i → heads !! i = Some h →
  (0 ≤ h < Z.of_nat (length heads))%Z.
Proof.
  unfold valid_heads. rewrite Forall_lookup. intros Hv Hi Hh.
  apply (Hv (i - 1)). rewrite lookup_drop. by replace (1 + (i - 1)) with i by lia.
Qed.

Lemma head_of_overwrite heads z c :
  head_of (<[0:=z]> heads) c = head_of heads c.
Proof.
  unfold head_of. case_decide; [done|].
  by rewrite list_lookup_insert_ne, length_insert by done.
Qed.

Lemma ancestor_overwrite heads z k u :
  ancestor (<[0:=z]> heads) k u = ancestor heads k u.
Proof.
  revert u. induction k as [|k IH]; intros u; simpl; [done|].
  rewrite head_of_overwrite. destruct (head_of heads u); simpl; [apply IH|done].
Qed.

Lemma head_of_valid heads c p :
  valid_heads heads → 1 ≤ c →
  head_of heads c = Some p ↔ heads !! c = Some (Z.of_nat p).
Proof.
  intros Hv Hc. rewrite head_of_Some. split.
  - intros (_ & z & Hz & Hp). pose proof (valid_heads_lookup _ _ _ Hv Hc Hz).
    apply py_index_Ok in Hp as [[_ ->]|[? _]]; [|lia].
    by rewrite Z2Nat.id by lia.
  - intros Hp. pose proof (valid_heads_lookup _ _ _ Hv Hc Hp).
    split; [done|]. exists (Z.of_nat p). split; [done|].
    apply py_index_Ok. left. split; [done|]. by rewrite Nat2Z.id.
Qed.

Lemma head_of_valid_is_Some heads c :
  valid_heads heads → 1 ≤ c < length heads → is_Some (head_of heads c).
Proof.
  intros Hv Hc. destruct (lookup_lt_is_Some_2 heads c) as [z Hz]; [lia|].
  pose proof (valid_heads_lookup _ _ _ Hv (proj1 Hc) Hz).
  exists (Z.to_nat z). apply head_of_valid; [done|lia|].
  by rewrite Z2Nat.id by lia.
Qed.

Lemma filter_ext_in {A} (P Q : A → Prop) `{∀ x, Decision (P x)}
    `{∀ x, Decision (Q x)} (l : list A) :
  (∀ x, x ∈ l → P x ↔ Q x) → filter P l = filter Q l.
Proof.
  induction l as [|x l IH]; intros Hext; [done|].
  rewrite !filter_cons.
  rewrite IH by (intros y Hy; apply Hext; by right).
  pose proof (Hext x (list_elem_of_here _ _)). by repeat case_decide; tauto.
Qed.

Lemma filter_all {A} (P : A → Prop) `{∀ x, Decision (P x)} (l : list A) :
  (∀ x, x ∈ l → P x) → filter P l = l.
Proof.
  induction l as [|x l IH]; intros Hall; [done|].
  rewrite filter_cons_True by (apply Hall; left).
  f_equal. apply IH. intros y Hy. apply Hall. by right.
Qed.

Lemma filter_none {A} (P : A → Prop) `{∀ x, Decision (P x)} (l : list A) :
  (∀ x, x ∈ l → ¬ P x) → filter P l = [].
Proof.
  intros Hnone. apply elem_of_nil_inv.
  intros x [? ?]%list_elem_of_filter. by apply (Hnone x).
Qed.

Lemma kids_dependents heads z v :
  valid_heads heads → desc (<[0:=z]> heads) 0 v →
  kid_l (<[0:=z]> heads) (length (<[0:=z]> heads)) v = left_dependents heads v ∧
  kid_r (<[0:=z]> heads) (length (<[0:=z]> heads)) v = right_dependents heads v.
Proof.
  intros Hv Hreach. rewrite length_insert.
  assert (Hself : head_of heads v ≠ Some v).
  { intros Hself.
    assert (ancestor (<[0:=z]> heads) 1 v = Some v) as Hcyc.
    { simpl. by rewrite head_of_overwrite, Hself. }
    by apply reach_acyclic in Hcyc. }
  unfold kid_l, kid_r, left_dependents, right_dependents, dependents.
  rewrite !list_filter_filter.
  split; apply filter_ext_in; intros c [Hc _]%elem_of_seq;
    rewrite head_of_overwrite, head_of_valid by done.
  - split; [|intros [? ?]; split; [done|lia]].
    intros [Hh ?]. split; [|done].
    destruct (decide (c = v)) as [->|]; [|lia].
    exfalso. apply Hself. by apply head_of_valid.
  - split; [intros [? ?]; split; [lia|done]|].
    intros [? Hh]. split; [done|].
    destruct (decide (c = v)) as [->|]; [|lia].
    exfalso. apply Hself. by apply head_of_valid.
Qed.

Lemma inorder_spec_mono fuel fuel' heads v l :
  inorder_spec fuel heads v = Some l → fuel ≤ fuel' →
  inorder_spec fuel' heads v = Some l.
Proof.
  revert fuel' v l. induction fuel as [|fuel IH]; intros [|fuel'] v l H Hle;
    [done|done|lia|].
  simpl in *.
  destruct (mapM _ (left_dependents heads v)) as [ls|] eqn:Hls; [|done].
  destruct (mapM _ (right_dependents heads v)) as [rs|] eqn:Hrs; [|done].
  simpl in H.
  assert (∀ cs ks, mapM (inorder_spec fuel heads) cs = Some ks →
            mapM (inorder_spec fuel' heads) cs = Some ks) as Hmap.
  { intros cs ks Hm. apply mapM_Some. apply mapM_Some in Hm.
    eapply Forall2_impl; [done|]. intros c k Hk. apply IH; [done|lia]. }
  by rewrite (Hmap _ _ Hls), (Hmap _ _ Hrs).
Qed.

Lemma inorder_is_unique heads v l l' :
  inorder_is heads v l → inorder_is heads v l' → l = l'.
Proof.
  intros [f Hf] [f' Hf'].
  apply (inorder_spec_mono _ (f `max` f')) in Hf; [|lia].
  apply (inorder_spec_mono _ (f `max` f')) in Hf'; [|lia].
  congruence.
Qed.

End valid.

(** ** What [istree] answers *)

Section istree.
Import Validator ValidatorAux.

(** A node that is marked already contributes nothing. *)
Lemma inorder_traversal_visited fuel nodes visit node :
  visit !! id node = Some true →
  inorder_traversal (S fuel) nodes visit node = Ok ([], visit).
Proof. intros Hv. simpl. unfold getitem. by rewrite Hv. Qed.

#[local] Arguments inorder_traversal : simpl never.

Lemma kid_l_root s m : kid_l s m 0 = [].
Proof.
  unfold kid_l. apply filter_none. intros c [? _]%elem_of_seq [_ ?]. lia.
Qed.

Lemma istree_nil : istree [] = Raise IndexError.
Proof. done. Qed.

Lemma istree_overwrite heads z : istree (<[0:=z]> heads) = istree heads.
Proof.
  unfold istree, DepTree_init. rewrite length_insert.
  case_decide; [|done]. by rewrite list_insert_insert_eq.
Qed.

Lemma DepTree_init_valid heads :
  0 < length heads → valid_heads heads →
  DepTree_init heads =
  Ok {| sentence := <[0:=(-1)%Z]> heads;
        nodes := tree_of (<[0:=(-1)%Z]> heads);
        visit := replicate (length (<[0:=(-1)%Z]> heads)) false |}.
Proof.
  intros Hlen Hv. unfold DepTree_init. rewrite decide_True by done. simpl.
  rewrite build_tree_ok; [done|by rewrite length_insert|].
  intros c Hc. rewrite length_insert in Hc. rewrite head_of_overwrite.
  by apply head_of_valid_is_Some.
Qed.

(** The traversal that [judge_legal] starts returns, lists only nodes that
    the root reaches, and lists them the way the specification does. *)
Lemma root_traversal heads :
  0 < length heads → valid_heads heads →
  ∃ l V',
    inorder_traversal (S (length heads)) (tree_of (<[0:=(-1)%Z]> heads))
      (replicate (length heads) false) (node_at (<[0:=(-1)%Z]> heads) 0 (-1)%Z)
    = Ok (l, V') ∧
    inorder_spec (S (length heads)) heads 0 = Some l ∧
    (∀ u, u ∈ l → desc heads 0 u).
Proof.
  intros Hlen Hv. set (s := <[0:=(-1)%Z]> heads).
  assert (Hs0 : s !! 0 = Some (-1)%Z) by by apply list_lookup_insert_eq.
  assert (Hslen : length s = length heads) by apply length_insert.
  destruct (inorder_traversal_fuel s (S (length heads))
              (replicate (length heads) false) 0 (-1)%Z)
    as (l & V' & Hl & _ & _); [by rewrite length_replicate|done| |].
  { unfold unvisited. pose proof (length_filter (λ b, b = false)
      (replicate (length heads) false)) as Hle.
    rewrite length_replicate in Hle. lia. }
  exists l, V'. split; [done|]. split.
  - eapply (inorder_traversal_sim s heads); [|done|apply desc_refl| |done].
    + intros v Hreach. by apply kids_dependents.
    + intros u Hu. apply lookup_replicate_2.
      rewrite <-Hslen. eapply desc_lt; [done|]. lia.
  - intros u Hu.
    destruct (inorder_traversal_marks s _ _ _ _ _ _ Hs0 Hl) as (_ & Hdesc & _).
    destruct (Hdesc u Hu) as [k Hk]. exists k.
    by rewrite <-(ancestor_overwrite heads (-1)%Z).
Qed.

Lemma root_dependents heads :
  valid_heads heads →
  kid_r (<[0:=(-1)%Z]> heads) (length (<[0:=(-1)%Z]> heads)) 0 = dependents heads 0.
Proof.
  intros Hv. destruct (kids_dependents heads (-1)%Z 0 Hv) as [_ ->];
    [apply desc_refl|].
  unfold right_dependents. apply filter_all. intros; lia.
Qed.

(** [istree] on a valid head array, in one formula. *)
Lemma istree_valid heads :
  0 < length heads → valid_heads heads →
  ∃ l, inorder_spec (S (length heads)) heads 0 = Some l ∧
       (∀ u, u ∈ l → desc heads 0 u) ∧
       istree heads =
       Ok (bool_decide (length (dependents heads 0) = 1 ∧ seq 0 (length heads) = l)).
Proof.
  intros Hlen Hv. destruct (root_traversal heads Hlen Hv) as (l & V' & Hl & Hspec & Hdesc).
  exists l. split; [done|]. split; [done|].
  unfold istree. rewrite DepTree_init_valid by done. simpl.
  unfold judge_legal. simpl.
  assert (getitem (tree_of (<[0:=(-1)%Z]> heads)) 0
          = Ok (node_at (<[0:=(-1)%Z]> heads) 0 (-1)%Z)) as ->.
  { apply getitem_Ok, nodes_lookup. exists (-1)%Z.
    split; [by apply list_lookup_insert_eq|done]. }
  simpl. rewrite kid_l_root, root_dependents by done. simpl.
  assert (length (tree_of (<[0:=(-1)%Z]> heads)) = length heads) as ->.
  { unfold tree_of. by rewrite built_length, length_insert. }
  rewrite length_insert.
  case_decide as Hroot.
  - rewrite bool_decide_eq_false_2; [done|]. intros [? _]. done.
  - rewrite Hl. simpl. case_decide as Hseq.
    + rewrite bool_decide_eq_false_2; [done|]. intros [_ ?]. done.
    + rewrite bool_decide_eq_true_2; [done|]. split; [lia|].
      by destruct (decide (seq 0 (length heads) = l)).
Qed.

End istree.

(** ** The validator: main results *)

Section validator_results.
Import Validator ValidatorAux.

Lemma two_elements {A} (l : list A) x y : x ∈ l → y ∈ l → x ≠ y → 2 ≤ length l.
Proof.
  destruct l as [|a [|b l]]; simpl; [by intros ?%elem_of_nil| |lia].
  intros ->%list_elem_of_singleton ->%list_elem_of_singleton. done.
Qed.

Lemma dependents_elem heads i p :
  1 ≤ i → heads !! i = Some (Z.of_nat p) → i ∈ dependents heads p.
Proof.
  intros Hi Hh. unfold dependents. apply list_elem_of_filter. split; [done|].
  apply elem_of_seq. apply lookup_lt_Some in Hh. lia.
Qed.

(** C2: on a head array whose entries from position 1 on are positions of
    the array, [istree] answers true exactly when the root has one dependent
    and the recursive in-order traversal from the root is [0 .. n-1]; the
    entry at position 0 does not matter; two tokens whose head is the root
    make the answer false. *)
Theorem istree_iff_single_root_inorder heads :
  valid_heads heads →
  (istree heads = Ok true ↔
     length (dependents heads 0) = 1 ∧
     inorder_is heads 0 (seq 0 (length heads))) ∧
  (∀ z, istree (<[0:=z]> heads) = istree heads) ∧
  (∀ i j, 1 ≤ i → 1 ≤ j → i ≠ j →
     heads !! i = Some 0%Z → heads !! j = Some 0%Z → istree heads = Ok false).
Proof.
  intros Hv. split_and!; [| apply istree_overwrite |].
  - destruct heads as [|h0 heads'] eqn:E.
    { rewrite istree_nil. split; [done|]. intros [? _]. done. }
    rewrite <-E in *. assert (0 < length heads) as Hlen by (subst; simpl; lia).
    destruct (istree_valid heads Hlen Hv) as (l & Hspec & _ & ->).
    split.
    + intros [= [Hroot ->]%bool_decide_eq_true]. split; [done|]. by eexists.
    + intros [Hroot Hin]. f_equal. apply bool_decide_eq_true. split; [done|].
      eapply inorder_is_unique; [done|]. by eexists.
  - intros i j Hi Hj Hne Hhi Hhj.
    assert (0 < length heads) as Hlen by (apply lookup_lt_Some in Hhi; lia).
    destruct (istree_valid heads Hlen Hv) as (l & _ & _ & ->).
    f_equal. apply bool_decide_eq_false. intros [Hroot _].
    pose proof (two_elements (dependents heads 0) i j
                  (dependents_elem _ _ 0 Hi Hhi) (dependents_elem _ _ 0 Hj Hhj) Hne).
    lia.
Qed.

Lemma istree_iff_single_root_inorder_witness :
  istree [0; 0; 1]%Z = Ok true ↔
    length (dependents [0; 0; 1]%Z 0) = 1 ∧
    inorder_is [0; 0; 1]%Z 0 (seq 0 (length [0; 0; 1]%Z)).
Proof.
  apply (istree_iff_single_root_inorder [0; 0; 1]%Z).
  unfold valid_heads. simpl. repeat constructor; lia.
Defined.

(** C6: on a valid head array [istree] returns and does not raise; when the
    induced graph has a cycle, or more generally is not a single-rooted
    tree whose in-order traversal is [0 .. n-1], the answer is false; a node
    that is marked as visited contributes the empty list and is not entered
    again. *)
Theorem istree_cycle_false heads :
  heads ≠ [] → valid_heads heads →
  (∃ b, istree heads = Ok b) ∧
  (has_cycle heads → istree heads = Ok false) ∧
  (¬ (length (dependents heads 0) = 1 ∧
      inorder_is heads 0 (seq 0 (length heads))) → istree heads = Ok false) ∧
  (∀ fuel nodes visit node, visit !! id node = Some true →
     inorder_traversal (S fuel) nodes visit node = Ok ([], visit)).
Proof.
  intros Hne Hv.
  assert (0 < length heads) as Hlen by (destruct heads; simpl; [done|lia]).
  destruct (istree_valid heads Hlen Hv) as (l & Hspec & Hdesc & ->).
  split_and!; [by eexists| | |apply inorder_traversal_visited].
  - intros (u & k & Hu & Hk & Hcyc). f_equal. apply bool_decide_eq_false.
    intros [_ <-].
    assert (desc heads 0 u) as Hreach by (apply Hdesc, elem_of_seq; lia).
    apply reach_acyclic in Hcyc; [lia|done].
  - intros Hnot. f_equal. apply bool_decide_eq_false. intros [Hroot <-].
    apply Hnot. split; [done|]. by eexists.
Qed.

Lemma istree_cycle_false_witness : istree [0; 2; 1]%Z = Ok false.
Proof.
  refine (proj1 (proj2 (istree_cycle_false [0; 2; 1]%Z _ _)) _).
  - done.
  - unfold valid_heads. simpl. repeat constructor; lia.
  - exists 1, 2. split_and!; [simpl; lia|lia|reflexivity].
Defined.

(** C5, as far as it holds: an entry at a position [i ≥ 1] that is at least
    the length of the array, or below minus the length, makes [istree]
    raise [IndexError], the error of the list access [nodes[node.parent]]. *)
Theorem istree_out_of_range heads i h :
  1 ≤ i → heads !! i = Some h →
  (h < - Z.of_nat (length heads) ∨ Z.of_nat (length heads) ≤ h)%Z →
  istree heads = Raise IndexError.
Proof.
  intros Hi Hh Hrange. pose proof (lookup_lt_Some _ _ _ Hh) as Hlt.
  unfold istree, DepTree_init. rewrite decide_True by lia. simpl.
  rewrite (build_tree_raise _ i); [done|by rewrite length_insert; lia|].
  rewrite head_of_overwrite.
  apply (head_of_None heads i h); [done..|]. by apply py_index_Raise.
Qed.

Lemma istree_out_of_range_witness : istree [0; 0; 3]%Z = Raise IndexError.
Proof.
  apply (istree_out_of_range [0; 0; 3]%Z 2 3%Z); [lia|reflexivity|simpl; lia].
Defined.

(** C5, as stated, fails: the entry -2 at position 2 is negative and is not
    the root sentinel, and [istree] answers without an error, reading -2 as
    the second position from the end. *)
Lemma istree_negative_head_accepted :
  [0; 0; -2]%Z !! 2 = Some (-2)%Z ∧ (-2 < 0)%Z ∧ (-2)%Z ≠ (-1)%Z ∧
  istree [0; 0; -2]%Z = Ok true.
Proof. split_and!; [reflexivity|lia|lia|reflexivity]. Qed.

End validator_results.

(** ** The validator and the caller's list *)

Section store.
Import Store.

(** C10: [istree] leaves the list it is given, and every other list of the
    store, as it was, whether it returns or raises; its answer is the answer
    of the validator on the contents of that list. *)
Theorem istree_input_unchanged (h : gmap nat (list Z)) (sequence : nat) :
  (istree sequence h).2 !! sequence = h !! sequence ∧
  (∀ l, is_Some (h !! l) → (istree sequence h).2 !! l = h !! l) ∧
  (∀ s, h !! sequence = Some s → (istree sequence h).1 = Validator.istree s).
Proof.
  assert (∀ l : nat, is_Some (h !! l) → (istree sequence h).2 !! l = h !! l) as Hframe.
  { intros l Hl.
    unfold istree, DepTree_init, deepcopy, setitem, read, lift, mbind, M_bind, mret, M_ret.
    destruct (h !! sequence) as [s|] eqn:Hs; simpl; [|done].
    assert (fresh (dom h) ≠ l) as Hfresh.
    { intros Heq. apply (is_fresh (dom h)). rewrite Heq. by apply elem_of_dom. }
    rewrite lookup_insert_eq. simpl.
    case_decide; simpl; [|by rewrite lookup_insert_ne].
    rewrite lookup_insert_eq. simpl.
    destruct (Validator.build_tree _); simpl;
      by rewrite !lookup_insert_ne. }
  split_and!; [|done|].
  - destruct (h !! sequence) as [s|] eqn:Hs; [rewrite <-Hs; by apply Hframe|].
    unfold istree, DepTree_init, deepcopy, read, mbind, M_bind.
    by rewrite Hs.
  - intros s Hs.
    unfold istree, DepTree_init, deepcopy, setitem, read, lift, mbind, M_bind, mret, M_ret.
    rewrite Hs. simpl. rewrite lookup_insert_eq. simpl.
    unfold Validator.istree, Validator.DepTree_init.
    case_decide; simpl; [|done].
    rewrite lookup_insert_eq. simpl.
    by destruct (Validator.build_tree _).
Qed.

End store.

(** ** Arrays *)

Section arrays.
Import NP.

Lemma length_tab {A} n (f : nat → A) : length (tab n f) = n.
Proof. unfold tab. by rewrite length_fmap, length_seq. Qed.

Lemma lookup_tab {A} n (f : nat → A) i : i < n → tab n f !! i = Some (f i).
Proof.
  intros Hi. unfold tab. rewrite list_lookup_fmap, lookup_seq_lt by done. done.
Qed.

Lemma lookup_tab_ge {A} n (f : nat → A) i : n ≤ i → tab n f !! i = None.
Proof. intros Hi. apply lookup_ge_None_2. by rewrite length_tab. Qed.

Lemma lookup_total_tab `{Inhabited A} n (f : nat → A) i :
  i < n → tab n f !!! i = f i.
Proof. intros Hi. apply list_lookup_total_correct. by apply lookup_tab. Qed.

Lemma tab_ext {A} n (f g : nat → A) : (∀ i, i < n → f i = g i) → tab n f = tab n g.
Proof.
  intros Hfg. unfold tab. apply list_fmap_ext.
  intros i x Hx. apply lookup_seq in Hx as [-> ?]. by apply Hfg.
Qed.

Lemma get2_tab2 `{Inhabited A} n m (f : nat → nat → A) i j :
  i < n → j < m → get2 (tab2 n m f) i j = f i j.
Proof.
  intros Hi Hj. unfold get2, tab2. by rewrite !lookup_total_tab.
Qed.

Lemma row_tab3 `{Inhabited A} n m k (f : nat → nat → nat → A) i j :
  i < n → j < m → (tab3 n m k f !!! i) !!! j = tab k (f i j).
Proof.
  intros Hi Hj. unfold tab3, tab2. by rewrite !lookup_total_tab.
Qed.

Lemma get3_tab3 `{Inhabited A} n m k (f : nat → nat → nat → A) i j c :
  i < n → j < m → c < k → get3 (tab3 n m k f) i j c = f i j c.
Proof.
  intros Hi Hj Hc. unfold get3. by rewrite row_tab3, lookup_total_tab.
Qed.

Lemma lookup_tab2 {A} n m (f : nat → nat → A) i j :
  i < n → j < m → tab2 n m f !! i ≫= (.!! j) = Some (f i j).
Proof.
  intros Hi Hj. unfold tab2. rewrite lookup_tab by done. simpl.
  by apply lookup_tab.
Qed.

End arrays.

(** ** Maxima *)

Section maxima.

Lemma argmax_from_lt best bi i l :
  bi < i → (argmax_from best bi i l).1 < i + length l.
Proof.
  revert best bi i. induction l as [|x l IH]; intros best bi i Hbi; simpl; [lia|].
  destruct (score_ltb best x).
  - pose proof (IH x i (S i)). lia.
  - pose proof (IH best bi (S i)). lia.
Qed.

Lemma argmax_lt l : l ≠ [] → argmax l < length l.
Proof.
  destruct l as [|x l]; [done|]. intros _. simpl.
  pose proof (argmax_from_lt x 0 1 l). lia.
Qed.

Lemma score_ltb_NegInf x : score_ltb x NegInf = false.
Proof. by destruct x. Qed.

Lemma argmax_from_NegInf best bi i l :
  Forall (λ y, y = NegInf) l → argmax_from best bi i l = (bi, best).
Proof.
  revert i. induction l as [|x l IH]; intros i Hl; simpl; [done|].
  apply Forall_cons_1 in Hl as [-> Hl]. rewrite score_ltb_NegInf. by apply IH.
Qed.

(** When everything after the first entry is negative infinity, the first
    entry is the first maximum. *)
Lemma argmax_first l :
  (∀ i, 1 ≤ i → i < length l → l !! i = Some NegInf) → argmax l = 0.
Proof.
  destruct l as [|x l]; [done|]. intros Hl. simpl.
  rewrite argmax_from_NegInf; [done|].
  apply Forall_lookup. intros i y Hy.
  specialize (Hl (S i)). simpl in Hl. rewrite Hl in Hy; [congruence|lia|].
  apply lookup_lt_Some in Hy. lia.
Qed.

Lemma score_add_NegInf_l x : score_add NegInf x = NegInf.
Proof. done. Qed.

End maxima.

(** ** One round of the dynamic program, entry by entry *)

Section step_entries.
Import NP Decoder DecoderAux.
Context (batch_size seq_len : nat) (scores : list (list (list score))) (lens : list nat).

Lemma get3_fill_diagonal_pos `{Inhabited A} (x : list (list (list A))) v w i j c :
  i < seq_len → j < seq_len → c < batch_size →
  get3 (fill_diagonal seq_len batch_size x v (Z.of_nat w)) i j c =
  if decide (j = i + w) then get2 v c i else get3 x i j c.
Proof.
  intros Hi Hj Hc. unfold fill_diagonal. rewrite get3_tab3 by done.
  rewrite decide_True by lia. by rewrite Z.abs_eq, Nat2Z.id by lia.
Qed.

Lemma get3_fill_diagonal_neg `{Inhabited A} (x : list (list (list A))) v w i j c :
  1 ≤ w → i < seq_len → j < seq_len → c < batch_size →
  get3 (fill_diagonal seq_len batch_size x v (- Z.of_nat w)) i j c =
  if decide (i = j + w) then get2 v c j else get3 x i j c.
Proof.
  intros Hw Hi Hj Hc. unfold fill_diagonal. rewrite get3_tab3 by done.
  rewrite decide_False by lia.
  by rewrite Z.abs_neq, Z.opp_involutive, Nat2Z.id by lia.
Qed.

Lemma get2_diagonal_pos `{Inhabited A} (x : list (list (list A))) w c k :
  c < batch_size → k + w < seq_len →
  get2 (diagonal seq_len batch_size x (Z.of_nat w)) c k = get3 x k (k + w) c.
Proof.
  intros Hc Hk. unfold diagonal.
  rewrite Z.abs_eq, Nat2Z.id by lia. rewrite get2_tab2 by lia.
  by rewrite decide_True by lia.
Qed.

Lemma get2_diagonal_neg `{Inhabited A} (x : list (list (list A))) w c k :
  1 ≤ w → c < batch_size → k + w < seq_len →
  get2 (diagonal seq_len batch_size x (- Z.of_nat w)) c k = get3 x (k + w) k c.
Proof.
  intros Hw Hc Hk. unfold diagonal.
  rewrite Z.abs_neq, Z.opp_involutive, Nat2Z.id by lia. rewrite get2_tab2 by lia.
  by rewrite decide_False by lia.
Qed.

Lemma get3_stripe `{Inhabited A} (x : list (list (list A))) n w o1 o2 dim k l c :
  k < n → l < w → c < batch_size →
  get3 (stripe batch_size x n w (o1, o2) dim) k l c =
  if decide (dim = 0) then get3 x (o1 + k + l) (o2 + k) c
  else get3 x (o1 + k) (o2 + k + l) c.
Proof. intros. unfold stripe. by rewrite get3_tab3. Qed.

(** A sum of two stripes, transposed to [(batch_size, n, w)]. *)
Lemma get3_stripe_sum (x y : list (list (list score))) n w o1 o2 d1 o3 o4 d2 c k l :
  k < n → l < w → c < batch_size →
  get3 (transpose_201 n w batch_size
          (add3 batch_size n w (stripe batch_size x n w (o1, o2) d1)
                               (stripe batch_size y n w (o3, o4) d2))) c k l =
  score_add
    (if decide (d1 = 0) then get3 x (o1 + k + l) (o2 + k) c
     else get3 x (o1 + k) (o2 + k + l) c)
    (if decide (d2 = 0) then get3 y (o3 + k + l) (o4 + k) c
     else get3 y (o3 + k) (o4 + k + l) c).
Proof.
  intros Hk Hl Hc. unfold transpose_201, add3.
  by rewrite !get3_tab3, !get3_stripe by done.
Qed.

Lemma row_stripe_sum (x y : list (list (list score))) n w o1 o2 d1 o3 o4 d2 c k :
  k < n → c < batch_size →
  (transpose_201 n w batch_size
     (add3 batch_size n w (stripe batch_size x n w (o1, o2) d1)
                          (stripe batch_size y n w (o3, o4) d2)) !!! c) !!! k =
  tab w (λ l, score_add
    (if decide (d1 = 0) then get3 x (o1 + k + l) (o2 + k) c
     else get3 x (o1 + k) (o2 + k + l) c)
    (if decide (d2 = 0) then get3 y (o3 + k + l) (o4 + k) c
     else get3 y (o3 + k) (o4 + k + l) c)).
Proof.
  intros Hk Hc. unfold transpose_201 at 1. rewrite row_tab3 by done.
  apply tab_ext. intros l Hl. unfold add3.
  by rewrite !get3_tab3, !get3_stripe by done.
Qed.

Lemma row_add_newaxis (x : list (list (list score))) d n w c k :
  k < n → c < batch_size →
  (add_newaxis batch_size n w x d !!! c) !!! k =
  tab w (λ l, score_add (get3 x c k l) (get2 d c k)).
Proof. intros Hk Hc. unfold add_newaxis. by rewrite row_tab3. Qed.

Context (t : tables) (w : nat).
Hypothesis Hw : 1 ≤ w < seq_len.

Lemma il_row_eq c k :
  c < batch_size → k + w < seq_len →
  (add_newaxis batch_size (seq_len - w) w
     (transpose_201 (seq_len - w) w batch_size
        (add3 batch_size (seq_len - w) w
           (stripe batch_size (s_c t) (seq_len - w) w (0, 0) 1)
           (stripe batch_size (s_c t) (seq_len - w) w (w, 1) 1)))
     (diagonal seq_len batch_size scores (- Z.of_nat w)) !!! c) !!! k =
  il_row scores t w c k.
Proof using Hw.
  intros Hc Hk. rewrite row_add_newaxis by lia. unfold il_row.
  apply tab_ext. intros l Hl.
  rewrite get3_stripe_sum, get2_diagonal_neg by lia. done.
Qed.

Lemma ir_row_eq c k :
  c < batch_size → k + w < seq_len →
  (add_newaxis batch_size (seq_len - w) w
     (transpose_201 (seq_len - w) w batch_size
        (add3 batch_size (seq_len - w) w
           (stripe batch_size (s_c t) (seq_len - w) w (0, 0) 1)
           (stripe batch_size (s_c t) (seq_len - w) w (w, 1) 1)))
     (diagonal seq_len batch_size scores (Z.of_nat w)) !!! c) !!! k =
  ir_row scores t w c k.
Proof using Hw.
  intros Hc Hk. rewrite row_add_newaxis by lia. unfold ir_row.
  apply tab_ext. intros l Hl.
  rewrite get3_stripe_sum, get2_diagonal_pos by lia. done.
Qed.

Lemma get2_max_last x c k n :
  c < batch_size → k < n → get2 (max_last batch_size n x) c k = amax ((x !!! c) !!! k).
Proof. intros. unfold max_last. by rewrite get2_tab2. Qed.

Lemma get2_argmax_starts x c k n one :
  c < batch_size → k < n →
  get2 (add_starts batch_size n (argmax_last batch_size n x) (seq 0 n) one) c k =
  argmax ((x !!! c) !!! k) + k + one.
Proof.
  intros. unfold add_starts, argmax_last.
  rewrite !get2_tab2 by done. by rewrite lookup_total_seq_lt.
Qed.

Lemma eisner_step_s_i i j c :
  i < seq_len → j < seq_len → c < batch_size →
  get3 (s_i (eisner_step batch_size seq_len scores lens t w)) i j c =
  s_i_at scores t w i j c.
Proof using Hw.
  intros Hi Hj Hc. unfold eisner_step, s_i_at. cbn [s_i].
  rewrite get3_fill_diagonal_pos, get3_fill_diagonal_neg by lia.
  repeat case_decide; try done.
  - by rewrite get2_max_last, ir_row_eq by lia.
  - by rewrite get2_max_last, il_row_eq by lia.
Qed.

Lemma eisner_step_p_i i j c :
  i < seq_len → j < seq_len → c < batch_size →
  get3 (p_i (eisner_step batch_size seq_len scores lens t w)) i j c =
  p_i_at scores t w i j c.
Proof using Hw.
  intros Hi Hj Hc. unfold eisner_step, p_i_at. cbn [p_i].
  rewrite get3_fill_diagonal_pos, get3_fill_diagonal_neg by lia.
  repeat case_decide; try done.
  - rewrite get2_argmax_starts, ir_row_eq by lia. lia.
  - rewrite get2_argmax_starts, il_row_eq by lia. lia.
Qed.


Lemma cl_row_eq (si' : list (list (list score))) c k :
  (∀ i j c, i < seq_len → j < seq_len → c < batch_size →
     get3 si' i j c = s_i_at scores t w i j c) →
  c < batch_size → k + w < seq_len →
  (transpose_201 (seq_len - w) w batch_size
     (add3 batch_size (seq_len - w) w
        (stripe batch_size (s_c t) (seq_len - w) w (0, 0) 0)
        (stripe batch_size si' (seq_len - w) w (w, 0) 1)) !!! c) !!! k =
  cl_row scores t w c k.
Proof using Hw.
  intros Hsi Hc Hk. rewrite row_stripe_sum by lia. unfold cl_row.
  apply tab_ext. intros l Hl.
  rewrite decide_True, decide_False by done. by rewrite Hsi by lia.
Qed.

Lemma s_c_mid_eq (si' : list (list (list score))) i j c :
  (∀ i j c, i < seq_len → j < seq_len → c < batch_size →
     get3 si' i j c = s_i_at scores t w i j c) →
  i < seq_len → j < seq_len → c < batch_size →
  get3 (fill_diagonal seq_len batch_size (s_c t)
          (max_last batch_size (seq_len - w)
             (transpose_201 (seq_len - w) w batch_size
                (add3 batch_size (seq_len - w) w
                   (stripe batch_size (s_c t) (seq_len - w) w (0, 0) 0)
                   (stripe batch_size si' (seq_len - w) w (w, 0) 1))))
          (- Z.of_nat w)) i j c =
  s_c_mid scores t w i j c.
Proof using Hw.
  intros Hsi Hi Hj Hc. rewrite get3_fill_diagonal_neg by lia.
  unfold s_c_mid. case_decide; [|done].
  rewrite get2_max_last by lia. by rewrite cl_row_eq by (done || lia).
Qed.

Lemma cr_row_eq (si' sc' : list (list (list score))) c k :
  (∀ i j c, i < seq_len → j < seq_len → c < batch_size →
     get3 si' i j c = s_i_at scores t w i j c) →
  (∀ i j c, i < seq_len → j < seq_len → c < batch_size →
     get3 sc' i j c = s_c_mid scores t w i j c) →
  c < batch_size → k + w < seq_len →
  (transpose_201 (seq_len - w) w batch_size
     (add3 batch_size (seq_len - w) w
        (stripe batch_size si' (seq_len - w) w (0, 1) 1)
        (stripe batch_size sc' (seq_len - w) w (1, w) 0)) !!! c) !!! k =
  cr_row scores t w c k.
Proof using Hw.
  intros Hsi Hsc Hc Hk. rewrite row_stripe_sum by lia. unfold cr_row.
  apply tab_ext. intros l Hl.
  rewrite decide_False, decide_True by done.
  rewrite Hsi, Hsc by lia. do 2 f_equal; lia.
Qed.

Lemma s_i_filled i j c :
  i < seq_len → j < seq_len → c < batch_size →
  get3 (fill_diagonal seq_len batch_size
          (fill_diagonal seq_len batch_size (s_i t)
             (max_last batch_size (seq_len - w)
                (add_newaxis batch_size (seq_len - w) w
                   (transpose_201 (seq_len - w) w batch_size
                      (add3 batch_size (seq_len - w) w
                         (stripe batch_size (s_c t) (seq_len - w) w (0, 0) 1)
                         (stripe batch_size (s_c t) (seq_len - w) w (w, 1) 1)))
                   (diagonal seq_len batch_size scores (- Z.of_nat w))))
             (- Z.of_nat w))
          (max_last batch_size (seq_len - w)
             (add_newaxis batch_size (seq_len - w) w
                (transpose_201 (seq_len - w) w batch_size
                   (add3 batch_size (seq_len - w) w
                      (stripe batch_size (s_c t) (seq_len - w) w (0, 0) 1)
                      (stripe batch_size (s_c t) (seq_len - w) w (w, 1) 1)))
                (diagonal seq_len batch_size scores (Z.of_nat w))))
          (Z.of_nat w)) i j c =
  s_i_at scores t w i j c.
Proof using Hw lens. apply eisner_step_s_i. Qed.

Lemma eisner_step_s_c i j c :
  i < seq_len → j < seq_len → c < batch_size →
  get3 (s_c (eisner_step batch_size seq_len scores lens t w)) i j c =
  s_c_at scores lens t w i j c.
Proof using Hw.
  intros Hi Hj Hc. unfold eisner_step, s_c_at. cbn [s_c].
  unfold mask_root. rewrite get3_tab3 by done.
  case_decide; [done|].
  rewrite get3_fill_diagonal_pos by lia.
  case_decide.
  - rewrite get2_max_last by lia.
    rewrite (cr_row_eq _ _ c i); [done| | |done|lia].
    + intros. by apply s_i_filled.
    + intros. apply s_c_mid_eq; [|done..]. intros. by apply s_i_filled.
  - apply s_c_mid_eq; [|done..]. intros. by apply s_i_filled.
Qed.

Lemma eisner_step_p_c i j c :
  i < seq_len → j < seq_len → c < batch_size →
  get3 (p_c (eisner_step batch_size seq_len scores lens t w)) i j c =
  p_c_at scores t w i j c.
Proof using Hw.
  intros Hi Hj Hc. unfold eisner_step, p_c_at. cbn [p_c].
  rewrite get3_fill_diagonal_pos, get3_fill_diagonal_neg by lia.
  repeat case_decide; try done.
  - rewrite get2_argmax_starts by lia.
    rewrite (cr_row_eq _ _ c i); [done| | |done|lia].
    + intros. by apply s_i_filled.
    + intros. apply s_c_mid_eq; [|done..]. intros. by apply s_i_filled.
  - rewrite get2_argmax_starts by lia.
    rewrite cl_row_eq; [lia| |done|lia].
    intros. by apply s_i_filled.
Qed.

End step_entries.

(** ** The tables after the loop *)

Section loop.
Import NP Decoder DecoderAux.
Context (batch_size seq_len : nat) (scores : list (list (list score))) (lens : list nat).

Lemma eisner_loop_S m :
  eisner_loop batch_size seq_len scores lens (S m) =
  eisner_step batch_size seq_len scores lens
    (eisner_loop batch_size seq_len scores lens m) (S m).
Proof. unfold eisner_loop. by rewrite seq_S, foldl_app. Qed.

Lemma length_il_row t w c k : length (il_row scores t w c k) = w.
Proof. apply length_tab. Qed.
Lemma length_ir_row t w c k : length (ir_row scores t w c k) = w.
Proof. apply length_tab. Qed.
Lemma length_cl_row t w c k : length (cl_row scores t w c k) = w.
Proof. apply length_tab. Qed.
Lemma length_cr_row t w c k : length (cr_row scores t w c k) = w.
Proof. apply length_tab. Qed.

Lemma argmax_row_lt (row : list score) w : length row = w → 1 ≤ w → argmax row < w.
Proof.
  intros Hlen Hw. rewrite <-Hlen. apply argmax_lt. intros ->. simpl in Hlen. lia.
Qed.

(** The incomplete span from the root to [w] splits at the root as long as
    no shorter complete span of the root is eligible. *)
Lemma ir_row_root t w c :
  (∀ l, 1 ≤ l → l < w → get3 (s_c t) 0 l c = NegInf) →
  argmax (ir_row scores t w c 0) = 0.
Proof.
  intros Hneg. apply argmax_first. intros l Hl Hlw.
  rewrite length_ir_row in Hlw. unfold ir_row. rewrite lookup_tab by done.
  unfold ilr_at. simpl. by rewrite Hneg.
Qed.

Lemma loop_inv_init c : loop_inv seq_len lens (eisner_init batch_size seq_len) 0 c.
Proof. split_and!; intros; lia. Qed.

Lemma loop_inv_step t m c :
  S m < seq_len → c < batch_size →
  loop_inv seq_len lens t m c →
  loop_inv seq_len lens (eisner_step batch_size seq_len scores lens t (S m)) (S m) c.
Proof.
  intros Hm Hc (Hrange & Hneg & Hroot).
  assert (Hw : 1 ≤ S m < seq_len) by lia.
  split_and!.
  - intros i j Hi Hj Hne Hij Hji.
    rewrite eisner_step_p_i, eisner_step_p_c by done.
    unfold p_i_at, p_c_at.
    pose proof (argmax_row_lt _ _ (length_ir_row t (S m) c i)).
    pose proof (argmax_row_lt _ _ (length_il_row t (S m) c j)).
    pose proof (argmax_row_lt _ _ (length_cr_row t (S m) c i)).
    pose proof (argmax_row_lt _ _ (length_cl_row t (S m) c j)).
    repeat case_decide; try lia.
    apply Hrange; lia.
  - intros j Hj Hjm Hjs Hlen. rewrite eisner_step_s_c by (done || lia).
    unfold s_c_at. case_decide as Hmask; [done|].
    rewrite decide_False by lia. unfold s_c_mid. rewrite decide_False by lia.
    apply Hneg; lia.
  - intros j Hj Hjm Hjs Hlen. rewrite eisner_step_p_i by (done || lia).
    unfold p_i_at. case_decide as Hjw.
    + rewrite ir_row_root; [lia|]. intros l Hl Hlw. apply Hneg; lia.
    + rewrite decide_False by lia. apply Hroot; lia.
Qed.

Lemma loop_inv_loop m c :
  m < seq_len → c < batch_size →
  loop_inv seq_len lens (eisner_loop batch_size seq_len scores lens m) m c.
Proof.
  intros Hm Hc. induction m as [|m IH]; [apply loop_inv_init|].
  rewrite eisner_loop_S. apply loop_inv_step; [done..|]. apply IH. lia.
Qed.

End loop.

(** ** Backtracking *)

Section backtrack.
Import NP Decoder DecoderAux.

Lemma assigned_dec i j c : Decision (assigned i j c).
Proof. unfold assigned. apply _. Qed.

Lemma cspan_ext H H' i j :
  cspan H i j → (∀ c, assigned i j c → H' !! c = H !! c) → cspan H' i j.
Proof.
  unfold assigned. induction 1 as [i|i j r r' ? ? ? ? Hr _ IH1 _ IH2 _ IH3
                     |i j r r' ? ? ? Hr _ IH1 _ IH2 _ IH3]; intros Hagree.
  - constructor.
  - apply (cspan_right H' i j r r'); try done.
    + rewrite Hagree; [done|lia].
    + apply IH1. intros c Hc. apply Hagree. lia.
    + apply IH2. intros c Hc. apply Hagree. lia.
    + apply IH3. intros c Hc. apply Hagree. lia.
  - apply (cspan_left H' i j r r'); try done.
    + rewrite Hagree; [done|lia].
    + apply IH1. intros c Hc. apply Hagree. lia.
    + apply IH2. intros c Hc. apply Hagree. lia.
    + apply IH3. intros c Hc. apply Hagree. lia.
Qed.

Lemma getitem2_bind {A B} (x : list (list A)) i j r (k : A → result B) :
  x !! i ≫= (.!! j) = Some r →
  (row ← getitem x i; a ← getitem row j; k a) = k r.
Proof.
  intros Hx. destruct (x !! i) as [row|] eqn:Hrow; [|done]. simpl in Hx.
  apply getitem_Ok in Hrow, Hx. by rewrite Hrow; simpl; rewrite Hx.
Qed.

Lemma backtrack_S fuel pi pc heads i j complete :
  backtrack (S fuel) pi pc heads i j complete =
  if decide (i = j) then Ok heads
  else if complete then
    row ← getitem pc i;
    r ← getitem row j;
    heads ← backtrack fuel pi pc heads i r false;
    backtrack fuel pi pc heads r j true
  else
    row ← getitem pi i;
    r ← getitem row j;
    heads ← (if decide (j < length heads) then Ok (<[j := Z.of_nat i]> heads)
             else Raise IndexError);
    heads ← backtrack fuel pi pc heads (i `min` j) r true;
    backtrack fuel pi pc heads (i `max` j) (r + 1) true.
Proof. done. Qed.

#[local] Arguments backtrack : simpl never.

(** More fuel does not change what a call returns. *)
Lemma backtrack_fuel_mono fuel pi pc :
  ∀ heads i j complete h,
    backtrack fuel pi pc heads i j complete = Ok h →
    backtrack (S fuel) pi pc heads i j complete = Ok h.
Proof.
  induction fuel as [|fuel IH]; intros heads i j complete h Hh; [done|].
  rewrite backtrack_S in Hh. rewrite backtrack_S.
  case_decide; [done|]. destruct complete.
  - apply bind_Ok in Hh as (row & -> & Hh). simpl.
    apply bind_Ok in Hh as (r & -> & Hh). simpl.
    apply bind_Ok in Hh as (h1 & Hh1 & Hh).
    rewrite (IH _ _ _ _ _ Hh1). simpl. by apply IH.
  - apply bind_Ok in Hh as (row & -> & Hh). simpl.
    apply bind_Ok in Hh as (r & -> & Hh). simpl.
    apply bind_Ok in Hh as (h0 & -> & Hh). simpl.
    apply bind_Ok in Hh as (h1 & Hh1 & Hh).
    rewrite (IH _ _ _ _ _ Hh1). simpl. by apply IH.
Qed.

Context (pi pc : list (list nat)) (L : nat).
Hypothesis Hp : pointers_ok pi pc L.

(** A call on a complete span inside the sentence returns; it assigns the
    positions of the span other than its head and leaves the rest alone. *)
Lemma backtrack_complete d :
  ∀ i j heads fuel, i ≤ L → j ≤ L → L < length heads →
    (i - j) + (j - i) = d → 2 * d + 1 ≤ fuel →
    ∃ heads', backtrack fuel pi pc heads i j true = Ok heads' ∧
              length heads' = length heads ∧
              (∀ c, ¬ assigned i j c → heads' !! c = heads !! c) ∧
              cspan heads' i j.
Proof using Hp.
  induction d as [d IH] using lt_wf_ind.
  intros i j heads fuel Hi Hj Hlen Hd Hfuel.
  destruct fuel as [|fuel]; [lia|]. rewrite backtrack_S.
  case_decide as Hij.
  { subst j. exists heads. split_and!; [done..|constructor]. }
  destruct (Hp i j Hi Hj Hij) as (_ & r & _ & Hr & _ & _ & Hlt & Hgt & _).
  rewrite (getitem2_bind pc i j r) by done.
  assert (Hir : i ≠ r) by lia. assert (HrL : r ≤ L) by lia.
  destruct (Hp i r Hi HrL Hir) as (r2 & _ & Hr2 & _ & Hmin & Hmax & _ & _ & Hroot).
  destruct fuel as [|fuel']; [lia|]. rewrite backtrack_S.
  rewrite decide_False by done.
  rewrite (getitem2_bind pi i r r2) by done.
  rewrite decide_True by lia. simpl.
  assert (Hlen1 : length (<[r:=Z.of_nat i]> heads) = length heads)
    by apply length_insert.
  destruct (decide (i < j)) as [Hlt'|Hge].
  - destruct (Hlt Hlt') as [? ?].
    rewrite Nat.min_l, Nat.max_r in * by lia.
    destruct (IH (r2 - i) ltac:(lia) i r2 (<[r:=Z.of_nat i]> heads) fuel')
      as (h2 & -> & Hlen2 & Hfr2 & Hsp2); [lia..|]. simpl.
    destruct (IH (r - (r2 + 1)) ltac:(lia) r (r2 + 1) h2 fuel')
      as (h3 & -> & Hlen3 & Hfr3 & Hsp3); [lia..|]. simpl.
    destruct (IH (j - r) ltac:(lia) r j h3 (S fuel'))
      as (h4 & -> & Hlen4 & Hfr4 & Hsp4); [lia..|].
    exists h4. unfold assigned in *. split_and!; [done|lia| |].
    + intros c Hc. rewrite Hfr4, Hfr3, Hfr2 by lia.
      apply list_lookup_insert_ne. lia.
    + apply (cspan_right h4 i j r r2); try done; try lia.
      * rewrite Hfr4, Hfr3, Hfr2 by lia. apply list_lookup_insert_eq. lia.
      * apply (cspan_ext h2); [done|]. unfold assigned. intros c Hc.
        rewrite Hfr4, Hfr3 by lia. done.
      * apply (cspan_ext h3); [done|]. unfold assigned. intros c Hc.
        rewrite Hfr4 by lia. done.
  - destruct (Hgt ltac:(lia)) as [? ?].
    rewrite Nat.min_r, Nat.max_l in * by lia.
    destruct (IH (r2 - r) ltac:(lia) r r2 (<[r:=Z.of_nat i]> heads) fuel')
      as (h2 & -> & Hlen2 & Hfr2 & Hsp2); [lia..|]. simpl.
    destruct (IH (i - (r2 + 1)) ltac:(lia) i (r2 + 1) h2 fuel')
      as (h3 & -> & Hlen3 & Hfr3 & Hsp3); [lia..|]. simpl.
    destruct (IH (r - j) ltac:(lia) r j h3 (S fuel'))
      as (h4 & -> & Hlen4 & Hfr4 & Hsp4); [lia..|].
    exists h4. unfold assigned in *. split_and!; [done|lia| |].
    + intros c Hc. rewrite Hfr4, Hfr3, Hfr2 by lia.
      apply list_lookup_insert_ne. lia.
    + apply (cspan_left h4 i j r r2); try done; try lia.
      * rewrite Hfr4, Hfr3, Hfr2 by lia. apply list_lookup_insert_eq. lia.
      * apply (cspan_ext h2); [done|]. unfold assigned. intros c Hc.
        rewrite Hfr4, Hfr3 by lia. done.
      * apply (cspan_ext h3); [done|]. unfold assigned. intros c Hc.
        rewrite Hfr4 by lia. done.
Qed.

(** The call that [eisner] makes for a sentence of length [L ≥ 1]. *)
Lemma backtrack_root heads fuel :
  1 ≤ L → L < length heads → 2 * L + 1 ≤ fuel →
  ∃ heads', backtrack fuel pi pc heads 0 L true = Ok heads' ∧
            length heads' = length heads ∧
            heads' !! 0 = heads !! 0 ∧
            (∀ c, L < c → heads' !! c = heads !! c) ∧
            root_span heads' L.
Proof using Hp.
  intros HL Hlen Hfuel.
  destruct (backtrack_complete L 0 L heads fuel)
    as (h & Hh & Hlenh & Hfr & Hsp); [lia..|].
  exists h. unfold assigned in Hfr. split_and!; [done|done|apply Hfr; lia| |].
  { intros c Hc. apply Hfr. lia. }
  inversion Hsp as [|i j r r' ? ? ? Hroot Hr Hs1 Hs2 Hs3|]; simplify_eq; [lia| |lia].
  rewrite (Hroot eq_refl) in *. exists r. split_and!; [lia|done|done|done|done].
Qed.

End backtrack.

(** ** A span decomposition is a projective tree *)

Section spans.
Import NP Decoder DecoderAux Validator.

Lemma cspan_heads H i j c :
  cspan H i j → assigned i j c →
  ∃ p, H !! c = Some (Z.of_nat p) ∧ i `min` j ≤ p ∧ p ≤ i `max` j.
Proof.
  unfold assigned. intros Hsp. revert c.
  induction Hsp as [i|i j r r' ? ? ? ? Hr _ IH1 _ IH2 _ IH3
                     |i j r r' ? ? ? Hr _ IH1 _ IH2 _ IH3]; intros c Hc; [lia| |].
  - destruct (decide (c ≤ r')); [|destruct (decide (c < r));
      [|destruct (decide (c = r)) as [->|]]].
    + destruct (IH1 c) as (p & ? & ? & ?); [lia|]. exists p. split; [done|lia].
    + destruct (IH2 c) as (p & ? & ? & ?); [lia|]. exists p. split; [done|lia].
    + exists i. split; [done|lia].
    + destruct (IH3 c) as (p & ? & ? & ?); [lia|]. exists p. split; [done|lia].
  - destruct (decide (c < r)); [|destruct (decide (c = r)) as [->|];
      [|destruct (decide (c ≤ r'))]].
    + destruct (IH3 c) as (p & ? & ? & ?); [lia|]. exists p. split; [done|lia].
    + exists i. split; [done|lia].
    + destruct (IH1 c) as (p & ? & ? & ?); [lia|]. exists p. split; [done|lia].
    + destruct (IH2 c) as (p & ? & ? & ?); [lia|]. exists p. split; [done|lia].
Qed.

Lemma cspan_heads_range H i j c p :
  cspan H i j → assigned i j c → H !! c = Some (Z.of_nat p) →
  i `min` j ≤ p ∧ p ≤ i `max` j.
Proof.
  intros Hsp Hc Hp. destruct (cspan_heads H i j c Hsp Hc) as (p' & Hp' & ?).
  rewrite Hp in Hp'. assert (p = p') as -> by (simplify_eq; lia). done.
Qed.

Lemma deps_in_app H p a k1 k2 :
  deps_in H p a (k1 + k2) = deps_in H p a k1 ++ deps_in H p (a + k1) k2.
Proof. unfold deps_in. by rewrite seq_app, filter_app. Qed.

Lemma deps_in_none H p a k :
  (∀ c, a ≤ c → c < a + k → H !! c ≠ Some (Z.of_nat p)) → deps_in H p a k = [].
Proof.
  intros Hnone. unfold deps_in. apply filter_none.
  intros c [? ?]%elem_of_seq. by apply Hnone.
Qed.

Lemma deps_in_one H p a : H !! a = Some (Z.of_nat p) → deps_in H p a 1 = [a].
Proof. intros Ha. unfold deps_in. simpl. by rewrite filter_cons_True. Qed.

Lemma filter_seq_restrict (P Q : nat → Prop) `{∀ x, Decision (P x)}
    `{∀ x, Decision (Q x)} a k a' k' :
  a ≤ a' → a' + k' ≤ a + k →
  (∀ c, a ≤ c → c < a + k → P c ↔ Q c ∧ a' ≤ c ∧ c < a' + k') →
  filter P (seq a k) = filter Q (seq a' k').
Proof.
  intros Ha Hk HPQ.
  replace k with ((a' - a) + (k' + (a + k - (a' + k')))) by lia.
  rewrite !seq_app, !filter_app.
  rewrite (filter_none P (seq a (a' - a))), (filter_none P (seq (a + (a' - a) + k') _)).
  - rewrite app_nil_r. simpl. replace (a + (a' - a)) with a' by lia.
    apply filter_ext_in. intros c [? ?]%elem_of_seq. rewrite HPQ by lia. intuition lia.
  - intros c [? ?]%elem_of_seq. rewrite HPQ by lia. lia.
  - intros c [? ?]%elem_of_seq. rewrite HPQ by lia. lia.
Qed.

Lemma inorder_list_nil fuel H : inorder_list fuel H [] = Some [].
Proof. done. Qed.

Lemma inorder_list_app fuel H cs1 cs2 l1 l2 :
  inorder_list fuel H cs1 = Some l1 → inorder_list fuel H cs2 = Some l2 →
  inorder_list fuel H (cs1 ++ cs2) = Some (l1 ++ l2).
Proof.
  unfold inorder_list. intros H1 H2.
  destruct (mapM _ cs1) as [k1|] eqn:E1; [|done].
  destruct (mapM _ cs2) as [k2|] eqn:E2; [|done].
  simplify_eq/=.
  assert (mapM (inorder_spec fuel H) (cs1 ++ cs2) = Some (k1 ++ k2)) as ->.
  { apply mapM_Some. apply Forall2_app; by apply mapM_Some. }
  simpl. by rewrite concat_app.
Qed.

Lemma inorder_list_one fuel H c l :
  inorder_spec fuel H c = Some l → inorder_list fuel H [c] = Some l.
Proof.
  intros Hc. unfold inorder_list. simpl. rewrite Hc. simpl. by rewrite app_nil_r.
Qed.

Lemma inorder_spec_S fuel H v ll lr :
  inorder_list fuel H (left_dependents H v) = Some ll →
  inorder_list fuel H (right_dependents H v) = Some lr →
  inorder_spec (S fuel) H v = Some (ll ++ [v] ++ lr).
Proof.
  unfold inorder_list. intros Hl Hr. simpl.
  destruct (mapM _ (left_dependents H v)) as [kl|]; [|done].
  destruct (mapM _ (right_dependents H v)) as [kr|]; [|done].
  by simplify_eq/=.
Qed.

(** The dependents of a node whose spans are known. *)
Lemma left_dependents_span H r lo :
  1 ≤ lo → lo ≤ r → r < length H →
  (∀ c, 1 ≤ c → c < r → H !! c = Some (Z.of_nat r) → lo ≤ c) →
  left_dependents H r = deps_in H r lo (r - lo).
Proof.
  intros Hlo Hr Hlen Hc. unfold left_dependents, dependents, deps_in.
  rewrite list_filter_filter. apply filter_seq_restrict; [lia..|].
  intros c ? ?. split; [|intros (? & ? & ?); split; [lia|done]].
  intros [? Hh]. split; [done|].
  pose proof (Hc c ltac:(lia) ltac:(lia) Hh). lia.
Qed.

Lemma right_dependents_span H r hi :
  r ≤ hi → hi < length H →
  H !! r ≠ Some (Z.of_nat r) →
  (∀ c, 1 ≤ c → r < c → H !! c = Some (Z.of_nat r) → c ≤ hi) →
  right_dependents H r = deps_in H r (r + 1) (hi - r).
Proof.
  intros Hr Hlen Hself Hc. unfold right_dependents, dependents, deps_in.
  rewrite list_filter_filter. apply filter_seq_restrict; [lia..|].
  intros c ? ?. split; [|intros (? & ? & ?); split; [lia|done]].
  intros [? Hh]. split; [done|].
  destruct (decide (c = r)) as [->|]; [done|].
  pose proof (Hc c ltac:(lia) ltac:(lia) Hh). lia.
Qed.


Lemma seq_glue a b c d :
  a ≤ b → b ≤ c → c ≤ d →
  seq a (b - a) ++ seq b (c - b) ++ [c] ++ seq (c + 1) (d - c) = seq a (d + 1 - a).
Proof.
  intros. replace (d + 1 - a) with ((b - a) + ((c - b) + (1 + (d - c)))) by lia.
  rewrite !seq_app. simpl. repeat f_equal; lia.
Qed.

Lemma cspan_heads_right H i j c p :
  cspan H i j → H !! c = Some (Z.of_nat p) → i < c → c ≤ j → i ≤ p ∧ p ≤ j.
Proof.
  intros Hsp Hp ? ?. destruct (cspan_heads_range H i j c p Hsp) as [? ?];
    [unfold assigned; lia|done|lia].
Qed.

Lemma cspan_heads_left H i j c p :
  cspan H i j → H !! c = Some (Z.of_nat p) → j ≤ c → c < i → j ≤ p ∧ p ≤ i.
Proof.
  intros Hsp Hp ? ?. destruct (cspan_heads_range H i j c p Hsp) as [? ?];
    [unfold assigned; lia|done|lia].
Qed.

Ltac head_facts H c p Hp Hs1 Hs2 Hs3 Hr :=
  pose proof (cspan_heads_right H _ _ c p Hs1 Hp);
  pose proof (cspan_heads_left H _ _ c p Hs1 Hp);
  pose proof (cspan_heads_right H _ _ c p Hs2 Hp);
  pose proof (cspan_heads_left H _ _ c p Hs2 Hp);
  pose proof (cspan_heads_right H _ _ c p Hs3 Hp);
  pose proof (cspan_heads_left H _ _ c p Hs3 Hp);
  match type of Hr with
  | H !! ?r = Some (Z.of_nat ?i) =>
      assert (c = r → p = i) by (intros ->; rewrite Hr in Hp; simplify_eq; lia)
  end;
  unfold assigned in *;
  repeat match goal with
  | IH : _ → _ → _ → _ → sealed _ _ _ → _ |- _ => clear IH
  end.

(** The dependents of the head of a sealed span, traversed in order, give
    the positions of the span in order. *)
Lemma cspan_inorder H i j :
  cspan H i j → 1 ≤ i → 1 ≤ j → i < length H → j < length H → sealed H i j →
  ∀ fuel, (i - j) + (j - i) ≤ fuel →
    (i ≤ j → inorder_list fuel H (deps_in H i (i + 1) (j - i))
             = Some (seq (i + 1) (j - i))) ∧
    (j ≤ i → inorder_list fuel H (deps_in H i j (i - j))
             = Some (seq j (i - j))).
Proof.
  induction 1 as [i|i j r r' ? ? ? ? Hr Hs1 IH1 Hs2 IH2 Hs3 IH3
                   |i j r r' ? ? ? Hr Hs1 IH1 Hs2 IH2 Hs3 IH3];
    intros Hi1 Hj1 Hilen Hjlen Hseal fuel Hfuel.
  - rewrite Nat.sub_diag. by split.
  - split; [intros _|lia].
    assert (sealed H i r') as Hseal1.
    { intros c p Hc Hp Hasg. pose proof (Hseal c p Hc Hp).
      head_facts H c p Hp Hs1 Hs2 Hs3 Hr. lia. }
    assert (sealed H r (r' + 1)) as Hseal2.
    { intros c p Hc Hp Hasg. pose proof (Hseal c p Hc Hp).
      head_facts H c p Hp Hs1 Hs2 Hs3 Hr. lia. }
    assert (sealed H r j) as Hseal3.
    { intros c p Hc Hp Hasg. pose proof (Hseal c p Hc Hp).
      head_facts H c p Hp Hs1 Hs2 Hs3 Hr. lia. }
    destruct fuel as [|fuel']; [lia|].
    destruct (IH1 ltac:(lia) ltac:(lia) ltac:(lia) ltac:(lia) Hseal1 (S fuel') ltac:(lia))
      as [G1 _].
    destruct (IH2 ltac:(lia) ltac:(lia) ltac:(lia) ltac:(lia) Hseal2 fuel' ltac:(lia))
      as [_ G2].
    destruct (IH3 ltac:(lia) ltac:(lia) ltac:(lia) ltac:(lia) Hseal3 fuel' ltac:(lia))
      as [G3 _].
    specialize (G1 ltac:(lia)). specialize (G2 ltac:(lia)). specialize (G3 ltac:(lia)).
    assert (inorder_spec (S fuel') H r
            = Some (seq (r' + 1) (r - (r' + 1)) ++ [r] ++ seq (r + 1) (j - r))) as Hr_tree.
    { apply inorder_spec_S.
      - rewrite (left_dependents_span H r (r' + 1)); [done|lia..|].
        intros c Hc Hcr Hp. pose proof (Hseal c r Hc Hp).
        head_facts H c r Hp Hs1 Hs2 Hs3 Hr. lia.
      - rewrite (right_dependents_span H r j); [done|lia..| |].
        + rewrite Hr. intros [= ?]. lia.
        + intros c Hc Hcr Hp. pose proof (Hseal c r Hc Hp).
          head_facts H c r Hp Hs1 Hs2 Hs3 Hr. lia. }
    replace (j - i) with ((r' - i) + ((r - (r' + 1)) + (1 + (j - r)))) at 1 by lia.
    rewrite !deps_in_app.
    rewrite (deps_in_none H i (i + 1 + (r' - i))).
    2:{ intros c ? ? Hp. head_facts H c i Hp Hs1 Hs2 Hs3 Hr. lia. }
    rewrite (deps_in_one H i) by (by replace (i + 1 + (r' - i) + (r - (r' + 1))) with r by lia).
    rewrite (deps_in_none H i _ (j - r)).
    2:{ intros c ? ? Hp. head_facts H c i Hp Hs1 Hs2 Hs3 Hr. lia. }
    simpl.
    replace (i + 1 + (r' - i) + (r - (r' + 1))) with r by lia.
    rewrite (inorder_list_app _ _ _ _ _ _ G1 (inorder_list_one _ _ _ _ Hr_tree)).
    f_equal. replace (j - i) with (j + 1 - (i + 1)) by lia.
    rewrite <-(seq_glue (i + 1) (r' + 1) r j) by lia.
    by replace (r' + 1 - (i + 1)) with (r' - i) by lia.
  - split; [lia|intros _].
    assert (sealed H r r') as Hseal1.
    { intros c p Hc Hp Hasg. pose proof (Hseal c p Hc Hp).
      head_facts H c p Hp Hs1 Hs2 Hs3 Hr. lia. }
    assert (sealed H i (r' + 1)) as Hseal2.
    { intros c p Hc Hp Hasg. pose proof (Hseal c p Hc Hp).
      head_facts H c p Hp Hs1 Hs2 Hs3 Hr. lia. }
    assert (sealed H r j) as Hseal3.
    { intros c p Hc Hp Hasg. pose proof (Hseal c p Hc Hp).
      head_facts H c p Hp Hs1 Hs2 Hs3 Hr. lia. }
    destruct fuel as [|fuel']; [lia|].
    destruct (IH1 ltac:(lia) ltac:(lia) ltac:(lia) ltac:(lia) Hseal1 fuel' ltac:(lia))
      as [G1 _].
    destruct (IH2 ltac:(lia) ltac:(lia) ltac:(lia) ltac:(lia) Hseal2 (S fuel') ltac:(lia))
      as [_ G2].
    destruct (IH3 ltac:(lia) ltac:(lia) ltac:(lia) ltac:(lia) Hseal3 fuel' ltac:(lia))
      as [_ G3].
    specialize (G1 ltac:(lia)). specialize (G2 ltac:(lia)). specialize (G3 ltac:(lia)).
    assert (inorder_spec (S fuel') H r
            = Some (seq j (r - j) ++ [r] ++ seq (r + 1) (r' - r))) as Hr_tree.
    { apply inorder_spec_S.
      - rewrite (left_dependents_span H r j); [done|lia..|].
        intros c Hc Hcr Hp. pose proof (Hseal c r Hc Hp).
        head_facts H c r Hp Hs1 Hs2 Hs3 Hr. lia.
      - rewrite (right_dependents_span H r r'); [done|lia..| |].
        + rewrite Hr. intros [= ?]. lia.
        + intros c Hc Hcr Hp. pose proof (Hseal c r Hc Hp).
          head_facts H c r Hp Hs1 Hs2 Hs3 Hr. lia. }
    replace (i - j) with ((r - j) + (1 + ((r' - r) + (i - (r' + 1))))) at 1 by lia.
    rewrite !deps_in_app.
    rewrite (deps_in_none H i j (r - j)).
    2:{ intros c ? ? Hp. head_facts H c i Hp Hs1 Hs2 Hs3 Hr. lia. }
    rewrite (deps_in_one H i) by (by replace (j + (r - j)) with r by lia).
    rewrite (deps_in_none H i _ (r' - r)).
    2:{ intros c ? ? Hp. head_facts H c i Hp Hs1 Hs2 Hs3 Hr. lia. }
    simpl.
    replace (j + (r - j) + 1 + (r' - r)) with (r' + 1) by lia.
    replace (j + (r - j)) with r by lia.
    replace (seq j (i - j)) with
      ((seq j (r - j) ++ [r] ++ seq (r + 1) (r' - r)) ++ seq (r' + 1) (i - (r' + 1))).
    { exact (inorder_list_app _ _ [r] _ _ _ (inorder_list_one _ _ _ _ Hr_tree) G2). }
    replace (i - j) with ((r - j) + (1 + ((r' - r) + (i - (r' + 1))))) by lia.
    rewrite !seq_app, <-!app_assoc. simpl.
    replace (j + (r - j)) with r by lia.
    replace (S r) with (r + 1) by lia.
    by replace (r + 1 + (r' - r)) with (r' + 1) by lia.
Qed.

End spans.

(** ** The validator accepts what backtracking builds *)

Section accepted.
Import NP Decoder DecoderAux Validator.

Lemma root_span_valid H L :
  length H = L + 1 → root_span H L → valid_heads H.
Proof.
  intros Hlen (r & Hr1 & HrL & Hr & Hs1 & Hs2).
  unfold valid_heads. apply Forall_lookup. intros k z Hk.
  rewrite lookup_drop in Hk. pose proof (lookup_lt_Some _ _ _ Hk) as Hlt.
  destruct (decide (1 + k = r)) as [Heq|Hne].
  - rewrite Heq, Hr in Hk. simplify_eq. lia.
  - destruct (decide (1 + k < r)).
    + destruct (cspan_heads H r 1 (1 + k) Hs1) as (p & Hp & _ & ?);
        [unfold assigned; lia|].
      rewrite Hp in Hk. simplify_eq. lia.
    + destruct (cspan_heads H r L (1 + k) Hs2) as (p & Hp & _ & ?);
        [unfold assigned; lia|].
      rewrite Hp in Hk. simplify_eq. lia.
Qed.

Lemma root_span_dependents H L r :
  length H = L + 1 → 1 ≤ r → r ≤ L → H !! r = Some 0%Z →
  cspan H r 1 → cspan H r L → dependents H 0 = [r].
Proof.
  intros Hlen Hr1 HrL Hr Hs1 Hs2. unfold dependents.
  change (filter _ ?l) with (deps_in H 0 1 (length H - 1)).
  replace (length H - 1) with ((r - 1) + (1 + (L - r))) by lia.
  rewrite !deps_in_app.
  rewrite (deps_in_none H 0 1).
  2:{ intros c ? ? Hp. pose proof (cspan_heads_left H r 1 c 0 Hs1 Hp). lia. }
  rewrite (deps_in_one H 0) by (by replace (1 + (r - 1)) with r by lia).
  rewrite (deps_in_none H 0 _ (L - r)).
  2:{ intros c ? ? Hp. pose proof (cspan_heads_right H r L c 0 Hs2 Hp). lia. }
  simpl. f_equal. lia.
Qed.

Lemma root_span_inorder H L :
  1 ≤ L → length H = L + 1 → root_span H L →
  length (dependents H 0) = 1 ∧
  inorder_spec (S (S L)) H 0 = Some (seq 0 (S L)).
Proof.
  intros HL Hlen (r & Hr1 & HrL & Hr & Hs1 & Hs2).
  pose proof (root_span_dependents H L r Hlen Hr1 HrL Hr Hs1 Hs2) as Hdeps.
  split; [by rewrite Hdeps|].
  assert (sealed H r 1) as Hseal1.
  { intros c p Hc Hp Hasg. unfold assigned in *.
    pose proof (lookup_lt_Some _ _ _ Hp).
    pose proof (cspan_heads_left H r 1 c p Hs1 Hp).
    pose proof (cspan_heads_right H r L c p Hs2 Hp).
    assert (c = r → p = 0) by (intros ->; rewrite Hr in Hp; simplify_eq; lia).
    lia. }
  assert (sealed H r L) as Hseal2.
  { intros c p Hc Hp Hasg. unfold assigned in *.
    pose proof (lookup_lt_Some _ _ _ Hp).
    pose proof (cspan_heads_left H r 1 c p Hs1 Hp).
    pose proof (cspan_heads_right H r L c p Hs2 Hp).
    assert (c = r → p = 0) by (intros ->; rewrite Hr in Hp; simplify_eq; lia).
    lia. }
  destruct (cspan_inorder H r 1 Hs1 ltac:(lia) ltac:(lia) ltac:(lia) ltac:(lia)
              Hseal1 L ltac:(lia)) as [_ G1].
  destruct (cspan_inorder H r L Hs2 ltac:(lia) ltac:(lia) ltac:(lia) ltac:(lia)
              Hseal2 L ltac:(lia)) as [G2 _].
  specialize (G1 Hr1). specialize (G2 HrL).
  assert (inorder_spec (S L) H r = Some (seq 1 (r - 1) ++ [r] ++ seq (r + 1) (L - r)))
    as Hr_tree.
  { apply inorder_spec_S.
    - rewrite (left_dependents_span H r 1); [done|lia..|]. intros; lia.
    - rewrite (right_dependents_span H r L); [done|lia..| |].
      + rewrite Hr. intros [= ?]. lia.
      + intros c ? ? Hp. apply lookup_lt_Some in Hp. lia. }
  replace (seq 0 (S L)) with ([] ++ [0] ++ (seq 1 (r - 1) ++ [r] ++ seq (r + 1) (L - r))).
  - apply inorder_spec_S.
    + unfold left_dependents. rewrite filter_none; [done|]. intros; lia.
    + unfold right_dependents. rewrite filter_all by (intros; lia).
      rewrite Hdeps. by apply inorder_list_one.
  - simpl. f_equal. pose proof (seq_glue 1 1 r L) as Hglue.
    rewrite Nat.sub_diag in Hglue. simpl in Hglue.
    rewrite Hglue by lia. f_equal. lia.
Qed.

(** A head array that backtracking has filled for a sentence of length
    [L ≥ 1] passes the validator. *)
Lemma root_span_istree H L :
  1 ≤ L → length H = L + 1 → root_span H L → istree H = Ok true.
Proof.
  intros HL Hlen Hroot.
  pose proof (root_span_valid H L Hlen Hroot) as Hvalid.
  destruct (root_span_inorder H L HL Hlen Hroot) as [Hdeps Hin].
  destruct (istree_valid H ltac:(lia) Hvalid) as (l & Hl & _ & ->).
  f_equal. apply bool_decide_eq_true. split; [done|].
  replace (S (length H)) with (S (S L)) in Hl by lia.
  rewrite Hin in Hl. simplify_eq. f_equal. lia.
Qed.

End accepted.

(** ** What [eisner] returns *)

Section eisner_result.
Import NP Decoder DecoderAux Validator.

Lemma getitem_transpose_201 `{Inhabited A} n b (x : list (list (list A))) c :
  c < b →
  getitem (transpose_201 n n b x) c = Ok (tab2 n n (λ i j, get3 x i j c)).
Proof.
  intros Hc. apply getitem_Ok. unfold transpose_201, tab3.
  by rewrite lookup_tab.
Qed.

Lemma length_mask_sum mask : length (mask_sum mask) = length mask.
Proof. unfold mask_sum. apply length_fmap. Qed.

Lemma pad_sequence_Ok sequences fix_len :
  Forall (λ s, length s ≤ fix_len) sequences →
  pad_sequence sequences fix_len =
  Ok ((λ s, s ++ replicate (fix_len - length s) 1%Z) <$> sequences).
Proof. intros Hall. unfold pad_sequence. by rewrite decide_True. Qed.

Lemma sentence_pointers_ok scores mask c :
  c < length scores →
  mask_sum mask !!! c < length (scores !!! 0) →
  pointers_ok (sentence_p_i scores mask c) (sentence_p_c scores mask c)
    (mask_sum mask !!! c).
Proof.
  intros Hc HL. set (n := length (scores !!! 0)) in *.
  destruct (loop_inv_loop (length scores) n
              (transpose_210 (length scores) n n scores) (mask_sum mask) (n - 1) c)
    as (Hrange & _ & Hroot); [lia|done|].
  fold (final_tables scores mask) in Hrange, Hroot.
  intros i j Hi Hj Hij.
  exists (get3 (p_i (final_tables scores mask)) i j c),
         (get3 (p_c (final_tables scores mask)) i j c).
  unfold sentence_p_i, sentence_p_c. fold n.
  rewrite !lookup_tab2 by lia.
  destruct (Hrange i j) as (? & ? & ? & ?); [lia..|].
  split_and!; try done.
  intros ->. apply Hroot; lia.
Qed.

(** The head array of one sentence. *)
Lemma sentence_heads_Ok scores mask c :
  c < length scores →
  mask_sum mask !!! c < length (scores !!! 0) →
  ∃ h, sentence_heads scores mask c = Ok h ∧
       length h = mask_sum mask !!! c + 1 ∧
       h !! 0 = Some 1%Z ∧
       (1 ≤ mask_sum mask !!! c → root_span h (mask_sum mask !!! c)).
Proof.
  intros Hc HL. unfold sentence_heads.
  set (L := mask_sum mask !!! c) in *.
  destruct (decide (L = 0)) as [->|HL0].
  - exists [1%Z]. split_and!; [done..|lia].
  - destruct (backtrack_root _ _ L (sentence_pointers_ok scores mask c Hc HL)
                (replicate (L + 1) 1%Z) (2 * L + 2))
      as (h & Hh & Hlen & H0 & _ & Hroot); [lia|rewrite length_replicate; lia|lia|].
    exists h. rewrite length_replicate in Hlen.
    split_and!; [done|done| |done].
    rewrite H0. apply lookup_replicate_2. lia.
Qed.

(** [eisner] returns one row per sentence: the head array of the sentence
    followed by the padding. *)
Lemma eisner_returns scores mask :
  length mask = length scores →
  (∀ c, c < length scores → mask_sum mask !!! c < length (scores !!! 0)) →
  ∃ rows, eisner scores mask = Ok rows ∧ length rows = length scores ∧
    ∀ c, c < length scores →
      ∃ h, sentence_heads scores mask c = Ok h ∧
           rows !! c = Some (h ++ replicate (length (scores !!! 0) - length h) 1%Z).
Proof.
  intros Hmask Hlens. unfold eisner.
  set (n := length (scores !!! 0)) in *.
  set (lens := mask_sum mask) in *.
  fold (final_tables scores mask).
  match goal with
  | |- context [forM ?f ?l] =>
      destruct (forM_exists f (λ c _ h, sentence_heads scores mask c = Ok h) l)
        as (predicts & -> & Hlen & Hpred)
  end.
  { intros c [c' L] Hx. rewrite list_lookup_imap in Hx.
    destruct (lens !! c) as [L'|] eqn:HL; simplify_eq/=.
    pose proof (lookup_lt_Some _ _ _ HL) as Hc.
    unfold lens in Hc. rewrite length_mask_sum, Hmask in Hc.
    rewrite !getitem_transpose_201 by done. simpl.
    destruct (sentence_heads_Ok scores mask c' Hc (Hlens c' Hc)) as (h & Hh & _).
    exists h. split; [|done]. rewrite <-Hh. unfold sentence_heads.
    fold lens. by rewrite (list_lookup_total_correct _ _ _ HL). }
  rewrite length_imap in Hlen. unfold lens in Hlen.
  rewrite length_mask_sum, Hmask in Hlen.
  assert (Hh : ∀ c, c < length scores → ∃ h, predicts !! c = Some h ∧
            sentence_heads scores mask c = Ok h).
  { intros c Hc. destruct (lookup_lt_is_Some_2 predicts c) as [h Hh]; [lia|].
    exists h. split; [done|].
    destruct (lookup_lt_is_Some_2 (imap pair lens) c) as [x Hx].
    { rewrite length_imap. unfold lens. rewrite length_mask_sum. lia. }
    by apply (Hpred c x h). }
  simpl. rewrite pad_sequence_Ok.
  - eexists. split; [done|]. split; [by rewrite length_fmap|].
    intros c Hc. destruct (Hh c Hc) as (h & Hp & Hs). exists h. split; [done|].
    by rewrite list_lookup_fmap, Hp.
  - apply Forall_lookup. intros c h Hp.
    pose proof (lookup_lt_Some _ _ _ Hp) as Hc. rewrite Hlen in Hc.
    destruct (Hh c Hc) as (h' & Hp' & Hs). simplify_eq.
    destruct (sentence_heads_Ok scores mask c Hc (Hlens c Hc)) as (h'' & Hs' & Hl & _).
    rewrite Hs in Hs'. simplify_eq. rewrite Hl. specialize (Hlens c Hc).
    unfold lens, n in *. lia.
Qed.

End eisner_result.

(** ** A sentence sees only its own scores *)

Section locality.
Import NP Decoder DecoderAux.
Context (batch_size seq_len : nat) (sc sc' : list (list (list score))).
Context (lens : list nat) (c L : nat).
Hypothesis Hsc : ∀ i j, i ≤ L → j ≤ L → get3 sc i j c = get3 sc' i j c.

Section one_round.
Context (t t' : tables) (w : nat).
Hypothesis Ht : tables_agree c L t t'.

Lemma ilr_at_agree k l :
  k + w ≤ L → l < w → ilr_at t w c k l = ilr_at t' w c k l.
Proof using Ht.
  intros Hk Hl. unfold ilr_at.
  destruct (Ht k (k + l)) as (_ & -> & _); [lia..|].
  destruct (Ht (w + k) (1 + k + l)) as (_ & -> & _); [lia..|]. done.
Qed.

Lemma il_row_agree k : k + w ≤ L → il_row sc t w c k = il_row sc' t' w c k.
Proof using Ht Hsc.
  intros Hk. unfold il_row. apply tab_ext. intros l Hl.
  by rewrite ilr_at_agree, Hsc by lia.
Qed.

Lemma ir_row_agree k : k + w ≤ L → ir_row sc t w c k = ir_row sc' t' w c k.
Proof using Ht Hsc.
  intros Hk. unfold ir_row. apply tab_ext. intros l Hl.
  by rewrite ilr_at_agree, Hsc by lia.
Qed.

Lemma s_i_at_agree i j :
  i ≤ L → j ≤ L → s_i_at sc t w i j c = s_i_at sc' t' w i j c.
Proof using Ht Hsc.
  intros Hi Hj. unfold s_i_at. repeat case_decide.
  - by rewrite ir_row_agree by lia.
  - by rewrite il_row_agree by lia.
  - by destruct (Ht i j) as (-> & _).
Qed.

Lemma p_i_at_agree i j :
  i ≤ L → j ≤ L → p_i_at sc t w i j c = p_i_at sc' t' w i j c.
Proof using Ht Hsc.
  intros Hi Hj. unfold p_i_at. repeat case_decide.
  - by rewrite ir_row_agree by lia.
  - by rewrite il_row_agree by lia.
  - by destruct (Ht i j) as (_ & _ & -> & _).
Qed.

Lemma cl_row_agree k : k + w ≤ L → cl_row sc t w c k = cl_row sc' t' w c k.
Proof using Ht Hsc.
  intros Hk. unfold cl_row. apply tab_ext. intros l Hl.
  destruct (Ht (k + l) k) as (_ & -> & _); [lia..|].
  by rewrite s_i_at_agree by lia.
Qed.

Lemma s_c_mid_agree i j :
  i ≤ L → j ≤ L → s_c_mid sc t w i j c = s_c_mid sc' t' w i j c.
Proof using Ht Hsc.
  intros Hi Hj. unfold s_c_mid. case_decide.
  - by rewrite cl_row_agree by lia.
  - by destruct (Ht i j) as (_ & -> & _).
Qed.

Lemma cr_row_agree k : k + w ≤ L → cr_row sc t w c k = cr_row sc' t' w c k.
Proof using Ht Hsc.
  intros Hk. unfold cr_row. apply tab_ext. intros l Hl.
  by rewrite s_i_at_agree, s_c_mid_agree by lia.
Qed.

Lemma s_c_at_agree i j :
  i ≤ L → j ≤ L → s_c_at sc lens t w i j c = s_c_at sc' lens t' w i j c.
Proof using Ht Hsc.
  intros Hi Hj. unfold s_c_at. repeat case_decide; try done.
  - by rewrite cr_row_agree by lia.
  - by apply s_c_mid_agree.
Qed.

Lemma p_c_at_agree i j :
  i ≤ L → j ≤ L → p_c_at sc t w i j c = p_c_at sc' t' w i j c.
Proof using Ht Hsc.
  intros Hi Hj. unfold p_c_at. repeat case_decide.
  - by rewrite cr_row_agree by lia.
  - by rewrite cl_row_agree by lia.
  - by destruct (Ht i j) as (_ & _ & _ & ->).
Qed.

Lemma eisner_step_agree :
  1 ≤ w → w < seq_len → c < batch_size → L < seq_len →
  tables_agree c L (eisner_step batch_size seq_len sc lens t w)
                   (eisner_step batch_size seq_len sc' lens t' w).
Proof using Ht Hsc.
  intros Hw1 Hw2 Hc HL i j Hi Hj.
  rewrite !eisner_step_s_i, !eisner_step_s_c, !eisner_step_p_i, !eisner_step_p_c
    by (done || lia).
  split_and!.
  - by apply s_i_at_agree.
  - by apply s_c_at_agree.
  - by apply p_i_at_agree.
  - by apply p_c_at_agree.
Qed.

End one_round.

Lemma eisner_loop_agree m :
  m < seq_len → c < batch_size → L < seq_len →
  tables_agree c L (eisner_loop batch_size seq_len sc lens m)
                   (eisner_loop batch_size seq_len sc' lens m).
Proof using Hsc.
  intros Hm Hc HL. induction m as [|m IH]; [done|].
  rewrite !eisner_loop_S. apply eisner_step_agree; [|lia..]. apply IH. lia.
Qed.

End locality.

Section backtrack_locality.
Import NP Decoder DecoderAux.
Context (pi pc pi' pc' : list (list nat)) (L : nat).
Hypothesis Hp : pointers_ok pi pc L.
Hypothesis Hagree : ∀ i j, i ≤ L → j ≤ L →
  pi !! i ≫= (.!! j) = pi' !! i ≫= (.!! j) ∧
  pc !! i ≫= (.!! j) = pc' !! i ≫= (.!! j).

#[local] Arguments backtrack : simpl never.

(** Backtracking inside the sentence reads the tables inside the sentence. *)
Lemma backtrack_agree fuel :
  ∀ heads i j complete, i ≤ L → j ≤ L →
    backtrack fuel pi pc heads i j complete =
    backtrack fuel pi' pc' heads i j complete.
Proof using Hp Hagree.
  induction fuel as [|fuel IH]; intros heads i j complete Hi Hj; [done|].
  rewrite !backtrack_S. case_decide as Hij; [done|].
  destruct (Hp i j Hi Hj Hij) as (ri & rc & Hri & Hrc & ? & ? & Hlt & Hgt & _).
  destruct (Hagree i j Hi Hj) as [Hpi Hpc].
  destruct complete.
  - rewrite (getitem2_bind pc i j rc) by done.
    rewrite (getitem2_bind pc' i j rc) by (by rewrite <-Hpc).
    rewrite IH by lia.
    destruct (backtrack fuel pi' pc' heads i rc false); simpl; [|done..].
    apply IH; lia.
  - rewrite (getitem2_bind pi i j ri) by done.
    rewrite (getitem2_bind pi' i j ri) by (by rewrite <-Hpi).
    case_decide; simpl; [|done].
    rewrite IH by lia.
    destruct (backtrack fuel pi' pc' _ (i `min` j) ri true); simpl; [|done..].
    apply IH; lia.
Qed.

End backtrack_locality.

Section sentence_locality.
Import NP Decoder DecoderAux.

Lemma get3_transpose_210 `{Inhabited A} a b (x : list (list (list A))) i j k :
  i < b → j < b → k < a →
  get3 (transpose_210 a b b x) i j k = get3 x k j i.
Proof. intros. unfold transpose_210. by rewrite get3_tab3. Qed.

(** The head array of a sentence depends on the scores between the
    positions [0 .. L] of that sentence only, [L] being its length. *)
Lemma sentence_heads_local scores scores' mask c :
  length scores' = length scores →
  length (scores' !!! 0) = length (scores !!! 0) →
  c < length scores →
  mask_sum mask !!! c < length (scores !!! 0) →
  (∀ i j, i ≤ mask_sum mask !!! c → j ≤ mask_sum mask !!! c →
     get3 scores c i j = get3 scores' c i j) →
  sentence_heads scores mask c = sentence_heads scores' mask c.
Proof.
  intros Hlen Hn Hc HL Hagree. unfold sentence_heads.
  apply backtrack_agree with (L := mask_sum mask !!! c); [|  |lia..].
  { by apply sentence_pointers_ok. }
  intros i j Hi Hj. unfold sentence_p_i, sentence_p_c. rewrite Hn.
  rewrite !lookup_tab2 by lia.
  assert (tables_agree c (mask_sum mask !!! c)
            (final_tables scores mask) (final_tables scores' mask)) as Ht.
  { unfold final_tables. rewrite Hlen, Hn.
    apply eisner_loop_agree; [|lia..].
    intros i' j' Hi' Hj'. rewrite !get3_transpose_210 by lia. by apply Hagree. }
  destruct (Ht i j Hi Hj) as (_ & _ & -> & ->). done.
Qed.

End sentence_locality.

(** ** The decoder: main results *)

Section decoder_results.
Import NP Decoder DecoderAux Validator.

Lemma shapes_seq_len scores mask batch n c :
  shapes_ok scores mask batch n → c < batch → length (scores !!! 0) = n.
Proof.
  intros (Hlen & Hall & _) Hc.
  destruct (lookup_lt_is_Some_2 scores 0) as [m Hm]; [lia|].
  rewrite (list_lookup_total_correct _ _ _ Hm).
  by apply (Forall_lookup_1 _ _ _ _ Hall) in Hm as [? _].
Qed.

Lemma shapes_lens scores mask batch n c (P : nat → Prop) :
  shapes_ok scores mask batch n → Forall P (mask_sum mask) → c < batch →
  P (mask_sum mask !!! c).
Proof.
  intros (_ & _ & Hlen & _) Hall Hc.
  destruct (lookup_lt_is_Some_2 (mask_sum mask) c) as [s Hs].
  { rewrite length_mask_sum. lia. }
  rewrite (list_lookup_total_correct _ _ _ Hs).
  by apply (Forall_lookup_1 _ _ _ _ Hall) in Hs.
Qed.

(** What [eisner] returns on a batch with the shapes of section 4.1 whose
    sentences are all shorter than the sequence length. *)
Lemma eisner_batch scores mask batch n :
  shapes_ok scores mask batch n →
  Forall (λ s, s < n) (mask_sum mask) →
  ∃ rows, eisner scores mask = Ok rows ∧ length rows = batch ∧
    ∀ c, c < batch →
      ∃ h, sentence_heads scores mask c = Ok h ∧
           length h = mask_sum mask !!! c + 1 ∧
           h !! 0 = Some 1%Z ∧
           (1 ≤ mask_sum mask !!! c → root_span h (mask_sum mask !!! c)) ∧
           rows !! c = Some (h ++ replicate (n - length h) 1%Z).
Proof.
  intros Hshape Hlens. pose proof Hshape as (Hb & _ & Hm & _).
  destruct (eisner_returns scores mask) as (rows & Hrows & Hlen & Hrow).
  { congruence. }
  { intros c Hc. rewrite (shapes_seq_len _ _ _ _ c Hshape) by lia.
    apply (shapes_lens _ _ _ _ c _ Hshape Hlens). lia. }
  exists rows. split; [done|]. split; [congruence|].
  intros c Hc. destruct (Hrow c ltac:(lia)) as (h & Hh & Hr).
  destruct (sentence_heads_Ok scores mask c) as (h' & Hh' & Hl & H0 & Hroot); [lia| |].
  { rewrite (shapes_seq_len _ _ _ _ c Hshape) by lia.
    apply (shapes_lens _ _ _ _ c _ Hshape Hlens). lia. }
  rewrite Hh in Hh'. simplify_eq. exists h'. split_and!; try done.
  by rewrite <-(shapes_seq_len _ _ _ _ c Hshape) by lia.
Qed.




(** C8, as far as it holds: on a batch with the shapes of section 4.1 and
    every mask row-sum below [n], [eisner] returns one row of length [n] per
    sentence; entry 0 of a row is the placeholder 1, the entries
    [1 .. row-sum] are heads among the positions [0 .. row-sum], and the
    entries after them are the padding value 1. *)
Theorem eisner_rows_padded scores mask batch n :
  shapes_ok scores mask batch n →
  Forall (λ s, s < n) (mask_sum mask) →
  ∃ rows, eisner scores mask = Ok rows ∧ length rows = batch ∧
    ∀ c, c < batch →
      ∃ row, rows !! c = Some row ∧ length row = n ∧
        row !! 0 = Some 1%Z ∧
        (∀ k, 1 ≤ k → k ≤ mask_sum mask !!! c →
           ∃ p, row !! k = Some (Z.of_nat p) ∧ p ≤ mask_sum mask !!! c) ∧
        (∀ k, mask_sum mask !!! c < k → k < n → row !! k = Some 1%Z).
Proof.
  intros Hshape Hlens.
  destruct (eisner_batch scores mask batch n Hshape Hlens) as (rows & Hrows & Hlen & Hrow).
  exists rows. split; [done|]. split; [done|].
  intros c Hc. destruct (Hrow c Hc) as (h & _ & Hl & H0 & Hroot & Hr).
  pose proof (shapes_lens _ _ _ _ c _ Hshape Hlens Hc) as HLn. simpl in HLn.
  eexists. split; [done|]. split_and!.
  - rewrite length_app, length_replicate. lia.
  - rewrite lookup_app_l by lia. done.
  - intros k Hk1 HkL. rewrite lookup_app_l by lia.
    pose proof (root_span_valid h _ Hl (Hroot ltac:(lia))) as Hvalid.
    destruct (lookup_lt_is_Some_2 h k) as [z Hz]; [lia|].
    pose proof (valid_heads_lookup _ _ _ Hvalid Hk1 Hz).
    exists (Z.to_nat z). rewrite Z2Nat.id by lia. split; [done|lia].
  - intros k HkL Hkn. rewrite lookup_app_r by lia.
    apply lookup_replicate_2. lia.
Qed.

Lemma eisner_rows_padded_witness :
  ∃ rows,
    eisner [score_matrix 3 (λ dep head, if decide (head = 0) then 5%Z else 0%Z)]
           [[false; true; false]] = Ok rows ∧ length rows = 1 ∧
    ∀ c, c < 1 →
      ∃ row, rows !! c = Some row ∧ length row = 3 ∧
        row !! 0 = Some 1%Z ∧
        (∀ k, 1 ≤ k → k ≤ mask_sum [[false; true; false]] !!! c →
           ∃ p, row !! k = Some (Z.of_nat p) ∧ p ≤ mask_sum [[false; true; false]] !!! c) ∧
        (∀ k, mask_sum [[false; true; false]] !!! c < k → k < 3 → row !! k = Some 1%Z).
Proof.
  apply (eisner_rows_padded
           [score_matrix 3 (λ dep head, if decide (head = 0) then 5%Z else 0%Z)]
           [[false; true; false]] 1 3).
  - unfold shapes_ok. simpl. repeat constructor.
  - simpl. repeat constructor.
Defined.

(** C8, as stated, fails: a mask row-sum equal to the sequence length is
    within the stated preconditions, and [eisner] raises there. *)
Lemma eisner_full_mask_raises :
  let scores := [score_matrix 2 (λ _ _, 0%Z)] in
  let mask := [[true; true]] in
  shapes_ok scores mask 1 2 ∧
  Forall (λ s, 1 ≤ s ∧ s ≤ 2) (mask_sum mask) ∧
  eisner scores mask = Raise IndexError.
Proof.
  split_and!.
  - unfold shapes_ok. simpl. repeat constructor.
  - simpl. repeat constructor.
  - vm_compute. reflexivity.
Qed.



(** C4, as far as it holds: two score tensors that agree, for a sentence,
    on the entries whose row and column are among the positions
    [0 .. row-sum] of that sentence, give the same row for that sentence
    under the same mask. *)
Theorem eisner_ignores_padding scores scores' mask batch n c :
  shapes_ok scores mask batch n → shapes_ok scores' mask batch n →
  Forall (λ s, s < n) (mask_sum mask) → c < batch →
  (∀ i j, i ≤ mask_sum mask !!! c → j ≤ mask_sum mask !!! c →
     get3 scores c i j = get3 scores' c i j) →
  ∃ rows rows' row,
    eisner scores mask = Ok rows ∧ eisner scores' mask = Ok rows' ∧
    rows !! c = Some row ∧ rows' !! c = Some row.
Proof.
  intros Hshape Hshape' Hlens Hc Hagree.
  destruct (eisner_batch scores mask batch n Hshape Hlens) as (rows & Hrows & _ & Hrow).
  destruct (eisner_batch scores' mask batch n Hshape' Hlens) as (rows' & Hrows' & _ & Hrow').
  destruct (Hrow c Hc) as (h & Hh & _ & _ & _ & Hr).
  destruct (Hrow' c Hc) as (h' & Hh' & _ & _ & _ & Hr').
  assert (h = h') as <-.
  { pose proof (shapes_seq_len _ _ _ _ c Hshape Hc) as Hn.
    pose proof (shapes_seq_len _ _ _ _ c Hshape' Hc) as Hn'.
    pose proof (shapes_lens _ _ _ _ c _ Hshape Hlens Hc) as HL. simpl in HL.
    destruct Hshape as (Hb & _), Hshape' as (Hb' & _).
    rewrite (sentence_heads_local scores scores' mask c) in Hh;
      [congruence|congruence|congruence|lia|lia|done]. }
  by exists rows, rows', (h ++ replicate (n - length h) 1%Z).
Qed.

Lemma eisner_ignores_padding_witness :
  ∃ rows rows' row,
    eisner [score_matrix 3 (λ dep head, if decide (head = 0) then 5%Z else 0%Z)]
           [[false; true; false]] = Ok rows ∧
    eisner [score_matrix 3 (λ dep head,
              if decide (head = 0) then 5%Z else if decide (dep = 2) then 7%Z else 0%Z)]
           [[false; true; false]] = Ok rows' ∧
    rows !! 0 = Some row ∧ rows' !! 0 = Some row.
Proof.
  apply (eisner_ignores_padding
           [score_matrix 3 (λ dep head, if decide (head = 0) then 5%Z else 0%Z)]
           [score_matrix 3 (λ dep head,
              if decide (head = 0) then 5%Z else if decide (dep = 2) then 7%Z else 0%Z)]
           [[false; true; false]] 1 3 0).
  - unfold shapes_ok. simpl. repeat constructor.
  - unfold shapes_ok. simpl. repeat constructor.
  - simpl. repeat constructor.
  - lia.
  - intros i j Hi Hj. simpl in Hi, Hj.
    assert (i = 0 ∨ i = 1) as [-> | ->] by lia;
      assert (j = 0 ∨ j = 1) as [-> | ->] by lia; reflexivity.
Defined.

(** C4, as stated, fails: the two tensors agree on every entry whose row
    and column are unmasked positions, and the head of token 1 differs,
    because the scores of the root position, which the mask leaves out, are
    part of the computation. *)
Lemma eisner_masked_root_scores_matter :
  let scores := [score_matrix 3 (λ dep head,
    if decide ((dep, head) = (1, 0)) then 10%Z else 0%Z)] in
  let scores' := [score_matrix 3 (λ dep head,
    if decide ((dep, head) = (2, 0)) then 10%Z else 0%Z)] in
  let mask := [[false; true; true]] in
  shapes_ok scores mask 1 3 ∧ shapes_ok scores' mask 1 3 ∧
  Forall (λ s, 1 ≤ s ∧ s ≤ 3) (mask_sum mask) ∧
  (∀ i j, get2 mask 0 i = true → get2 mask 0 j = true →
     i < 3 → j < 3 → get3 scores 0 i j = get3 scores' 0 i j) ∧
  get2 mask 0 1 = true ∧
  eisner scores mask = Ok [[1; 0; 1]%Z] ∧
  eisner scores' mask = Ok [[1; 2; 0]%Z].
Proof.
  split_and!.
  - unfold shapes_ok. simpl. repeat constructor.
  - unfold shapes_ok. simpl. repeat constructor.
  - simpl. repeat constructor.
  - intros i j Hi Hj Hi3 Hj3.
    destruct i as [|[|[|i]]]; try lia; try discriminate Hi;
      destruct j as [|[|[|j]]]; try lia; try discriminate Hj; reflexivity.
  - reflexivity.
  - vm_compute. reflexivity.
  - vm_compute. reflexivity.
Qed.

End decoder_results.

(** ** [np.unique] *)

Section unique.
Import Bucketer.

Lemma elem_of_insert_uniq z y l : y ∈ insert_uniq z l ↔ y = z ∨ y ∈ l.
Proof.
  induction l as [|a l IH]; simpl.
  - rewrite list_elem_of_singleton. split; [by left|].
    by intros [?|?%elem_of_nil].
  - repeat case_decide.
    + apply elem_of_cons.
    + subst. split; [by right|]. intros [->|?]; [left|done].
    + rewrite !elem_of_cons, IH. tauto.
Qed.

Lemma insert_uniq_sorted z l :
  StronglySorted Z.lt l → StronglySorted Z.lt (insert_uniq z l).
Proof.
  induction 1 as [|a l Hl IH Ha]; simpl.
  - repeat constructor.
  - repeat case_decide.
    + constructor; [by constructor|]. constructor; [done|].
      eapply Forall_impl; [done|]. simpl. lia.
    + by constructor.
    + constructor; [done|]. apply Forall_forall.
      intros y [->|Hy]%elem_of_insert_uniq; [lia|].
      by apply (proj1 (Forall_forall _ _) Ha).
Qed.

Lemma unique_sorted x : StronglySorted Z.lt (unique x).
Proof.
  induction x as [|z x IH]; simpl; [constructor|]. by apply insert_uniq_sorted.
Qed.

Lemma elem_of_unique x z : z ∈ unique x ↔ z ∈ x.
Proof.
  induction x as [|a x IH]; simpl; [done|].
  rewrite elem_of_insert_uniq, elem_of_cons, IH. done.
Qed.

Lemma sorted_NoDup (l : list Z) : StronglySorted Z.lt l → NoDup l.
Proof.
  induction 1 as [|a l Hl IH Ha]; constructor; [|done].
  intros Hin. apply (proj1 (Forall_forall _ _) Ha) in Hin. lia.
Qed.

Lemma unique_NoDup x : NoDup (unique x).
Proof. apply sorted_NoDup, unique_sorted. Qed.

Lemma index_of_lookup d z : z ∈ d → d !! index_of d z = Some z.
Proof.
  induction d as [|a d IH]; simpl; [by intros ?%elem_of_nil|].
  intros Hin. case_decide; [by subst|].
  apply elem_of_cons in Hin as [->|Hin]; [done|]. by apply IH.
Qed.

Lemma index_of_NoDup d t z : NoDup d → d !! t = Some z → index_of d z = t.
Proof.
  intros Hnd. revert t. induction Hnd as [|a d Ha Hnd IH]; intros t Ht; [done|].
  simpl. destruct t as [|t]; simplify_eq/=.
  - by rewrite decide_True.
  - rewrite decide_False; [f_equal; by apply IH|].
    intros ->. apply Ha. by eapply list_elem_of_lookup_2.
Qed.

Lemma unique_labels_NoDup y : NoDup (unique_labels y).
Proof.
  unfold unique_labels. apply NoDup_fmap_2_strong; [|apply unique_NoDup].
  intros a b Ha Hb Hab.
  apply elem_of_unique, list_elem_of_fmap in Ha as (a' & -> & _).
  apply elem_of_unique, list_elem_of_fmap in Hb as (b' & -> & _).
  lia.
Qed.

Lemma elem_of_unique_labels y i : i ∈ unique_labels y ↔ i ∈ y.
Proof.
  unfold unique_labels. rewrite list_elem_of_fmap. split.
  - intros (z & -> & Hz). apply elem_of_unique, list_elem_of_fmap in Hz as (j & -> & Hj).
    by rewrite Nat2Z.id.
  - intros Hi. exists (Z.of_nat i). split; [by rewrite Nat2Z.id|].
    apply elem_of_unique, list_elem_of_fmap. eauto.
Qed.

End unique.

(** ** Clusters of a labelling *)

Section members.
Import Bucketer.

Lemma elem_of_members y i t : t ∈ members y i ↔ y !! t = Some i.
Proof.
  unfold members. rewrite list_elem_of_filter, elem_of_seq. split; [by intros [? _]|].
  intros Ht. split; [done|]. apply lookup_lt_Some in Ht. lia.
Qed.

Lemma concat_filter_one {A K} (P : K → A → Prop) `{∀ i t, Decision (P i t)}
    (f : K → list A) (keys : list K) (t : A) (i0 : K) :
  NoDup keys → i0 ∈ keys → P i0 t → (∀ i, P i t → i = i0) →
  concat ((λ i, if decide (P i t) then t :: f i else f i) <$> keys)
  ≡ₚ t :: concat (f <$> keys).
Proof.
  intros Hnd Hin Hi0 Hfun.
  induction Hnd as [|a keys Ha Hnd IH]; [by apply elem_of_nil in Hin|].
  csimpl. case_decide as HP.
  - assert (a = i0) as -> by by apply Hfun.
    assert (((λ i, if decide (P i t) then t :: f i else f i) <$> keys) = (f <$> keys))
      as Heq.
    { apply list_fmap_ext. intros k i Hi.
      rewrite decide_False; [done|]. intros HPi. apply Hfun in HPi as ->.
      apply Ha. by eapply list_elem_of_lookup_2. }
    by rewrite Heq.
  - apply elem_of_cons in Hin as [->|Hin]; [done|].
    rewrite IH by done. by rewrite Permutation_middle.
Qed.

(** Labels that all occur among the keys split the positions among the
    clusters of the keys. *)
Lemma concat_filter_partition {A K} (P : K → A → Prop) `{∀ i t, Decision (P i t)}
    (keys : list K) (l : list A) :
  NoDup keys →
  (∀ t, t ∈ l → ∃ i, i ∈ keys ∧ P i t) →
  (∀ t i i', P i t → P i' t → i = i') →
  concat ((λ i, filter (P i) l) <$> keys) ≡ₚ l.
Proof.
  intros Hnd Hcover Hfun. induction l as [|t l IH].
  - clear Hnd Hcover. induction keys as [|a keys IHk]; [done|]. by csimpl.
  - destruct (Hcover t) as (i0 & Hi0 & HP); [left|].
    transitivity (t :: concat ((λ i, filter (P i) l) <$> keys)).
    2:{ f_equiv. apply IH. intros. apply Hcover. by right. }
    rewrite <-(concat_filter_one P (λ i, filter (P i) l) keys t i0);
      [|done|done|done|by intros; eapply Hfun].
    assert (((λ i, filter (P i) (t :: l)) <$> keys)
            = ((λ i, if decide (P i t) then t :: filter (P i) l else filter (P i) l)
                 <$> keys)) as Heq.
    { apply list_fmap_ext. intros k i _. by rewrite filter_cons. }
    by rewrite Heq.
Qed.

Lemma members_partition y keys :
  NoDup keys → (∀ i, i ∈ y → i ∈ keys) →
  concat ((λ i, members y i) <$> keys) ≡ₚ seq 0 (length y).
Proof.
  intros Hnd Hcover. unfold members. apply concat_filter_partition; [done| |].
  - intros t [_ Ht]%elem_of_seq.
    destruct (lookup_lt_is_Some_2 y t) as [i Hi]; [lia|].
    exists i. split; [|done]. apply Hcover. by eapply list_elem_of_lookup_2.
  - intros t i i' Hi Hi'. congruence.
Qed.

End members.

(** ** Extrema *)

Section extrema.
Import Bucketer.

Lemma argmin_from_lt best bi i l :
  bi < i → (argmin_from best bi i l).1 < i + length l.
Proof.
  revert best bi i. induction l as [|x l IH]; intros best bi i Hbi; simpl; [lia|].
  destruct (Qlt_bool x best).
  - pose proof (IH x i (S i)). lia.
  - pose proof (IH best bi (S i)). lia.
Qed.

Lemma argmin_Ok l :
  l ≠ [] → ∃ r, argmin l = Ok r ∧ r.1 < length l.
Proof.
  destruct l as [|x l]; [done|]. intros _. eexists. split; [done|]. simpl.
  pose proof (argmin_from_lt x 0 1 l). lia.
Qed.

Lemma argmaxQ_from_lt best bi i l :
  bi < i → argmaxQ_from best bi i l < i + length l.
Proof.
  revert best bi i. induction l as [|x l IH]; intros best bi i Hbi; simpl; [lia|].
  destruct (Qlt_bool best x).
  - pose proof (IH x i (S i)). lia.
  - pose proof (IH best bi (S i)). lia.
Qed.

Lemma argmaxQ_Ok l : l ≠ [] → ∃ r, argmaxQ l = Ok r ∧ r < length l.
Proof.
  destruct l as [|x l]; [done|]. intros _. eexists. split; [done|]. simpl.
  pose proof (argmaxQ_from_lt x 0 1 l). lia.
Qed.

Lemma argmaxN_from_max pre best bi l :
  (pre ++ l) !! bi = Some best → bi < length pre →
  Forall (λ v, v ≤ best) pre →
  ∃ vr, (pre ++ l) !! argmaxN_from best bi (length pre) l = Some vr ∧
        Forall (λ v, v ≤ vr) (pre ++ l).
Proof.
  revert pre best bi. induction l as [|x l IH]; intros pre best bi Hbest Hbi Hpre; simpl.
  - exists best. by rewrite app_nil_r in *.
  - replace (pre ++ x :: l) with ((pre ++ [x]) ++ l) in * by by rewrite <-app_assoc.
    replace (S (length pre)) with (length (pre ++ [x]))
      by (rewrite length_app; simpl; lia).
    case_decide.
    + apply IH.
      * rewrite lookup_app_l by (rewrite length_app; simpl; lia).
        by rewrite lookup_app_r, Nat.sub_diag.
      * rewrite length_app. simpl. lia.
      * apply Forall_app. split; [|by repeat constructor].
        eapply Forall_impl; [done|]. simpl. lia.
    + apply IH; [done|rewrite length_app; simpl; lia|].
      apply Forall_app. split; [done|]. repeat constructor. lia.
Qed.

Lemma argmaxN_Ok l :
  l ≠ [] →
  ∃ r vr, argmaxN l = Ok r ∧ l !! r = Some vr ∧ Forall (λ v, v ≤ vr) l.
Proof.
  destruct l as [|x l]; [done|]. intros _.
  destruct (argmaxN_from_max [x] x 0 l) as (vr & Hr & Hmax);
    [done|simpl; lia|by repeat constructor|].
  by exists (argmaxN_from x 0 1 l), vr.
Qed.

End extrema.

(** ** The stages of [kmeans] *)

Section stages.
Import Bucketer BucketerAux.

Lemma assign_Ok d c :
  c ≠ [] →
  ∃ dists y, assign d c = Ok (dists, y) ∧
             length dists = length d ∧ length y = length d ∧
             Forall (λ i, i < length c) y.
Proof.
  intros Hc. unfold assign.
  destruct (forM_exists (λ v, argmin ((λ cv, Qabs (inject_Z v - cv)%Q) <$> c))
              (λ _ _ r, r.1 < length c) d) as (rs & -> & Hlen & Hrs).
  { intros i v _. destruct (argmin_Ok ((λ cv, Qabs (inject_Z v - cv)%Q) <$> c))
      as (r & -> & Hr); [by destruct c|].
    rewrite length_fmap in Hr. by exists r. }
  simpl. eexists _, _. split; [done|]. rewrite !length_fmap.
  split_and!; [done..|].
  apply Forall_fmap, Forall_lookup. intros i r Hr. simpl.
  destruct (lookup_lt_is_Some_2 d i) as [v Hv].
  { rewrite <-Hlen. by eapply lookup_lt_Some. }
  by eapply Hrs.
Qed.

Lemma members_nonempty y t i : y !! t = Some i → 1 ≤ length (members y i).
Proof.
  intros Ht. apply elem_of_members in Ht.
  destruct (members y i); [by apply elem_of_nil in Ht|simpl; lia].
Qed.

Lemma repair_step_Ok k dists y i :
  y ≠ [] → length dists = length y → Forall (λ j, j < k) y → i < k →
  ∃ y', repair_step k dists y i = Ok y' ∧
        length y' = length y ∧ Forall (λ j, j < k) y'.
Proof.
  intros Hy Hlen Hall Hi. unfold repair_step.
  case_decide; [by eauto|].
  set (lens := (λ j, length (members y j)) <$> seq 0 k).
  destruct (argmaxN_Ok lens) as (big & vr & -> & Hbig & Hmax).
  { unfold lens. destruct k; [lia|done]. }
  simpl.
  assert (members y big ≠ []) as Hne.
  { destruct (lookup_lt_is_Some_2 y 0) as [j0 H0].
    { destruct y; [done|simpl; lia]. }
    assert (j0 < k) as Hj0.
    { apply (Forall_lookup_1 _ _ _ _ Hall H0). }
    assert (lens !! j0 = Some (length (members y j0))) as Hl0.
    { unfold lens. by rewrite list_lookup_fmap, lookup_seq_lt by done. }
    pose proof (Forall_lookup_1 _ _ _ _ Hmax Hl0) as Hle. simpl in Hle.
    pose proof (members_nonempty y 0 j0 H0).
    unfold lens in Hbig. rewrite list_lookup_fmap in Hbig.
    destruct (seq 0 k !! big) as [b|] eqn:Hb; simplify_eq/=.
    apply lookup_seq in Hb as [-> _]. simpl in *.
    intros Hnil. rewrite Hnil in Hle. simpl in Hle. lia. }
  destruct (forM_exists (getitem dists) (λ _ _ _, True) (members y big))
    as (far & -> & Hflen & _).
  { intros j t Ht. apply list_elem_of_lookup_2, elem_of_members, lookup_lt_Some in Ht.
    destruct (getitem_lt dists t) as [q ->]; [lia|]. by exists q. }
  simpl. destruct (argmaxQ_Ok far) as (farthest & -> & Hfar).
  { intros ->. destruct (members y big); [done|]. done. }
  simpl. destruct (getitem_lt (members y big) farthest) as [t Ht]; [lia|].
  rewrite Ht. simpl.
  apply getitem_Ok, list_elem_of_lookup_2, elem_of_members, lookup_lt_Some in Ht.
  rewrite decide_True by done.
  eexists. split; [done|]. split; [by rewrite length_insert|].
  by apply Forall_insert.
Qed.

Lemma repair_fold_Ok k dists y m :
  y ≠ [] → length dists = length y → Forall (λ j, j < k) y → m ≤ k →
  ∃ y', foldM (repair_step k dists) y (seq (k - m) m) = Ok y' ∧
        length y' = length y ∧ Forall (λ j, j < k) y'.
Proof.
  revert y. induction m as [|m IH]; intros y Hy Hlen Hall Hm; simpl; [by eauto|].
  destruct (repair_step_Ok k dists y (k - S m)) as (y1 & -> & Hlen1 & Hall1);
    [done|done|done|lia|].
  simpl. replace (S (k - S m)) with (k - m) by lia.
  destruct (IH y1) as (y' & -> & ? & ?); [|congruence|done|lia|].
  { intros ->. destruct y; [done|]. done. }
  exists y'. split; [done|]. split; [congruence|done].
Qed.


Lemma body_Ok d total f k st :
  d ≠ [] → 1 ≤ k → state_ok d k st →
  ∃ st', body d total f k st = Ok st' ∧ state_ok d k st'.
Proof.
  intros Hd Hk (Hy & Hdists & Hall & Hc). unfold body.
  destruct (repair_fold_Ok k (dists st) (y st) k) as (y1 & Hy1 & Hlen1 & Hall1);
    [|congruence|done|lia|].
  { intros Hnil. rewrite Hnil in Hy. destruct d; [done|]. done. }
  rewrite Nat.sub_diag in Hy1. rewrite Hy1. simpl.
  destruct (assign_Ok d ((λ j, centroid total f y1 j) <$> seq 0 k))
    as (dists2 & y2 & -> & Hd2 & Hy2 & Hall2).
  { destruct k; [lia|done]. }
  simpl. eexists. split; [done|].
  rewrite length_fmap, length_seq in Hall2.
  split_and!; simpl; [done..|]. by rewrite length_fmap, length_seq.
Qed.

Lemma loop_Ok fuel d total f k st :
  d ≠ [] → 1 ≤ k → state_ok d k st →
  loop fuel d total f k st = Diverge ∨
  ∃ st', loop fuel d total f k st = Ok st' ∧ state_ok d k st'.
Proof.
  intros Hd Hk. revert st. induction fuel as [|fuel IH]; intros st Hst; simpl.
  - destruct (match old st with Some o => all_equal (c st) o | None => false end);
      [right; by eauto|by left].
  - destruct (match old st with Some o => all_equal (c st) o | None => false end);
      [right; by eauto|].
    destruct (body_Ok d total f k st Hd Hk Hst) as (st1 & -> & Hst1). simpl.
    by apply IH.
Qed.

(** More fuel does not change what the loop returns. *)
Lemma loop_fuel_mono fuel d total f k :
  ∀ st st', loop fuel d total f k st = Ok st' →
            loop (S fuel) d total f k st = Ok st'.
Proof.
  induction fuel as [|fuel IH]; intros st st' Hst.
  - simpl in *.
    by destruct (match old st with Some o => all_equal (c st) o | None => false end).
  - change (loop (S fuel) d total f k st) with
      (if match old st with Some o => all_equal (c st) o | None => false end
       then Ok st else st1 ← body d total f k st; loop fuel d total f k st1) in Hst.
    change (loop (S (S fuel)) d total f k st) with
      (if match old st with Some o => all_equal (c st) o | None => false end
       then Ok st else st1 ← body d total f k st; loop (S fuel) d total f k st1).
    destruct (match old st with Some o => all_equal (c st) o | None => false end);
      [done|].
    apply bind_Ok in Hst as (st1 & -> & Hst). simpl. by apply IH.
Qed.

Lemma kmeans_fuel_mono fuel perm x k r :
  kmeans fuel perm x k = Ok r → kmeans (S fuel) perm x k = Ok r.
Proof.
  unfold kmeans. intros Hr.
  apply bind_Ok in Hr as (cz & Hcz & Hr).
  apply bind_Ok in Hr as ([dists0 y0] & Hassign & Hr).
  apply bind_Ok in Hr as (st & Hst & Hr).
  apply bind_Ok. exists cz. split; [done|].
  apply bind_Ok. exists (dists0, y0). split; [done|].
  apply bind_Ok. exists st. split; [by apply loop_fuel_mono|done].
Qed.

Lemma perm_take_lt perm n k :
  perm ≡ₚ seq 0 n → Forall (λ i, i < n) (take k perm).
Proof.
  intros Hperm. apply Forall_take. rewrite Hperm.
  apply Forall_forall. intros i [_ ?]%elem_of_seq. lia.
Qed.

(** What [kmeans] does on a non-empty input with [k ≥ 1]: nothing raises;
    unless the loop is still running when the fuel ends, the result is built
    from the labels [y] of the last round. *)
Lemma kmeans_runs fuel perm x k :
  x ≠ [] → 1 ≤ k → perm ≡ₚ seq 0 (length (unique x)) →
  kmeans fuel perm x k = Diverge ∨
  ∃ st y_all centroids,
    state_ok (unique x) (length (unique x) `min` k) st ∧
    forM (getitem (y st)) (index_of (unique x) <$> x) = Ok y_all ∧
    length centroids = length (unique_labels (y st)) ∧
    kmeans fuel perm x k =
    Ok (centroids, (λ i, members y_all i) <$> unique_labels (y st)).
Proof.
  intros Hx Hk Hperm. unfold kmeans.
  set (d := unique x) in *.
  assert (d ≠ []) as Hd.
  { destruct x as [|z x]; [done|]. intros Hnil.
    assert (z ∈ d) as Hz by (apply elem_of_unique; left).
    rewrite Hnil in Hz. by apply elem_of_nil in Hz. }
  assert (0 < length d) as Hdlen by (destruct d; [done|simpl; lia]).
  destruct (forM_exists (getitem d) (λ _ _ _, True) (take k perm))
    as (cz & -> & Hczlen & _).
  { intros i t Ht.
    pose proof (Forall_lookup_1 _ _ _ _ (perm_take_lt perm (length d) k Hperm) Ht) as Hlt.
    simpl in Hlt. destruct (getitem_lt d t Hlt) as [z ->]. by exists z. }
  simpl.
  assert (length cz = length d `min` k) as Hcz.
  { rewrite Hczlen, length_take, Hperm, length_seq. lia. }
  destruct (assign_Ok d (inject_Z <$> cz)) as (dists0 & y0 & -> & Hd0 & Hy0 & Hall0).
  { destruct cz; [simpl in Hcz; lia|done]. }
  simpl. rewrite length_fmap, Hcz in Hall0.
  destruct (loop_Ok fuel d (zip_with (λ v n, (v * Z.of_nat n)%Z) d (count_of x <$> d))
              (count_of x <$> d) (length d `min` k)
              {| c := inject_Z <$> cz; old := None; dists := dists0; y := y0 |})
    as [-> | (st & -> & Hst)]; [done|lia| |by left|].
  { split_and!; simpl; [done..|]. by rewrite length_fmap. }
  simpl. right.
  destruct Hst as (Hyst & Hdst & Hallst & Hcst).
  destruct (forM_exists (getitem (y st)) (λ _ _ _, True) (index_of d <$> x))
    as (y_all & Hy_all & _).
  { intros j t Ht. apply list_lookup_fmap_Some in Ht as (z & -> & Hz).
    assert (index_of d z < length (y st)) as Hlt.
    { rewrite Hyst. eapply lookup_lt_Some, index_of_lookup.
      apply elem_of_unique. by eapply list_elem_of_lookup_2. }
    destruct (getitem_lt (y st) _ Hlt) as [v ->]. by exists v. }
  rewrite Hy_all. simpl.
  destruct (forM_exists (getitem (c st)) (λ _ _ _, True) (unique_labels (y st)))
    as (centroids & Hcents & Hclen & _).
  { intros j i Hi. apply list_elem_of_lookup_2 in Hi.
    rewrite elem_of_unique_labels in Hi.
    assert (i < length (c st)) as Hlt.
    { rewrite Hcst. by apply (proj1 (Forall_forall _ _) Hallst). }
    destruct (getitem_lt (c st) _ Hlt) as [v ->]. by exists v. }
  rewrite Hcents. simpl.
  exists st, y_all, centroids. by split_and!.
Qed.

(** What a run of [kmeans] that returns has returned. *)
Lemma kmeans_Ok_inv fuel perm x k centroids clusters :
  kmeans fuel perm x k = Ok (centroids, clusters) →
  ∃ yl y_all,
    forM (getitem yl) (index_of (unique x) <$> x) = Ok y_all ∧
    clusters = (λ i, members y_all i) <$> unique_labels yl.
Proof.
  unfold kmeans. intros H0.
  apply bind_Ok in H0 as (cz & _ & H0).
  apply bind_Ok in H0 as ([dists0 y0] & _ & H0).
  apply bind_Ok in H0 as (st & _ & H0).
  apply bind_Ok in H0 as (y_all & Hy_all & H0).
  apply bind_Ok in H0 as (cents & _ & H0).
  simplify_eq. by exists (y st), y_all.
Qed.

Lemma members_cover (yl y_all : list nat) (indices : list nat) :
  forM (getitem yl) indices = Ok y_all →
  concat ((λ i, members y_all i) <$> unique_labels yl) ≡ₚ seq 0 (length indices).
Proof.
  intros Hy_all. destruct (forM_Ok _ _ _ Hy_all) as [Hlen Hall].
  rewrite <-Hlen. apply members_partition; [apply unique_labels_NoDup|].
  intros i Hi. apply elem_of_unique_labels.
  apply list_elem_of_lookup_1 in Hi as [j Hj].
  destruct (lookup_lt_is_Some_2 indices j) as [t Ht].
  { rewrite <-Hlen. by eapply lookup_lt_Some. }
  destruct (Hall j t Ht) as (v & Hv & Hget). simplify_eq.
  apply getitem_Ok in Hget. by eapply list_elem_of_lookup_2.
Qed.

Lemma clusters_nonempty x (yl y_all : list nat) :
  length yl = length (unique x) →
  forM (getitem yl) (index_of (unique x) <$> x) = Ok y_all →
  Forall (λ cl, cl ≠ []) ((λ i, members y_all i) <$> unique_labels yl).
Proof.
  intros Hlen Hy_all. destruct (forM_Ok _ _ _ Hy_all) as [Hlen_all Hall].
  apply Forall_fmap, Forall_forall. intros i Hi. simpl.
  rewrite elem_of_unique_labels in Hi. apply list_elem_of_lookup_1 in Hi as [t Ht].
  destruct (lookup_lt_is_Some_2 (unique x) t) as [z Hz].
  { rewrite <-Hlen. by eapply lookup_lt_Some. }
  assert (z ∈ x) as Hzx by (eapply elem_of_unique, list_elem_of_lookup_2; done).
  apply list_elem_of_lookup_1 in Hzx as [j Hj].
  destruct (Hall j (index_of (unique x) z)) as (v & Hv & Hget).
  { by rewrite list_lookup_fmap, Hj. }
  rewrite (index_of_NoDup _ t z (unique_NoDup x) Hz) in Hget.
  apply getitem_Ok in Hget. simplify_eq.
  intros Hnil. apply elem_of_members in Hv. rewrite Hnil in Hv.
  by apply elem_of_nil in Hv.
Qed.

Lemma labels_bounded (yl : list nat) k :
  Forall (λ j, j < k) yl → length (unique_labels yl) ≤ k.
Proof.
  intros Hall.
  assert (unique_labels yl ⊆+ seq 0 k) as Hsub.
  { apply NoDup_submseteq; [apply unique_labels_NoDup|].
    intros i Hi. rewrite elem_of_unique_labels in Hi. apply elem_of_seq.
    pose proof (proj1 (Forall_forall _ _) Hall i Hi). simpl in *. lia. }
  apply submseteq_length in Hsub. by rewrite length_seq in Hsub.
Qed.

End stages.

(** ** The bucketer: main results *)

Section bucketer_results.
Import Bucketer BucketerAux.





(** The example of section 8: five lengths with two distinct values and
    [k = 3] give two clusters, for either order of the initial centroids. *)
Example kmeans_example :
  kmeans 10 [0; 1] [1; 1; 1; 1; 100]%Z 3
    = Ok ([(4 # 4)%Q; inject_Z 100], [[0; 1; 2; 3]; [4]]) ∧
  kmeans 10 [1; 0] [1; 1; 1; 1; 100]%Z 3
    = Ok ([inject_Z 100; (4 # 4)%Q], [[4]; [0; 1; 2; 3]]).
Proof. split; vm_compute; reflexivity. Qed.

End bucketer_results.

(** ** The validator: further properties *)

Section head_ext.
Import Validator ValidatorAux ValidatorProps.
Context (s s' : list Z).
Hypothesis Hext : ∀ c, head_of s c = head_of s' c.

Lemma ancestor_ext k u : ancestor s k u = ancestor s' k u.
Proof using Hext.
  revert u. induction k as [|k IH]; intros u; simpl; [done|].
  rewrite Hext. destruct (head_of s' u); simpl; [apply IH|done].
Qed.

Lemma desc_ext v u : desc s v u ↔ desc s' v u.
Proof using Hext. unfold desc. by setoid_rewrite ancestor_ext. Qed.

Lemma kid_l_ext m p : kid_l s m p = kid_l s' m p.
Proof using Hext.
  unfold kid_l. apply filter_ext_in. intros c _. by rewrite Hext.
Qed.

Lemma kid_r_ext m p : kid_r s m p = kid_r s' m p.
Proof using Hext.
  unfold kid_r. apply filter_ext_in. intros c _. by rewrite Hext.
Qed.

End head_ext.

Section python_heads.
Import Validator ValidatorAux ValidatorProps.

Lemma index_ok_lookup heads i h :
  index_ok heads → 1 ≤ i → heads !! i = Some h →
  (- Z.of_nat (length heads) ≤ h < Z.of_nat (length heads))%Z.
Proof.
  unfold index_ok. rewrite Forall_lookup. intros Hv Hi Hh.
  apply (Hv (i - 1)). rewrite lookup_drop. by replace (1 + (i - 1)) with i by lia.
Qed.

Lemma length_normalize heads : length (normalize heads) = length heads.
Proof. apply length_fmap. Qed.

Lemma head_of_normalize heads c :
  index_ok heads → head_of (normalize heads) c = head_of heads c.
Proof.
  intros Hok. unfold head_of. case_decide as Hc; [done|].
  rewrite length_normalize. unfold normalize. rewrite list_lookup_fmap.
  destruct (heads !! c) as [h|] eqn:Hh; simpl; [|done].
  pose proof (index_ok_lookup heads c h Hok ltac:(lia) Hh) as Hr.
  unfold py_index. destruct (decide (h < 0)%Z).
  - rewrite (decide_True (P := (0 ≤ _ + h < _)%Z)) by lia.
    rewrite (decide_False (P := (0 ≤ h < _)%Z)) by lia.
    by rewrite decide_True by lia.
  - done.
Qed.

Lemma valid_normalize heads : index_ok heads → valid_heads (normalize heads).
Proof.
  intros Hok. unfold valid_heads. apply Forall_lookup. intros i h Hh.
  rewrite lookup_drop in Hh. unfold normalize in Hh.
  rewrite list_lookup_fmap in Hh.
  destruct (heads !! (1 + i)) as [h0|] eqn:Hh0; simplify_eq/=.
  pose proof (index_ok_lookup heads (1 + i) h0 Hok ltac:(lia) Hh0) as Hr.
  rewrite length_normalize. case_decide; lia.
Qed.

Lemma valid_index_ok heads : valid_heads heads → index_ok heads.
Proof. intros Hv. eapply Forall_impl; [exact Hv|]. intros h. simpl. lia. Qed.

#[local] Arguments inorder_traversal : simpl never.

(** [istree] reads the array through [head_of] only. *)
Lemma istree_ext heads heads' :
  0 < length heads → length heads' = length heads → valid_heads heads' →
  (∀ c, head_of heads c = head_of heads' c) →
  istree heads = istree heads'.
Proof.
  intros Hlen Hlen' Hv Hext.
  destruct (istree_valid heads' ltac:(lia) Hv) as (l & Hspec & _ & ->).
  set (s := <[0:=(-1)%Z]> heads). set (s' := <[0:=(-1)%Z]> heads').
  assert (Hs0 : s !! 0 = Some (-1)%Z) by by apply list_lookup_insert_eq.
  assert (Hslen : length s = length heads) by apply length_insert.
  assert (Hslen' : length s' = length heads) by (unfold s'; by rewrite length_insert).
  assert (Hext' : ∀ c, head_of s c = head_of s' c).
  { intros c. unfold s, s'. by rewrite !head_of_overwrite. }
  unfold istree, DepTree_init. rewrite decide_True by done. simpl. fold s.
  rewrite build_tree_ok; [|lia|].
  2:{ intros c Hc. rewrite Hext'. unfold s'. rewrite head_of_overwrite.
      apply head_of_valid_is_Some; [done|lia]. }
  simpl. unfold judge_legal. simpl. fold (tree_of s).
  assert (getitem (tree_of s) 0 = Ok (node_at s 0 (-1)%Z)) as ->.
  { apply getitem_Ok, nodes_lookup. by exists (-1)%Z. }
  simpl. rewrite kid_l_root. simpl.
  assert (kid_r s (length s) 0 = dependents heads' 0) as ->.
  { rewrite (kid_r_ext s s' Hext'). replace (length s) with (length s') by lia.
    by apply root_dependents. }
  rewrite Hslen.
  assert (length (tree_of s) = length heads) as ->.
  { unfold tree_of. by rewrite built_length. }
  rewrite Hlen'.
  destruct (inorder_traversal_fuel s (S (length heads))
              (replicate (length heads) false) 0 (-1)%Z)
    as (l2 & V' & Hl2 & _ & _); [by rewrite length_replicate|done| |].
  { unfold unvisited. pose proof (length_filter (λ b, b = false)
      (replicate (length heads) false)) as Hle.
    rewrite length_replicate in Hle. lia. }
  assert (inorder_spec (S (length heads)) heads' 0 = Some l2) as Hspec2.
  { eapply (inorder_traversal_sim s heads'); [|done|apply desc_refl| |done].
    - intros v Hreach. rewrite (kid_l_ext s s' Hext'), (kid_r_ext s s' Hext').
      replace (length s) with (length s') by lia. apply kids_dependents; [done|].
      by apply (desc_ext s s' Hext').
    - intros u Hu. apply lookup_replicate_2.
      rewrite <-Hslen. eapply desc_lt; [done|]. lia. }
  rewrite Hlen' in Hspec. rewrite Hspec in Hspec2. simplify_eq.
  case_decide as Hroot.
  - rewrite bool_decide_eq_false_2; [done|]. intros [? _]. done.
  - rewrite Hl2. simpl. case_decide as Hseq.
    + rewrite bool_decide_eq_false_2; [done|]. intros [_ ?]. done.
    + rewrite bool_decide_eq_true_2; [done|]. split; [lia|].
      by destruct (decide (seq 0 (length heads) = l2)).
Qed.

Lemma istree_normalize heads :
  index_ok heads → istree (normalize heads) = istree heads.
Proof.
  intros Hok. destruct (decide (0 < length heads)) as [Hlen|Hlen].
  - symmetry. apply istree_ext; [done|apply length_normalize|by apply valid_normalize|].
    intros c. by rewrite head_of_normalize.
  - by destruct heads; [|simpl in Hlen; lia].
Qed.

Lemma istree_raise_lookup heads i h :
  1 ≤ i → heads !! i = Some h →
  (h < - Z.of_nat (length heads) ∨ Z.of_nat (length heads) ≤ h)%Z →
  istree heads = Raise IndexError.
Proof.
  intros Hi Hh Hrange. pose proof (lookup_lt_Some _ _ _ Hh) as Hlt.
  unfold istree, DepTree_init. rewrite decide_True by lia. simpl.
  rewrite (build_tree_raise _ i); [done|by rewrite length_insert; lia|].
  rewrite head_of_overwrite.
  apply (head_of_None heads i h); [done..|]. by apply py_index_Raise.
Qed.

Lemma istree_index_ok heads :
  heads ≠ [] → index_ok heads → ∃ b, istree heads = Ok b.
Proof.
  intros Hne Hok. rewrite <-istree_normalize by done.
  assert (0 < length (normalize heads)) as Hlen.
  { rewrite length_normalize. destruct heads; [done|simpl; lia]. }
  destruct (istree_valid (normalize heads) Hlen (valid_normalize _ Hok))
    as (l & _ & _ & ->). by eexists.
Qed.

Lemma not_index_ok heads :
  ¬ index_ok heads →
  ∃ i h, 1 ≤ i ∧ heads !! i = Some h ∧
         (h < - Z.of_nat (length heads) ∨ Z.of_nat (length heads) ≤ h)%Z.
Proof.
  intros Hnot. unfold index_ok in Hnot.
  apply not_Forall_Exists in Hnot; [|intros h; apply _].
  apply Exists_exists in Hnot as (h & Hin & Hh).
  apply list_elem_of_lookup in Hin as [i Hi]. rewrite lookup_drop in Hi.
  simpl in Hh. exists (1 + i), h. split_and!; [lia|done|lia].
Qed.

End python_heads.

(** ** The traversal of a valid head array *)

Section traversal_spec.
Import Validator ValidatorAux ValidatorProps.
Context (H : list Z).
Hypothesis Hvalid : valid_heads H.

Lemma elem_of_left_dependents c v :
  c ∈ left_dependents H v ↔ head_of H c = Some v ∧ c < v.
Proof using Hvalid.
  unfold left_dependents, dependents.
  rewrite !list_elem_of_filter, elem_of_seq. split.
  - intros (? & Hh & ?). split; [|done]. apply head_of_valid; [done|lia|done].
  - intros [Hh ?]. pose proof (head_of_lt _ _ _ Hh).
    apply head_of_valid in Hh; [|done|lia]. split_and!; first [done|lia].
Qed.

Lemma elem_of_right_dependents c v :
  c ∈ right_dependents H v ↔ head_of H c = Some v ∧ ¬ c < v.
Proof using Hvalid.
  unfold right_dependents, dependents.
  rewrite !list_elem_of_filter, elem_of_seq. split.
  - intros (? & Hh & ?). split; [|done]. apply head_of_valid; [done|lia|done].
  - intros [Hh ?]. pose proof (head_of_lt _ _ _ Hh).
    apply head_of_valid in Hh; [|done|lia]. split_and!; first [done|lia].
Qed.

Lemma elem_of_dependents c v :
  c ∈ dependents H v ↔ head_of H c = Some v.
Proof using Hvalid.
  unfold dependents. rewrite list_elem_of_filter, elem_of_seq. split.
  - intros (Hh & ?). apply head_of_valid; [done|lia|done].
  - intros Hh. pose proof (head_of_lt _ _ _ Hh).
    apply head_of_valid in Hh; [|done|lia]. split_and!; first [done|lia].
Qed.

Lemma inorder_spec_step f v l :
  inorder_spec (S f) H v = Some l ↔
  ∃ ls rs,
    Forall2 (λ c k, inorder_spec f H c = Some k) (left_dependents H v) ls ∧
    Forall2 (λ c k, inorder_spec f H c = Some k) (right_dependents H v) rs ∧
    l = concat ls ++ [v] ++ concat rs.
Proof.
  simpl. split.
  - destruct (mapM _ (left_dependents H v)) as [ls|] eqn:Hls; [|done].
    destruct (mapM _ (right_dependents H v)) as [rs|] eqn:Hrs; [|done].
    simpl. intros [= <-]. exists ls, rs.
    by rewrite <-!mapM_Some.
  - intros (ls & rs & Hls & Hrs & ->).
    apply mapM_Some in Hls, Hrs. by rewrite Hls, Hrs.
Qed.

Lemma inorder_spec_self f v l : inorder_spec f H v = Some l → v ∈ l.
Proof.
  destruct f as [|f]; [done|]. intros (ls & rs & _ & _ & ->)%inorder_spec_step.
  rewrite !elem_of_app, list_elem_of_singleton. auto.
Qed.

Lemma elem_of_concat {A} (ls : list (list A)) u :
  u ∈ concat ls ↔ ∃ k, k ∈ ls ∧ u ∈ k.
Proof.
  induction ls as [|k ls IH]; simpl.
  - split; [by intros ?%elem_of_nil|]. by intros (k & ?%elem_of_nil & _).
  - rewrite elem_of_app, IH. split.
    + intros [?|(k' & ? & ?)]; [exists k; split; [left|done]|].
      exists k'. split; [by right|done].
    + intros (k' & [->|?]%elem_of_cons & ?); [by left|]. right. by exists k'.
Qed.

Lemma elem_of_concat_Forall2 {A B} (P : A → list B → Prop) cs ls u :
  Forall2 P cs ls → u ∈ concat ls → ∃ c k, c ∈ cs ∧ P c k ∧ u ∈ k.
Proof.
  intros HF (k & Hk & Hu)%elem_of_concat.
  apply list_elem_of_lookup in Hk as [i Hi].
  destruct (Forall2_lookup_r _ _ _ _ _ HF Hi) as (c & Hc & HP).
  exists c, k. split_and!; [|done..]. by eapply list_elem_of_lookup_2.
Qed.

Lemma concat_split_Forall2 {A B} (P : A → list B → Prop) cs ls c :
  Forall2 P cs ls → c ∈ cs →
  ∃ k a b, P c k ∧ concat ls = a ++ k ++ b.
Proof.
  intros HF [i Hi]%list_elem_of_lookup.
  destruct (Forall2_lookup_l _ _ _ _ _ HF Hi) as (k & Hk & HP).
  apply list_elem_of_split_length in Hk as (l1 & l2 & -> & _).
  exists k, (concat l1), (concat l2). split; [done|].
  by rewrite concat_app.
Qed.

(** The traversal lists only nodes below its start ... *)
Lemma inorder_spec_sound f :
  ∀ v l u, inorder_spec f H v = Some l → u ∈ l → desc H v u.
Proof using Hvalid.
  induction f as [|f IH]; intros v l u; [done|].
  intros (ls & rs & Hls & Hrs & ->)%inorder_spec_step.
  rewrite !elem_of_app, list_elem_of_singleton.
  intros [Hu|[->|Hu]].
  - destruct (elem_of_concat_Forall2 _ _ _ _ Hls Hu) as (c & k & Hc & Hk & Huk).
    apply elem_of_left_dependents in Hc as [Hc _].
    eapply desc_child; [done|]. by eapply IH.
  - apply desc_refl.
  - destruct (elem_of_concat_Forall2 _ _ _ _ Hrs Hu) as (c & k & Hc & Hk & Huk).
    apply elem_of_right_dependents in Hc as [Hc _].
    eapply desc_child; [done|]. by eapply IH.
Qed.

(** ... and the traversal of every node below its start is a block of it. *)
Lemma inorder_spec_block k :
  ∀ c v f l, ancestor H k c = Some v → inorder_spec f H v = Some l →
    ∃ f' lc l1 l2, inorder_spec f' H c = Some lc ∧ l = l1 ++ lc ++ l2.
Proof using Hvalid.
  induction k as [|k IH]; intros c v f l Hk Hl; simpl in Hk.
  - simplify_eq. exists f, l, [], []. by rewrite app_nil_r.
  - destruct (head_of H c) as [p|] eqn:Hp; [|done]. simpl in Hk.
    destruct (IH p v f l Hk Hl) as (f' & lp & l1 & l2 & Hlp & ->).
    destruct f' as [|f']; [done|].
    apply inorder_spec_step in Hlp as (ls & rs & Hls & Hrs & ->).
    destruct (decide (c < p)) as [Hcp|Hcp].
    + assert (c ∈ left_dependents H p) as Hc by by apply elem_of_left_dependents.
      destruct (concat_split_Forall2 _ _ _ _ Hls Hc) as (lc & a & b & Hlc & ->).
      exists f', lc, (l1 ++ a), (b ++ [p] ++ concat rs ++ l2).
      split; [done|]. by rewrite <-!app_assoc.
    + assert (c ∈ right_dependents H p) as Hc by by apply elem_of_right_dependents.
      destruct (concat_split_Forall2 _ _ _ _ Hrs Hc) as (lc & a & b & Hlc & ->).
      exists f', lc, (l1 ++ concat ls ++ [p] ++ a), (b ++ l2).
      split; [done|]. by rewrite <-!app_assoc.
Qed.

Lemma inorder_spec_complete f v l u :
  inorder_spec f H v = Some l → desc H v u → u ∈ l.
Proof using Hvalid.
  intros Hl [k Hk].
  destruct (inorder_spec_block k u v f l Hk Hl) as (f' & lu & l1 & l2 & Hlu & ->).
  apply inorder_spec_self in Hlu. rewrite !elem_of_app. auto.
Qed.

Lemma seq_block a n (l1 lc l2 : list nat) :
  seq a n = l1 ++ lc ++ l2 → lc = seq (a + length l1) (length lc).
Proof.
  intros Heq. apply list_eq. intros i.
  destruct (decide (i < length lc)) as [Hi|Hi].
  - rewrite lookup_seq_lt by done.
    assert (length (seq a n) = length l1 + length lc + length l2) as Hlen.
    { rewrite Heq, !length_app. lia. }
    rewrite length_seq in Hlen.
    assert (seq a n !! (length l1 + i) = Some (a + (length l1 + i))) as Hs.
    { apply lookup_seq_lt. lia. }
    rewrite Heq, lookup_app_r, lookup_app_l in Hs by lia.
    replace (length l1 + i - length l1) with i in Hs by lia.
    rewrite Hs. f_equal. lia.
  - rewrite lookup_ge_None_2 by lia. symmetry. apply lookup_seq_ge. lia.
Qed.

End traversal_spec.

(** ** Projective trees *)

Section projective_trees.
Import Validator ValidatorAux ValidatorProps.

Lemma desc_trans s v p m : desc s v p → desc s p m → desc s v m.
Proof.
  intros [a Ha] [b Hb]. exists (b + a). by rewrite ancestor_add, Hb.
Qed.

Lemma filter_seq_strict (P : nat → Prop) `{∀ x, Decision (P x)} a k :
  StronglySorted lt (filter P (seq a k)).
Proof.
  revert a. induction k as [|k IH]; intros a; simpl; [constructor|].
  rewrite filter_cons. case_decide; [|apply IH].
  constructor; [apply IH|].
  apply Forall_forall. intros y [_ Hy%elem_of_seq]%list_elem_of_filter. lia.
Qed.

Lemma seq_strict a k : StronglySorted lt (seq a k).
Proof.
  revert a. induction k as [|k IH]; intros a; simpl; constructor; [apply IH|].
  apply Forall_forall. intros y Hy%elem_of_seq. lia.
Qed.

Lemma strict_NoDup (l : list nat) : StronglySorted lt l → NoDup l.
Proof.
  induction 1 as [|a l Hl IH Ha]; constructor; [|done].
  intros Hin. apply (proj1 (Forall_forall _ _) Ha) in Hin. lia.
Qed.

(** An ascending list of the numbers below [n] is [0 .. n-1]. *)
Lemma strict_seq (l : list nat) n :
  StronglySorted lt l → (∀ u, u ∈ l ↔ u < n) → l = seq 0 n.
Proof.
  intros Hs Hel. apply (StronglySorted_unique_strong lt); [|done|apply seq_strict|].
  - intros; lia.
  - apply NoDup_Permutation; [by apply strict_NoDup|apply NoDup_seq|].
    intros u. rewrite Hel, elem_of_seq. lia.
Qed.

Context (H : list Z).
Hypothesis Hvalid : valid_heads H.

(** When the traversal from the root is [0 .. n-1], no arc is crossed. *)
Lemma traversal_projective f :
  inorder_spec f H 0 = Some (seq 0 (length H)) → projective H.
Proof using Hvalid.
  intros Hl c p m Hcp Hm.
  pose proof (head_of_lt _ _ _ Hcp) as [Hc Hp].
  assert (desc H 0 p) as [k Hk].
  { eapply inorder_spec_sound; [done..|]. apply elem_of_seq. lia. }
  destruct (inorder_spec_block H Hvalid k p 0 f _ Hk Hl)
    as (f' & lp & l1 & l2 & Hlp & Heq).
  pose proof (seq_block _ _ _ _ _ Heq) as Hblock. simpl in Hblock.
  assert (p ∈ lp) as Hpin by by eapply inorder_spec_self.
  assert (c ∈ lp) as Hcin.
  { eapply inorder_spec_complete; [done..|].
    eapply desc_child; [done|apply desc_refl]. }
  eapply inorder_spec_sound; [done..|].
  rewrite Hblock in Hpin, Hcin |- *. rewrite elem_of_seq in *. lia.
Qed.

Hypothesis Hproj : projective H.

(** Every position between a node and a node below it is below it too. *)
Lemma desc_convex k :
  ∀ u c m, ancestor H k u = Some c → u `min` c ≤ m ≤ u `max` c → desc H c m.
Proof using Hproj.
  induction k as [|k IH]; intros u c m Hk Hm.
  - simpl in Hk. simplify_eq. replace m with c by lia. apply desc_refl.
  - pose proof Hk as Hk'. simpl in Hk.
    destruct (head_of H u) as [p|] eqn:Hp; [|done]. simpl in Hk.
    destruct (decide (m = u)) as [->|Hne]; [by exists (S k)|].
    destruct (decide (u `min` p < m < u `max` p)) as [Hin|Hout].
    + apply (desc_trans _ _ p); [by exists k|]. by apply (Hproj u p m).
    + apply (IH p c m Hk). lia.
Qed.

(** The nodes below a sibling to the left come before the nodes below a
    sibling to the right. *)
Lemma siblings_ordered v c c' x y :
  desc H 0 v → head_of H c = Some v → head_of H c' = Some v → c < c' →
  desc H c x → desc H c' y → x < y.
Proof using Hproj.
  intros Hv Hc Hc' Hlt [a Ha] [b Hb].
  destruct (decide (x < y)) as [|Hge]; [done|exfalso].
  destruct (decide (y ≤ c)).
  - apply (siblings_disjoint H c c' v c); [done..|lia|apply desc_refl|].
    apply (desc_convex b y c' c Hb). lia.
  - apply (siblings_disjoint H c c' v y); [done..|lia| |by exists b].
    apply (desc_convex a x c y Ha). lia.
Qed.

Lemma below_left_child v c x :
  desc H 0 v → head_of H c = Some v → c < v → desc H c x → x < v.
Proof using Hproj.
  intros Hv Hc Hlt [a Ha].
  destruct (decide (x < v)) as [|Hge]; [done|exfalso].
  apply (child_not_above H c v Hv Hc).
  apply (desc_convex a x c v Ha). lia.
Qed.

Lemma below_right_child v c x :
  desc H 0 v → head_of H c = Some v → ¬ c < v → desc H c x → v < x.
Proof using Hproj.
  intros Hv Hc Hlt [a Ha].
  destruct (decide (v < x)) as [|Hge]; [done|exfalso].
  apply (child_not_above H c v Hv Hc).
  apply (desc_convex a x c v Ha). lia.
Qed.

Lemma children_sorted f v cs ls :
  (∀ c l, desc H 0 c → inorder_spec f H c = Some l → StronglySorted lt l) →
  desc H 0 v → StronglySorted lt cs → (∀ c, c ∈ cs → head_of H c = Some v) →
  Forall2 (λ c k, inorder_spec f H c = Some k) cs ls →
  StronglySorted lt (concat ls).
Proof using Hproj Hvalid.
  intros IH Hv Hcs Hhead HF. induction HF as [|c k cs ls Hk HF IHF]; simpl.
  - constructor.
  - apply StronglySorted_cons in Hcs as [Hc Hcs].
    assert (head_of H c = Some v) as Hhc by (apply Hhead; left).
    apply StronglySorted_app_2.
    + intros x y Hx Hy.
      destruct (elem_of_concat_Forall2 _ _ _ _ HF Hy) as (c' & k' & Hc' & Hk' & Hyk).
      apply (siblings_ordered v c c'); [done|done| | | |].
      * apply Hhead. by right.
      * by apply (proj1 (Forall_forall _ _) Hc).
      * by eapply inorder_spec_sound.
      * by eapply inorder_spec_sound.
    + apply (IH c); [|done]. by eapply reach_child.
    + apply IHF; [done|]. intros c' Hc'. apply Hhead. by right.
Qed.

(** The traversal of a node that the root reaches is ascending. *)
Lemma inorder_spec_sorted f :
  ∀ v l, desc H 0 v → inorder_spec f H v = Some l → StronglySorted lt l.
Proof using Hproj Hvalid.
  induction f as [|f IH]; intros v l Hv; [done|].
  intros (ls & rs & Hls & Hrs & ->)%inorder_spec_step.
  assert (∀ c, c ∈ left_dependents H v → head_of H c = Some v) as Hl.
  { by intros c [? _]%elem_of_left_dependents. }
  assert (∀ c, c ∈ right_dependents H v → head_of H c = Some v) as Hr.
  { by intros c [? _]%elem_of_right_dependents. }
  assert (∀ x, x ∈ concat ls → x < v) as Hlv.
  { intros x Hx.
    destruct (elem_of_concat_Forall2 _ _ _ _ Hls Hx) as (c & k & Hc & Hk & Hxk).
    apply elem_of_left_dependents in Hc as [Hc ?]; [|done].
    apply (below_left_child v c); [done..|]. by eapply inorder_spec_sound. }
  assert (∀ x, x ∈ concat rs → v < x) as Hrv.
  { intros x Hx.
    destruct (elem_of_concat_Forall2 _ _ _ _ Hrs Hx) as (c & k & Hc & Hk & Hxk).
    apply elem_of_right_dependents in Hc as [Hc ?]; [|done].
    apply (below_right_child v c); [done..|]. by eapply inorder_spec_sound. }
  apply StronglySorted_app_2; [| |apply StronglySorted_app_2].
  - intros x y Hx [->%list_elem_of_singleton|Hy]%elem_of_app; [by apply Hlv|].
    apply Hlv in Hx. apply Hrv in Hy. lia.
  - apply (children_sorted f v (left_dependents H v)); [done|done| |done|done].
    unfold left_dependents, dependents. rewrite list_filter_filter.
    apply filter_seq_strict.
  - intros x y ->%list_elem_of_singleton Hy. by apply Hrv.
  - repeat constructor.
  - apply (children_sorted f v (right_dependents H v)); [done|done| |done|done].
    unfold right_dependents, dependents. rewrite list_filter_filter.
    apply filter_seq_strict.
Qed.

End projective_trees.

(** ** The validator: what it accepts, raises and builds *)

Section validator_more_results.
Import Validator ValidatorAux ValidatorProps.

Lemma single_root_ext s s' :
  (∀ c, head_of s c = head_of s' c) → single_root s → single_root s'.
Proof. intros Hext [r Hr]. exists r. intros c. by rewrite <-Hext. Qed.

Lemma connected_ext s s' :
  (∀ c, head_of s c = head_of s' c) → length s' = length s →
  connected s → connected s'.
Proof.
  intros Hext Hlen Hc u Hu. apply (desc_ext s s' Hext), Hc. lia.
Qed.

Lemma projective_ext s s' :
  (∀ c, head_of s c = head_of s' c) → projective s → projective s'.
Proof.
  intros Hext Hp c p m Hc Hm. apply (desc_ext s s' Hext), (Hp c); [|done].
  by rewrite Hext.
Qed.

Lemma single_root_dependents heads :
  valid_heads heads → single_root heads ↔ length (dependents heads 0) = 1.
Proof.
  intros Hv. split.
  - intros [r Hr]. assert (dependents heads 0 ≡ₚ [r]) as ->; [|done].
    apply NoDup_Permutation.
    + apply NoDup_filter, NoDup_seq.
    + apply NoDup_singleton.
    + intros c. by rewrite elem_of_dependents, list_elem_of_singleton.
  - intros Hlen. destruct (dependents heads 0) as [|r [|? ?]] eqn:Hd; simplify_eq/=.
    exists r. intros c. rewrite <-elem_of_dependents, Hd by done.
    apply list_elem_of_singleton.
Qed.

Lemma istree_valid_iff heads :
  0 < length heads → valid_heads heads →
  istree heads = Ok true ↔
  single_root heads ∧ connected heads ∧ projective heads.
Proof.
  intros Hlen Hv.
  destruct (istree_valid heads Hlen Hv) as (l & Hspec & Hdesc & ->).
  rewrite single_root_dependents by done. split.
  - intros [= [Hroot <-]%bool_decide_eq_true]. split_and!; [done| |].
    + intros u Hu. apply Hdesc, elem_of_seq. lia.
    + by eapply traversal_projective.
  - intros (Hroot & Hconn & Hproj). f_equal. apply bool_decide_eq_true.
    split; [done|]. symmetry. apply strict_seq.
    + eapply inorder_spec_sorted; [done..|apply desc_refl|done].
    + intros u. split.
      * intros Hu. eapply desc_lt; [by apply Hdesc|done].
      * intros Hu. eapply inorder_spec_complete; [done..|]. by apply Hconn.
Qed.

(** X1: [istree] comes back on every input, either with an answer or with
    [IndexError]; it raises exactly when the array is empty or an entry at a
    position [≥ 1] is no index of the array, from the front or from the
    end. *)
Theorem istree_total heads :
  ((∃ b, istree heads = Ok b) ∨ istree heads = Raise IndexError) ∧
  (istree heads = Raise IndexError ↔
   heads = [] ∨
   ∃ i h, 1 ≤ i ∧ heads !! i = Some h ∧
          (h < - Z.of_nat (length heads) ∨ Z.of_nat (length heads) ≤ h)%Z).
Proof.
  destruct (decide (heads = [])) as [->|Hne].
  { split; [by right|]. split; [by left|done]. }
  destruct (decide (index_ok heads)) as [Hok|Hnot].
  - destruct (istree_index_ok heads Hne Hok) as [b Hb].
    split; [left; by exists b|]. rewrite Hb. split; [done|].
    intros [?|(i & h & Hi & Hh & Hrange)]; [done|exfalso].
    pose proof (index_ok_lookup heads i h Hok Hi Hh). lia.
  - destruct (not_index_ok heads Hnot) as (i & h & Hi & Hh & Hrange).
    rewrite (istree_raise_lookup heads i h) by done.
    split; [by right|]. split; [|done]. intros _. right. by exists i, h.
Qed.

(** X2: an entry between [-len] and [-1] is read as a position counted
    from the end: writing every such entry as the position it denotes
    changes nothing in what [istree] answers. *)
Theorem istree_negative_from_end heads :
  index_ok heads → istree (normalize heads) = istree heads.
Proof. apply istree_normalize. Qed.

Lemma istree_negative_from_end_witness :
  istree (normalize [5; -3; 1; -1]%Z) = istree [5; -3; 1; -1]%Z.
Proof.
  apply (istree_negative_from_end [5; -3; 1; -1]%Z).
  unfold index_ok. simpl. repeat constructor; lia.
Defined.

(** X3: [istree] answers true exactly on the projective trees with one
    token attached to the root: the array is not empty, its entries from
    position 1 on are indices of it, exactly one token has the root as its
    head, following the heads from any position leads to the root, and every
    position strictly between a token and its head lies below that head. *)
Theorem istree_iff_projective_tree heads :
  istree heads = Ok true ↔
  heads ≠ [] ∧ index_ok heads ∧
  single_root heads ∧ connected heads ∧ projective heads.
Proof.
  destruct (decide (heads = [])) as [->|Hne].
  { split; [done|]. by intros [? _]. }
  destruct (decide (index_ok heads)) as [Hok|Hnot].
  2:{ destruct (not_index_ok heads Hnot) as (i & h & Hi & Hh & Hrange).
      rewrite (istree_raise_lookup heads i h) by done.
      split; [done|]. by intros (_ & ? & _). }
  assert (0 < length (normalize heads)) as Hlen.
  { rewrite length_normalize. destruct heads; [done|simpl; lia]. }
  pose proof (valid_normalize heads Hok) as Hv.
  assert (Hext : ∀ c, head_of (normalize heads) c = head_of heads c).
  { intros c. by apply head_of_normalize. }
  rewrite <-istree_normalize, istree_valid_iff by done. split.
  - intros (Hr & Hc & Hp). split_and!; [done..| | |].
    + by eapply single_root_ext.
    + eapply connected_ext; [done| |done]. by rewrite length_normalize.
    + by eapply projective_ext.
  - intros (_ & _ & Hr & Hc & Hp). split_and!.
    + eapply single_root_ext; [|done]. done.
    + eapply connected_ext; [|apply length_normalize|done]. done.
    + eapply projective_ext; [|done]. done.
Qed.

(** X4: when [build_tree] returns, node [p] of the tree carries its own
    position and its entry, its left list holds in ascending order the
    tokens attached to it that do not come after it, and its right list
    those that come after it. *)
Theorem build_tree_children s nodes :
  build_tree s = Ok nodes →
  length nodes = length s ∧
  ∀ p node, nodes !! p = Some node →
    id node = p ∧ s !! p = Some (parent node) ∧
    lefts node = filter (λ c, head_of s c = Some p ∧ ¬ p < c) (seq 1 (length s - 1)) ∧
    rights node = filter (λ c, head_of s c = Some p ∧ p < c) (seq 1 (length s - 1)).
Proof.
  intros Hb.
  assert (nodes = built s (length s)) as ->.
  { destruct (decide (0 < length s)) as [Hlen|Hlen].
    - destruct (decide (Forall (λ c, is_Some (head_of s c)) (seq 1 (length s - 1))))
        as [Hall|Hnot].
      + rewrite build_tree_ok in Hb; [by simplify_eq|done|].
        intros c Hc. apply (proj1 (Forall_forall _ _) Hall), elem_of_seq. lia.
      + apply not_Forall_Exists in Hnot; [|intros c; apply _].
        apply Exists_exists in Hnot as (c & Hc%elem_of_seq & Hnone).
        rewrite (build_tree_raise s c) in Hb; [done|lia|].
        simpl in Hnone. destruct (head_of s c) as [p|]; [|done].
        exfalso. apply Hnone. by eexists.
    - destruct s; [|simpl in Hlen; lia]. vm_compute in Hb. by simplify_eq. }
  split; [apply built_length|]. intros p node Hp.
  rewrite built_lookup in Hp. destruct (s !! p) as [z|]; simplify_eq/=. done.
Qed.

Lemma build_tree_children_witness :
  let s := [-1; 2; 0; 2]%Z in
  let nodes := [mkNODE [] [2] 0 (-1); mkNODE [] [] 1 2;
                mkNODE [1] [3] 2 0; mkNODE [] [] 3 2] in
  length nodes = length s ∧
  ∀ p node, nodes !! p = Some node →
    id node = p ∧ s !! p = Some (parent node) ∧
    lefts node = filter (λ c, head_of s c = Some p ∧ ¬ p < c) (seq 1 (length s - 1)) ∧
    rights node = filter (λ c, head_of s c = Some p ∧ p < c) (seq 1 (length s - 1)).
Proof.
  intros s nodes. apply (build_tree_children s nodes). reflexivity.
Defined.

End validator_more_results.

(** ** The bucketer: further properties *)

Section nearest.
Import Bucketer BucketerAux BucketerProps.

Lemma Qlt_bool_true a b : Qlt_bool a b = true ↔ (a < b)%Q.
Proof.
  unfold Qlt_bool. rewrite negb_true_iff, <-not_true_iff_false, Qle_bool_iff.
  split; [apply Qnot_le_lt|apply Qlt_not_le].
Qed.

Lemma Qlt_bool_false a b : Qlt_bool a b = false ↔ (b <= a)%Q.
Proof.
  unfold Qlt_bool. rewrite negb_false_iff, Qle_bool_iff. done.
Qed.

(** [argmin] answers the first position that holds the least value. *)
Lemma argmin_from_spec l :
  ∀ pre best bi,
    (pre ++ l) !! bi = Some best → bi < length pre →
    Forall (λ q, best <= q)%Q pre →
    (∀ j q, j < bi → pre !! j = Some q → (best < q)%Q) →
    let r := argmin_from best bi (length pre) l in
    (pre ++ l) !! r.1 = Some r.2 ∧
    Forall (λ q, r.2 <= q)%Q (pre ++ l) ∧
    (∀ j q, j < r.1 → (pre ++ l) !! j = Some q → (r.2 < q)%Q).
Proof.
  induction l as [|x l IH]; intros pre best bi Hbest Hbi Hpre Hfirst; simpl.
  - rewrite app_nil_r in *. split_and!; [done..|].
    intros j q Hj Hq. by eapply Hfirst.
  - replace (pre ++ x :: l) with ((pre ++ [x]) ++ l) in * by by rewrite <-app_assoc.
    replace (S (length pre)) with (length (pre ++ [x]))
      by (rewrite length_app; simpl; lia).
    destruct (Qlt_bool x best) eqn:Hlt.
    + apply Qlt_bool_true in Hlt. apply IH.
      * rewrite lookup_app_l by (rewrite length_app; simpl; lia).
        by rewrite lookup_app_r, Nat.sub_diag.
      * rewrite length_app. simpl. lia.
      * apply Forall_app. split; [|repeat constructor; apply Qle_refl].
        eapply Forall_impl; [done|]. simpl. intros q Hq. lra.
      * intros j q Hj Hq. rewrite lookup_app_l in Hq by done.
        pose proof (proj1 (Forall_lookup _ _) Hpre j q Hq) as Hle. simpl in Hle. lra.
    + apply Qlt_bool_false in Hlt. apply IH; [done|rewrite length_app; simpl; lia| |].
      * apply Forall_app. split; [done|]. by repeat constructor.
      * intros j q Hj Hq. rewrite lookup_app_l in Hq by lia. by eapply Hfirst.
Qed.

Lemma argmin_spec l i m :
  argmin l = Ok (i, m) →
  l !! i = Some m ∧ Forall (λ q, m <= q)%Q l ∧
  (∀ j q, j < i → l !! j = Some q → (m < q)%Q).
Proof.
  destruct l as [|x l]; [done|]. simpl. intros [= Hr].
  pose proof (argmin_from_spec l [x] x 0) as Hspec. simpl in Hspec.
  rewrite Hr in Hspec. simpl in Hspec. apply Hspec; [done|lia| |].
  - repeat constructor. apply Qle_refl.
  - intros; lia.
Qed.

(** What [assign] gives a datapoint: a centroid that is as near as any
    other, and nearer than every centroid before it. *)
Lemma assign_spec d cs dists y t v i :
  assign d cs = Ok (dists, y) → d !! t = Some v → y !! t = Some i →
  ∃ ci, cs !! i = Some ci ∧
    (∀ cq, cq ∈ cs → Qabs (inject_Z v - ci) <= Qabs (inject_Z v - cq))%Q ∧
    (∀ j cj, j < i → cs !! j = Some cj →
       (Qabs (inject_Z v - ci) < Qabs (inject_Z v - cj))%Q).
Proof.
  unfold assign. intros Ha Hv Hi.
  apply bind_Ok in Ha as (r & Hr & Ha). simplify_eq.
  destruct (forM_Ok _ _ _ Hr) as [_ Hall].
  destruct (Hall t v Hv) as ([i' m] & Hrt & Hmin).
  rewrite list_lookup_fmap, Hrt in Hi. simplify_eq/=.
  apply argmin_spec in Hmin as (Hm & Hle & Hfirst).
  rewrite list_lookup_fmap in Hm.
  destruct (cs !! i) as [ci|] eqn:Hci; simplify_eq/=.
  exists ci. split_and!; [done| |].
  - intros cq Hcq. apply (proj1 (Forall_forall _ _) Hle).
    apply list_elem_of_fmap. by exists cq.
  - intros j cj Hj Hcj. apply (Hfirst j); [done|].
    by rewrite list_lookup_fmap, Hcj.
Qed.

Lemma body_assigned d total f k st st' :
  body d total f k st = Ok st' → state_assigned d st'.
Proof.
  unfold body. intros Hb.
  apply bind_Ok in Hb as (y1 & _ & Hb).
  apply bind_Ok in Hb as ([dists2 y2] & Ha & Hb). by simplify_eq.
Qed.

Lemma loop_assigned fuel d total f k :
  ∀ st st', state_assigned d st → loop fuel d total f k st = Ok st' →
            state_assigned d st'.
Proof.
  induction fuel as [|fuel IH]; intros st st' Hst Hl; simpl in Hl.
  - destruct (match old st with Some o => all_equal (c st) o | None => false end);
      by simplify_eq.
  - destruct (match old st with Some o => all_equal (c st) o | None => false end);
      [by simplify_eq|].
    apply bind_Ok in Hl as (st1 & Hb & Hl).
    eapply IH; [|done]. by eapply body_assigned.
Qed.

(** What a run of [kmeans] that returns has returned, with the loop state
    it comes from. *)
Lemma kmeans_Ok_state fuel perm x k centroids clusters :
  kmeans fuel perm x k = Ok (centroids, clusters) →
  ∃ st y_all,
    state_assigned (unique x) st ∧
    forM (getitem (y st)) (index_of (unique x) <$> x) = Ok y_all ∧
    forM (getitem (c st)) (unique_labels (y st)) = Ok centroids ∧
    clusters = (λ i, members y_all i) <$> unique_labels (y st).
Proof.
  unfold kmeans. intros H0.
  apply bind_Ok in H0 as (cz & _ & H0).
  apply bind_Ok in H0 as ([dists0 y0] & Ha & H0).
  apply bind_Ok in H0 as (st & Hst & H0).
  apply bind_Ok in H0 as (y_all & Hy_all & H0).
  apply bind_Ok in H0 as (cents & Hcents & H0).
  simplify_eq. exists st, y_all. split_and!; [|done..].
  eapply loop_assigned; [|done]. done.
Qed.

(** The label that sentence [a] carries in the end is the label of its
    length. *)
Lemma y_all_lookup x (yl y_all : list nat) a v :
  forM (getitem yl) (index_of (unique x) <$> x) = Ok y_all →
  x !! a = Some v →
  ∃ t, unique x !! t = Some v ∧ y_all !! a = yl !! t ∧ is_Some (yl !! t).
Proof.
  intros Hy Hv. destruct (forM_Ok _ _ _ Hy) as [_ Hall].
  destruct (Hall a (index_of (unique x) v)) as (i & Hi & Hget).
  { by rewrite list_lookup_fmap, Hv. }
  apply getitem_Ok in Hget. exists (index_of (unique x) v).
  split_and!; [|congruence|by eexists].
  apply index_of_lookup, elem_of_unique. by eapply list_elem_of_lookup_2.
Qed.

Lemma cluster_lookup (y_all yl : list nat) clusters centroids (cs : list Q) j cl cj :
  forM (getitem cs) (unique_labels yl) = Ok centroids →
  clusters = (λ i, members y_all i) <$> unique_labels yl →
  clusters !! j = Some cl → centroids !! j = Some cj →
  ∃ i, unique_labels yl !! j = Some i ∧ cl = members y_all i ∧ cs !! i = Some cj.
Proof.
  intros Hc -> Hcl Hcj. rewrite list_lookup_fmap in Hcl.
  destruct (unique_labels yl !! j) as [i|] eqn:Hi; simplify_eq/=.
  exists i. split_and!; [done..|].
  destruct (forM_Ok _ _ _ Hc) as [_ Hall].
  destruct (Hall j i Hi) as (q & Hq & Hget). apply getitem_Ok in Hget. congruence.
Qed.

End nearest.

Section bucketer_more_results.
Import Bucketer BucketerAux BucketerProps.

Lemma unique_nonempty x : x ≠ [] → unique x ≠ [].
Proof.
  destruct x as [|z x]; [done|]. intros _ Hnil.
  assert (z ∈ unique (z :: x)) as Hz by (apply elem_of_unique; left).
  rewrite Hnil in Hz. by apply elem_of_nil in Hz.
Qed.

Lemma assign_length d cs dists y :
  assign d cs = Ok (dists, y) → length y = length d ∧ length dists = length d.
Proof.
  unfold assign. intros Ha. apply bind_Ok in Ha as (r & Hr & Ha). simplify_eq.
  destruct (forM_Ok _ _ _ Hr) as [Hlen _]. by rewrite !length_fmap.
Qed.

Lemma forM_getitem_elem {A} (cs : list A) (ls : list nat) ys q :
  forM (getitem cs) ls = Ok ys → q ∈ ys → q ∈ cs.
Proof.
  intros Hf [j Hj]%list_elem_of_lookup. destruct (forM_Ok _ _ _ Hf) as [Hlen Hall].
  destruct (lookup_lt_is_Some_2 ls j) as [i Hi].
  { rewrite <-Hlen. by eapply lookup_lt_Some. }
  destruct (Hall j i Hi) as (q' & Hq' & Hget). simplify_eq.
  apply getitem_Ok in Hget. by eapply list_elem_of_lookup_2.
Qed.

Lemma forM_getitem_lookup {A} (cs : list A) (ls : list nat) ys j q :
  forM (getitem cs) ls = Ok ys → ys !! j = Some q →
  ∃ i, ls !! j = Some i ∧ cs !! i = Some q.
Proof.
  intros Hf Hj. destruct (forM_Ok _ _ _ Hf) as [Hlen Hall].
  destruct (lookup_lt_is_Some_2 ls j) as [i Hi].
  { rewrite <-Hlen. by eapply lookup_lt_Some. }
  destruct (Hall j i Hi) as (q' & Hq' & Hget). simplify_eq.
  apply getitem_Ok in Hget. by exists i.
Qed.

Lemma Qabs_cases (t : Q) :
  (0 <= t ∧ Qabs t == t)%Q ∨ (t <= 0 ∧ Qabs t == - t)%Q.
Proof.
  destruct (Qlt_le_dec t 0) as [Hlt|Hge].
  - right. split; [by apply Qlt_le_weak|]. apply Qabs_neg. by apply Qlt_le_weak.
  - left. split; [done|]. by apply Qabs_pos.
Qed.

(** On a line, the points that are nearer to [p] than to [q] lie on one
    side. *)
Lemma nearer_between (u w z p q : Q) :
  (u <= w)%Q → (w <= z)%Q →
  (Qabs (u - p) <= Qabs (u - q))%Q → (Qabs (z - p) <= Qabs (z - q))%Q →
  (Qabs (w - p) <= Qabs (w - q))%Q.
Proof.
  intros Huw Hwz Hu Hz.
  destruct (Qabs_cases (u - p)) as [[? Ha1]|[? Ha1]];
  destruct (Qabs_cases (u - q)) as [[? Ha2]|[? Ha2]];
  destruct (Qabs_cases (z - p)) as [[? Ha3]|[? Ha3]];
  destruct (Qabs_cases (z - q)) as [[? Ha4]|[? Ha4]];
  destruct (Qabs_cases (w - p)) as [[? Ha5]|[? Ha5]];
  destruct (Qabs_cases (w - q)) as [[? Ha6]|[? Ha6]];
  rewrite Ha1, Ha2 in Hu; rewrite Ha3, Ha4 in Hz; rewrite Ha5, Ha6; lra.
Qed.

Lemma strictly_nearer_between (u w z p q : Q) :
  (u <= w)%Q → (w <= z)%Q →
  (Qabs (u - p) < Qabs (u - q))%Q → (Qabs (z - p) < Qabs (z - q))%Q →
  (Qabs (w - p) < Qabs (w - q))%Q.
Proof.
  intros Huw Hwz Hu Hz.
  destruct (Qabs_cases (u - p)) as [[? Ha1]|[? Ha1]];
  destruct (Qabs_cases (u - q)) as [[? Ha2]|[? Ha2]];
  destruct (Qabs_cases (z - p)) as [[? Ha3]|[? Ha3]];
  destruct (Qabs_cases (z - q)) as [[? Ha4]|[? Ha4]];
  destruct (Qabs_cases (w - p)) as [[? Ha5]|[? Ha5]];
  destruct (Qabs_cases (w - q)) as [[? Ha6]|[? Ha6]];
  rewrite Ha1, Ha2 in Hu; rewrite Ha3, Ha4 in Hz; rewrite Ha5, Ha6; lra.
Qed.

(** X5: with no bucket asked for, [kmeans] raises [ValueError] on every
    non-empty input: the minimum over an empty row of distances does not
    exist. *)
Theorem kmeans_zero_buckets fuel perm x :
  x ≠ [] → kmeans fuel perm x 0 = Raise ValueError.
Proof.
  intros Hx%unique_nonempty. unfold kmeans. rewrite take_0. simpl.
  by destruct (unique x).
Qed.

Lemma kmeans_zero_buckets_witness :
  kmeans 10 [0; 1] [1; 1; 1; 1; 100]%Z 0 = Raise ValueError.
Proof. by apply (kmeans_zero_buckets 10 [0; 1] [1; 1; 1; 1; 100]%Z). Defined.









End bucketer_more_results.

(** ** The repair of empty clusters *)

Section repair.
Import Bucketer BucketerAux BucketerProps.

Lemma length_concat_sum {A} (ls : list (list A)) :
  length (concat ls) = foldr Nat.add 0 (length <$> ls).
Proof. induction ls as [|l ls IH]; simpl; [done|]. by rewrite length_app, IH. Qed.

Lemma members_total (y : list nat) k :
  Forall (λ j, j < k) y →
  foldr Nat.add 0 ((λ j, length (members y j)) <$> seq 0 k) = length y.
Proof.
  intros Hall.
  pose proof (members_partition y (seq 0 k) (NoDup_seq 0 k)) as Hp.
  apply Permutation_length in Hp.
  - rewrite length_concat_sum, length_seq, <-list_fmap_compose in Hp. done.
  - intros i Hi. apply elem_of_seq.
    pose proof (proj1 (Forall_forall _ _) Hall i Hi). simpl in *. lia.
Qed.

Lemma sum_small (ls : list nat) m :
  Forall (λ v, v ≤ 1) ls → ls !! m = Some 0 →
  foldr Nat.add 0 ls < length ls.
Proof.
  assert (∀ ls, Forall (λ v, v ≤ 1) ls → foldr Nat.add 0 ls ≤ length ls) as Hle.
  { induction 1 as [|v l Hv _ IH]; simpl; lia. }
  revert m. induction ls as [|v ls IH]; intros m Hall Hm; [done|].
  apply Forall_cons_1 in Hall as [Hv Hall].
  destruct m as [|m]; simplify_eq/=.
  - pose proof (Hle ls Hall). lia.
  - pose proof (IH m Hall Hm). lia.
Qed.

Lemma NoDup_other {A} `{EqDecision A} (l : list A) t :
  NoDup l → 2 ≤ length l → ∃ t', t' ∈ l ∧ t' ≠ t.
Proof.
  destruct l as [|a [|b l]]; simpl; [lia..|]. intros Hnd _.
  apply NoDup_cons in Hnd as [Hab _].
  destruct (decide (a = t)) as [->|].
  - exists b. split; [right; left|]. intros ->. apply Hab. left.
  - exists a. split; [left|done].
Qed.

(** A round of the repair gives label [i] a datapoint and takes no label
    away. *)
Lemma repair_step_keeps k dists y i y' :
  k ≤ length y → Forall (λ j, j < k) y → i < k →
  repair_step k dists y i = Ok y' →
  i ∈ y' ∧ ∀ j, j ∈ y → j ∈ y'.
Proof.
  intros Hk Hall Hi. unfold repair_step. case_decide as Hin.
  { intros [= <-]. done. }
  set (lens := (λ j, length (members y j)) <$> seq 0 k).
  intros Hr. apply bind_Ok in Hr as (big & Hbig & Hr).
  apply bind_Ok in Hr as (far & _ & Hr).
  apply bind_Ok in Hr as (farthest & _ & Hr).
  apply bind_Ok in Hr as (t & Ht & Hr).
  case_decide as Hlt; [|done]. simplify_eq.
  destruct (argmaxN_Ok lens) as (big' & vr & Hbig' & Hvr & Hmax).
  { unfold lens. destruct k; [lia|done]. }
  rewrite Hbig in Hbig'. simplify_eq.
  assert (lens !! big' = Some (length (members y big'))) as Hlb.
  { unfold lens in *. rewrite list_lookup_fmap in Hvr |- *.
    destruct (seq 0 k !! big') as [b|] eqn:Hb; simplify_eq/=.
    by apply lookup_seq in Hb as [-> _]. }
  rewrite Hvr in Hlb. simplify_eq.
  assert (2 ≤ length (members y big')) as Hbig2.
  { destruct (decide (2 ≤ length (members y big'))) as [|Hsmall]; [done|exfalso].
    assert (foldr Nat.add 0 lens < length lens) as Hsum.
    { apply (sum_small lens i).
      - eapply Forall_impl; [done|]. simpl. lia.
      - unfold lens. rewrite list_lookup_fmap, lookup_seq_lt by done. simpl.
        f_equal. apply length_zero_iff_nil, elem_of_nil_inv.
        intros t' Ht'%elem_of_members. apply Hin. by eapply list_elem_of_lookup_2. }
    unfold lens in Hsum.
    rewrite members_total, length_fmap, length_seq in Hsum by done. lia. }
  apply getitem_Ok, list_elem_of_lookup_2, elem_of_members in Ht.
  split.
  - apply list_elem_of_lookup. exists t. by apply list_lookup_insert_eq.
  - intros j [tj Hj]%list_elem_of_lookup.
    destruct (decide (tj = t)) as [->|Hne].
    + assert (j = big') as -> by congruence.
      destruct (NoDup_other (members y big') t) as (t' & Ht' & Hne); [|done|].
      { apply NoDup_filter, NoDup_seq. }
      apply elem_of_members in Ht'. apply list_elem_of_lookup. exists t'.
      by rewrite list_lookup_insert_ne.
    + apply list_elem_of_lookup. exists tj. by rewrite list_lookup_insert_ne.
Qed.

Lemma repair_fold_keeps k dists ls :
  ∀ y y', y ≠ [] → k ≤ length y → length dists = length y →
    Forall (λ j, j < k) y → Forall (λ i, i < k) ls →
    foldM (repair_step k dists) y ls = Ok y' →
    (∀ j, j ∈ y → j ∈ y') ∧ (∀ i, i ∈ ls → i ∈ y').
Proof.
  induction ls as [|i ls IH]; intros y y' Hy Hk Hd Hall Hls Hf; simpl in Hf.
  - simplify_eq. split; [done|]. by intros i ?%elem_of_nil.
  - apply Forall_cons_1 in Hls as [Hi Hls].
    apply bind_Ok in Hf as (y1 & Hstep & Hf).
    destruct (repair_step_Ok k dists y i Hy Hd Hall Hi) as (y1' & Hstep' & Hlen1 & Hall1).
    rewrite Hstep in Hstep'. simplify_eq.
    destruct (repair_step_keeps _ _ _ _ _ Hk Hall Hi Hstep) as [Hi1 Hkeep1].
    destruct (IH y1' y') as [Hkeep Hin]; [|lia|congruence|done..|].
    { intros ->. by destruct y. }
    split; [by auto|]. intros i' [->|?]%elem_of_cons; auto.
Qed.

Lemma repair_leaves_no_cluster_empty_aux k dists y :
  1 ≤ k → k ≤ length y → length dists = length y → Forall (λ j, j < k) y →
  ∃ y', foldM (repair_step k dists) y (seq 0 k) = Ok y' ∧
        length y' = length y ∧ ∀ i, i < k → i ∈ y'.
Proof.
  intros Hk1 Hk Hd Hall.
  assert (y ≠ []) as Hy by (intros ->; simpl in Hk; lia).
  destruct (repair_fold_Ok k dists y k Hy Hd Hall) as (y' & Hf & Hlen & _); [lia|].
  rewrite Nat.sub_diag in Hf. exists y'. split_and!; [done..|].
  intros i Hi.
  destruct (repair_fold_keeps k dists (seq 0 k) y y') as [_ Hin]; try done.
  - apply Forall_forall. intros i' [_ ?]%elem_of_seq. lia.
  - apply Hin, elem_of_seq. lia.
Qed.

(** X10: the repair loop of a round comes back and leaves none of the [k]
    clusters empty, as long as there are at least [k] datapoints: the
    centroid update that follows divides by no zero. *)
Theorem repair_leaves_no_cluster_empty k dists y :
  1 ≤ k → k ≤ length y → length dists = length y → Forall (λ j, j < k) y →
  ∃ y', foldM (repair_step k dists) y (seq 0 k) = Ok y' ∧
        length y' = length y ∧ ∀ i, i < k → i ∈ y'.
Proof. apply repair_leaves_no_cluster_empty_aux. Qed.

Lemma repair_leaves_no_cluster_empty_witness :
  ∃ y', foldM (repair_step 3 [0; 1; 5; 2]%Q) [0; 0; 0; 0] (seq 0 3) = Ok y' ∧
        length y' = 4 ∧ ∀ i, i < 3 → i ∈ y'.
Proof.
  apply (repair_leaves_no_cluster_empty 3 [0; 1; 5; 2]%Q [0; 0; 0; 0]).
  - lia.
  - simpl. lia.
  - reflexivity.
  - repeat constructor.
Defined.

End repair.

(** ** Centroids *)

Section centroids.
Import Bucketer BucketerAux BucketerProps.

Lemma count_of_cons v x z :
  count_of (v :: x) z = (if decide (v = z) then 1 else 0) + count_of x z.
Proof. unfold count_of. rewrite filter_cons. by case_decide. Qed.

Lemma count_of_pos x z : z ∈ x → 1 ≤ count_of x z.
Proof.
  intros Hz. unfold count_of.
  assert (z ∈ filter (λ v, v = z) x) as Hin by by apply list_elem_of_filter.
  destruct (filter (λ v, v = z) x); [by apply elem_of_nil in Hin|simpl; lia].
Qed.

Lemma total_lookup (d : list Z) (f : list nat) t v n :
  d !! t = Some v → f !! t = Some n →
  zip_with (λ v n, (v * Z.of_nat n)%Z) d f !! t = Some (v * Z.of_nat n)%Z.
Proof. intros Hv Hn. rewrite lookup_zip_with, Hv. simpl. by rewrite Hn. Qed.

(** The sums that [centroid] divides, for datapoints between [lo] and
    [hi], each counted at least once. *)
Lemma centroid_sums x (d : list Z) lo hi (ms : list nat) :
  (∀ v, v ∈ d → v ∈ x ∧ (lo ≤ v ≤ hi)%Z) →
  Forall (λ t, t < length d) ms →
  let f := count_of x <$> d in
  let total := zip_with (λ v n, (v * Z.of_nat n)%Z) d f in
  let sum_total := foldr Z.add 0%Z ((λ t, default 0%Z (total !! t)) <$> ms) in
  let sum_f := foldr Nat.add 0 ((λ t, default 0 (f !! t)) <$> ms) in
  (lo * Z.of_nat sum_f ≤ sum_total ≤ hi * Z.of_nat sum_f)%Z ∧
  (ms ≠ [] → 0 < sum_f).
Proof.
  intros Hd Hms. simpl.
  set (F := λ ms : list nat,
         foldr Nat.add 0 ((λ t, default 0 ((count_of x <$> d) !! t)) <$> ms)).
  set (T := λ ms : list nat,
         foldr Z.add 0%Z ((λ t, default 0%Z
           (zip_with (λ v n, (v * Z.of_nat n)%Z) d (count_of x <$> d) !! t)) <$> ms)).
  change ((lo * Z.of_nat (F ms) ≤ T ms ≤ hi * Z.of_nat (F ms))%Z ∧ (ms ≠ [] → 0 < F ms)).
  induction Hms as [|t ms Ht _ IH]; [split; [unfold F, T; simpl; lia|done]|].
  destruct (lookup_lt_is_Some_2 d t Ht) as [v Hv].
  destruct (Hd v (list_elem_of_lookup_2 _ _ _ Hv)) as [Hvx Hrange].
  assert ((count_of x <$> d) !! t = Some (count_of x v)) as Hf.
  { by rewrite list_lookup_fmap, Hv. }
  assert (F (t :: ms) = count_of x v + F ms) as ->.
  { unfold F. simpl. by rewrite Hf. }
  assert (T (t :: ms) = (v * Z.of_nat (count_of x v) + T ms)%Z) as ->.
  { unfold T. simpl. by rewrite (total_lookup d _ t v _ Hv Hf). }
  pose proof (count_of_pos x v Hvx). destruct IH as [IH _].
  split; [|intros _; lia]. nia.
Qed.

Lemma centroid_range x (d : list Z) lo hi (y : list nat) j :
  (∀ v, v ∈ d → v ∈ x ∧ (lo ≤ v ≤ hi)%Z) →
  length y = length d → j ∈ y →
  let f := count_of x <$> d in
  let total := zip_with (λ v n, (v * Z.of_nat n)%Z) d f in
  (inject_Z lo <= centroid total f y j ∧ centroid total f y j <= inject_Z hi)%Q.
Proof.
  intros Hd Hlen Hj. simpl. unfold centroid.
  destruct (centroid_sums x d lo hi (members y j) Hd) as [[Hlo Hhi] Hpos].
  { apply Forall_forall. intros t Ht%elem_of_members%lookup_lt_Some. lia. }
  simpl in *.
  set (sum_total := foldr Z.add 0%Z _) in *.
  set (sum_f := foldr Nat.add 0 _) in *.
  assert (0 < sum_f) as Hf.
  { apply Hpos. apply list_elem_of_lookup in Hj as [t Ht].
    apply elem_of_members in Ht. intros Hnil. rewrite Hnil in Ht.
    by apply elem_of_nil in Ht. }
  assert (0 < inject_Z (Z.of_nat sum_f))%Q as HfQ.
  { replace 0%Q with (inject_Z 0) by done. rewrite <-Zlt_Qlt. lia. }
  split.
  - apply Qle_shift_div_l; [done|]. rewrite <-inject_Z_mult, <-Zle_Qle. lia.
  - apply Qle_shift_div_r; [done|]. rewrite <-inject_Z_mult, <-Zle_Qle. lia.
Qed.

Lemma loop_invariant (P : state → Prop) fuel d total f k :
  d ≠ [] → 1 ≤ k →
  (∀ st st', state_ok d k st → P st → body d total f k st = Ok st' → P st') →
  ∀ st st', state_ok d k st → P st → loop fuel d total f k st = Ok st' →
            P st' ∧ state_ok d k st'.
Proof.
  intros Hd Hk Hbody. induction fuel as [|fuel IH]; intros st st' Hok HP Hl; simpl in Hl.
  - destruct (match old st with Some o => all_equal (c st) o | None => false end);
      by simplify_eq.
  - destruct (match old st with Some o => all_equal (c st) o | None => false end);
      [by simplify_eq|].
    apply bind_Ok in Hl as (st1 & Hb & Hl).
    destruct (body_Ok d total f k st Hd Hk Hok) as (st1' & Hb' & Hok1).
    rewrite Hb in Hb'. simplify_eq.
    apply (IH st1'); [done| |done]. by apply (Hbody st).
Qed.

(** A run of [kmeans] that returns, stage by stage. *)
Lemma kmeans_Ok_loop fuel perm x k centroids clusters :
  x ≠ [] → 1 ≤ k → perm ≡ₚ seq 0 (length (unique x)) →
  kmeans fuel perm x k = Ok (centroids, clusters) →
  ∃ cz dists0 y0 st y_all,
    forM (getitem (unique x)) (take k perm) = Ok cz ∧
    state_ok (unique x) (length (unique x) `min` k)
      {| c := inject_Z <$> cz; old := None; dists := dists0; y := y0 |} ∧
    loop fuel (unique x)
      (zip_with (λ v n, (v * Z.of_nat n)%Z) (unique x) (count_of x <$> unique x))
      (count_of x <$> unique x) (length (unique x) `min` k)
      {| c := inject_Z <$> cz; old := None; dists := dists0; y := y0 |} = Ok st ∧
    forM (getitem (y st)) (index_of (unique x) <$> x) = Ok y_all ∧
    forM (getitem (c st)) (unique_labels (y st)) = Ok centroids ∧
    clusters = (λ i, members y_all i) <$> unique_labels (y st).
Proof.
  intros Hx Hk Hperm. unfold kmeans. intros H0.
  apply bind_Ok in H0 as (cz & Hcz & H0).
  apply bind_Ok in H0 as ([dists0 y0] & Ha & H0).
  apply bind_Ok in H0 as (st & Hst & H0).
  apply bind_Ok in H0 as (y_all & Hy_all & H0).
  apply bind_Ok in H0 as (cents & Hcents & H0).
  simplify_eq. exists cz, dists0, y0, st, y_all. split_and!; try done.
  destruct (forM_Ok _ _ _ Hcz) as [Hczlen _].
  assert (length cz = length (unique x) `min` k) as Hlen.
  { rewrite Hczlen, length_take, Hperm, length_seq. lia. }
  assert (0 < length (unique x)) as Hdlen.
  { pose proof (unique_nonempty x Hx). destruct (unique x); [done|simpl; lia]. }
  destruct (assign_Ok (unique x) (inject_Z <$> cz)) as (dists0' & y0' & Ha' & Hd0 & Hy0 & Hall0).
  { destruct cz; [simpl in Hlen; lia|done]. }
  rewrite Ha in Ha'. simplify_eq. rewrite length_fmap, Hlen in Hall0.
  split_and!; simpl; [done..|]. by rewrite length_fmap.
Qed.



End centroids.

(** ** One bucket *)

Section one_bucket.
Import Bucketer BucketerAux BucketerProps.

Lemma forM_fmap_Ok {A B} (f : A → result B) (g : A → B) l :
  (∀ a, a ∈ l → f a = Ok (g a)) → forM f l = Ok (g <$> l).
Proof.
  induction l as [|a l IH]; intros Hf; simpl; [done|].
  rewrite Hf by left. simpl. rewrite IH; [done|]. intros b Hb. apply Hf. by right.
Qed.

Lemma assign_single d q :
  assign d [q] = Ok ((λ v, Qabs (inject_Z v - q)%Q) <$> d, (λ _, 0) <$> d).
Proof.
  unfold assign.
  rewrite (forM_fmap_Ok _ (λ v, (0, Qabs (inject_Z v - q)%Q))) by done.
  simpl. by rewrite <-!list_fmap_compose.
Qed.

Lemma members_zeros {A} (l : list A) :
  members ((λ _, 0) <$> l) 0 = seq 0 (length l).
Proof.
  unfold members. rewrite length_fmap. apply filter_all.
  intros t [_ Ht]%elem_of_seq. rewrite list_lookup_fmap.
  destruct (lookup_lt_is_Some_2 l t) as [a ->]; [lia|done].
Qed.

Lemma zeros_elem {A} (l : list A) : l ≠ [] → 0 ∈ (λ _ : A, 0) <$> l.
Proof. destruct l; [done|]. intros _. left. Qed.

Lemma unique_labels_zeros {A} (l : list A) :
  l ≠ [] → unique_labels ((λ _, 0) <$> l) = [0].
Proof.
  intros Hl.
  assert (unique_labels ((λ _ : A, 0) <$> l) ≡ₚ [0]) as Hp.
  { apply NoDup_Permutation; [apply unique_labels_NoDup|apply NoDup_singleton|].
    intros i. rewrite elem_of_unique_labels, list_elem_of_singleton. split.
    - by intros (a & -> & _)%list_elem_of_fmap.
    - intros ->. by apply zeros_elem. }
  by apply Permutation_singleton_r in Hp.
Qed.

Lemma fmap_lookup_seq {A} (a : A) (l : list A) :
  (λ t, default a (l !! t)) <$> seq 0 (length l) = l.
Proof.
  apply list_eq. intros i. rewrite list_lookup_fmap.
  destruct (decide (i < length l)) as [Hi|Hi].
  - rewrite lookup_seq_lt by done. simpl.
    by destruct (lookup_lt_is_Some_2 l i Hi) as [b ->].
  - rewrite lookup_seq_ge, lookup_ge_None_2 by lia. done.
Qed.

Lemma zip_with_counts (g : Z → nat) (d : list Z) :
  zip_with (λ v n, (v * Z.of_nat n)%Z) d (g <$> d) = (λ v, (v * Z.of_nat (g v))%Z) <$> d.
Proof. induction d as [|v d IH]; [done|]. simpl. f_equal. exact IH. Qed.

Lemma sum_counts_cons v x (d : list Z) :
  NoDup d →
  foldr Nat.add 0 (count_of (v :: x) <$> d) =
    (if decide (v ∈ d) then 1 else 0) + foldr Nat.add 0 (count_of x <$> d) ∧
  foldr Z.add 0%Z ((λ z, (z * Z.of_nat (count_of (v :: x) z))%Z) <$> d) =
    ((if decide (v ∈ d) then v else 0) +
     foldr Z.add 0%Z ((λ z, (z * Z.of_nat (count_of x z))%Z) <$> d))%Z.
Proof.
  induction 1 as [|z d Hz Hnd [IH1 IH2]]; csimpl; [done|].
  rewrite IH1, IH2, count_of_cons.
  assert (v ∈ z :: d ↔ v = z ∨ v ∈ d) as Hcons by apply elem_of_cons.
  repeat case_decide; subst; try (split; lia); exfalso; tauto.
Qed.

(** The counts of the distinct values add up to the number of sentences,
    and the values times their counts to the sum of the lengths. *)
Lemma sum_counts x (d : list Z) :
  NoDup d → (∀ v, v ∈ x → v ∈ d) →
  foldr Nat.add 0 (count_of x <$> d) = length x ∧
  foldr Z.add 0%Z ((λ z, (z * Z.of_nat (count_of x z))%Z) <$> d) = sumZ x.
Proof.
  intros Hnd. induction x as [|v x IH]; intros Hin.
  - unfold count_of. simpl. clear. induction d as [|z d [IH1 IH2]]; csimpl; [done|].
    rewrite IH1, IH2. split; lia.
  - destruct (sum_counts_cons v x d Hnd) as [-> ->].
    destruct IH as [-> ->]; [intros w Hw; apply Hin; by right|].
    rewrite !decide_True by (apply Hin; left). done.
Qed.

Lemma centroid_all x :
  x ≠ [] →
  let d := unique x in
  let f := count_of x <$> d in
  let total := zip_with (λ v n, (v * Z.of_nat n)%Z) d f in
  centroid total f ((λ _, 0) <$> d) 0 =
  (inject_Z (sumZ x) / inject_Z (Z.of_nat (length x)))%Q.
Proof.
  intros Hx. simpl. unfold centroid. rewrite members_zeros.
  destruct (sum_counts x (unique x) (unique_NoDup x)) as [Hf Ht].
  { intros v Hv. by apply elem_of_unique. }
  assert (length (unique x) =
          length (zip_with (λ v n, (v * Z.of_nat n)%Z) (unique x)
                    (count_of x <$> unique x))) as Hlen1.
  { rewrite zip_with_counts. by rewrite length_fmap. }
  rewrite Hlen1 at 1. rewrite fmap_lookup_seq, zip_with_counts, Ht.
  assert (length (unique x) = length (count_of x <$> unique x)) as Hlen2
    by by rewrite length_fmap.
  rewrite Hlen2. by rewrite fmap_lookup_seq, Hf.
Qed.

Lemma all_equal_refl cs : all_equal cs cs = true.
Proof.
  induction cs as [|q cs IH]; simpl; [done|]. rewrite IH.
  by rewrite (proj2 (Qeq_bool_iff q q) (Qeq_refl q)).
Qed.

Lemma result_bind_Ok {A B} (a : A) (f : A → result B) : (Ok a ≫= f) = f a.
Proof. done. Qed.

Lemma loop_unfold fuel d total f k st :
  loop (S fuel) d total f k st =
  if match old st with Some o => all_equal (c st) o | None => false end
  then Ok st else body d total f k st ≫= loop fuel d total f k.
Proof. done. Qed.

Lemma loop_exit fuel d total f k st o :
  old st = Some o → all_equal (c st) o = true → loop fuel d total f k st = Ok st.
Proof. intros Ho He. destruct fuel; simpl; by rewrite Ho, He. Qed.

Lemma body_one (d : list Z) total f st :
  d ≠ [] → y st = (λ _, 0) <$> d →
  body d total f 1 st =
  Ok {| c := [centroid total f ((λ _, 0) <$> d) 0]; old := Some (c st);
        dists := (λ v, Qabs (inject_Z v - centroid total f ((λ _, 0%nat) <$> d) 0%nat)%Q) <$> d;
        y := (λ _, 0) <$> d |}.
Proof.
  intros Hd Hy. unfold body.
  assert (foldM (repair_step 1 (dists st)) (y st) (seq 0 1) = Ok (y st)) as ->.
  { simpl. unfold repair_step. rewrite Hy.
    by rewrite decide_True by by apply zeros_elem. }
  rewrite result_bind_Ok, Hy.
  change ((λ j, centroid total f ((λ _, 0) <$> d) j) <$> seq 0 1)
    with [centroid total f ((λ _ : Z, 0) <$> d) 0].
  by rewrite assign_single.
Qed.

Lemma loop_one fuel (d : list Z) total f st :
  d ≠ [] → y st = (λ _, 0) <$> d → old st = None →
  ∃ st', loop (S (S fuel)) d total f 1 st = Ok st' ∧
         c st' = [centroid total f ((λ _, 0) <$> d) 0] ∧
         y st' = (λ _, 0) <$> d.
Proof.
  intros Hd Hy Hold.
  rewrite loop_unfold, Hold, (body_one d total f st Hd Hy), result_bind_Ok.
  rewrite loop_unfold. cbn [old c].
  destruct (all_equal _ (c st)); [by eexists|].
  rewrite body_one by done. rewrite result_bind_Ok. cbn [c].
  erewrite loop_exit; [by eexists|done|]. cbn [c]. apply all_equal_refl.
Qed.



End one_bucket.

(** ** As many buckets as distinct lengths *)

Section one_value_each.
Import Bucketer BucketerAux BucketerProps.

Context (d : list Z) (perm : list nat).
Hypothesis Hd : NoDup d.
Hypothesis Hperm : perm ≡ₚ seq 0 (length d).

Lemma perm_NoDup : NoDup perm.
Proof using Hperm. rewrite Hperm. apply NoDup_seq. Qed.

Lemma perm_length : length perm = length d.
Proof using Hperm. by rewrite Hperm, length_seq. Qed.

Lemma perm_lt j t : perm !! j = Some t → t < length d.
Proof using Hperm.
  intros Hj%list_elem_of_lookup_2. rewrite Hperm in Hj.
  apply elem_of_seq in Hj. lia.
Qed.

Lemma perm_onto t : t < length d → ∃ j, perm !! j = Some t.
Proof using Hperm.
  intros Ht. apply list_elem_of_lookup. rewrite Hperm. apply elem_of_seq. lia.
Qed.

(** The initial centroids are the distinct values in the order of [perm]. *)
Lemma initial_at_values k :
  length d ≤ k →
  forM (getitem d) (take k perm) = Ok ((λ t, d !!! t) <$> perm) ∧
  at_values d perm (inject_Z <$> ((λ t, d !!! t) <$> perm)).
Proof using Hperm.
  intros Hk. rewrite take_ge by (rewrite perm_length; lia). split.
  - apply forM_fmap_Ok. intros t [j Hj]%list_elem_of_lookup.
    destruct (lookup_lt_is_Some_2 d t (perm_lt j t Hj)) as [v Hv].
    apply getitem_Ok. by rewrite (list_lookup_total_correct _ _ _ Hv).
  - unfold at_values. rewrite <-list_fmap_compose. apply Forall2_fmap_l.
    apply Forall_Forall2_diag, Forall_forall. intros t _. simpl. reflexivity.
Qed.

(** With every distinct value among the centroids, each value is nearest
    to itself. *)
Lemma assign_at_values cs :
  d ≠ [] → at_values d perm cs →
  ∃ dists y, assign d cs = Ok (dists, y) ∧ labels_invert perm y.
Proof using Hd Hperm.
  intros Hne Hcs.
  destruct (assign_Ok d cs) as (dists & y & Ha & _ & Hlen & _).
  { intros ->. apply Forall2_nil_inv_l in Hcs.
    pose proof perm_length as Hpl. rewrite Hcs in Hpl. by destruct d. }
  exists dists, y. split; [done|]. split; [by rewrite perm_length|].
  intros t j Hj.
  destruct (lookup_lt_is_Some_2 d t) as [v Hv].
  { rewrite <-Hlen. by eapply lookup_lt_Some. }
  destruct (assign_spec d cs dists y t v j Ha Hv Hj) as (ci & Hci & Hmin & _).
  destruct (perm_onto t) as [j0 Hj0]; [by eapply lookup_lt_Some|].
  destruct (Forall2_lookup_r _ _ _ _ _ Hcs Hj0) as (q0 & Hq0 & Heq0).
  destruct (Forall2_lookup_l _ _ _ _ _ Hcs Hci) as (t' & Ht' & Heq').
  simpl in Heq0, Heq'. rewrite (list_lookup_total_correct _ _ _ Hv) in Heq0.
  pose proof (Hmin q0 (list_elem_of_lookup_2 _ _ _ Hq0)) as Hle.
  assert (ci == inject_Z v)%Q as Hciv.
  { destruct (Qabs_cases (inject_Z v - ci)) as [[? ?]|[? ?]],
             (Qabs_cases (inject_Z v - q0)) as [[? ?]|[? ?]]; lra. }
  destruct (lookup_lt_is_Some_2 d t' (perm_lt _ _ Ht')) as [v' Hv'].
  rewrite (list_lookup_total_correct _ _ _ Hv') in Heq'.
  assert (v' = v) as ->.
  { apply inject_Z_injective. by rewrite <-Heq', Hciv. }
  by rewrite (NoDup_lookup _ _ _ _ Hd Hv Hv').
Qed.

Context (y : list nat).
Hypothesis Hy : labels_invert perm y.

Lemma labels_invert_onto j t : perm !! j = Some t → y !! t = Some j.
Proof using Hy Hperm.
  intros Hj. destruct Hy as [Hlen Hinv].
  destruct (lookup_lt_is_Some_2 y t) as [j' Hj'].
  { rewrite Hlen, perm_length. by eapply perm_lt. }
  by rewrite (NoDup_lookup _ _ _ _ perm_NoDup Hj (Hinv _ _ Hj')).
Qed.

Lemma labels_invert_elem i : i ∈ y ↔ i < length d.
Proof using Hy Hperm.
  rewrite <-perm_length. split.
  - intros [t Ht]%list_elem_of_lookup. eapply lookup_lt_Some. by apply Hy.
  - intros [t Ht]%lookup_lt_is_Some_2.
    eapply list_elem_of_lookup_2. by apply labels_invert_onto.
Qed.

(** No cluster is empty, and the repair step has nothing to do. *)
Lemma repair_fold_same k dists ls :
  (∀ i, i ∈ ls → i ∈ y) → foldM (repair_step k dists) y ls = Ok y.
Proof.
  induction ls as [|i ls IH]; intros Hin; [done|].
  cbn [foldM].
  assert (repair_step k dists y i = Ok y) as ->.
  { unfold repair_step. by rewrite decide_True by (apply Hin; left). }
  rewrite result_bind_Ok. apply IH. intros; apply Hin; by right.
Qed.

Lemma members_single j t : perm !! j = Some t → members y j = [t].
Proof using Hy Hperm.
  intros Hj.
  assert (NoDup (members y j)) as Hnd by (apply NoDup_filter, NoDup_seq).
  assert (∀ u, u ∈ members y j ↔ u = t) as Hel.
  { intros u. rewrite elem_of_members. split.
    - intros Hu. destruct Hy as [_ Hinv]. apply Hinv in Hu. congruence.
    - intros ->. by apply labels_invert_onto. }
  destruct (members y j) as [|a [|b l]].
  - pose proof (proj2 (Hel t) eq_refl) as Hin. by apply elem_of_nil in Hin.
  - f_equal. apply Hel. left.
  - exfalso. apply NoDup_cons in Hnd as [Hnot _]. apply Hnot.
    rewrite (proj1 (Hel a)) by left. rewrite <-(proj1 (Hel b)) at 1 by (right; left).
    left.
Qed.

(** The centroid of a cluster of one value is that value. *)
Lemma centroid_single total f j t v n :
  perm !! j = Some t → total !! t = Some (v * Z.of_nat n)%Z → f !! t = Some n →
  1 ≤ n → (centroid total f y j == inject_Z v)%Q.
Proof using Hy Hperm.
  intros Hj Ht Hf Hn. unfold centroid. rewrite (members_single j t Hj).
  csimpl. rewrite Ht, Hf. simpl.
  rewrite Z.add_0_r, Nat.add_0_r, inject_Z_mult. field.
  intros H0. apply (inject_Z_injective (Z.of_nat n) 0%Z) in H0. lia.
Qed.

End one_value_each.

Section enough_buckets.
Import Bucketer BucketerAux BucketerProps.

Lemma all_equal_Qeq c1 c0 : Forall2 Qeq c1 c0 → all_equal c1 c0 = true.
Proof.
  induction 1 as [|p q c1 c0 Hpq _ IH]; simpl; [done|].
  by rewrite IH, (proj2 (Qeq_bool_iff p q) Hpq).
Qed.

Lemma sorted_of_nat_seq a n : StronglySorted Z.lt (Z.of_nat <$> seq a n).
Proof.
  revert a. induction n as [|n IH]; intros a; csimpl; constructor; [apply IH|].
  apply Forall_fmap, Forall_forall. intros u [? ?]%elem_of_seq. simpl. lia.
Qed.

(** The labels in use, when every label below [n] is. *)
Lemma unique_labels_all y n : (∀ i, i ∈ y ↔ i < n) → unique_labels y = seq 0 n.
Proof.
  intros Hy. unfold unique_labels.
  assert (unique (Z.of_nat <$> y) = Z.of_nat <$> seq 0 n) as ->.
  { apply (StronglySorted_unique_strong Z.lt);
      [intros; lia|apply unique_sorted|apply sorted_of_nat_seq|].
    apply NoDup_Permutation; [apply unique_NoDup| |].
    - apply NoDup_fmap; [intros ? ?; apply Nat2Z.inj|apply NoDup_seq].
    - intros z. rewrite elem_of_unique, !list_elem_of_fmap. split.
      + intros (i & -> & Hi). exists i. split; [done|].
        apply elem_of_seq. apply Hy in Hi. lia.
      + intros (i & -> & Hi). exists i. split; [done|].
        apply Hy. apply elem_of_seq in Hi. lia. }
  rewrite <-list_fmap_compose. rewrite <-(list_fmap_id (seq 0 n)) at 2.
  apply list_fmap_ext. intros _ i _. simpl. apply Nat2Z.id.
Qed.

Lemma forM_getitem_all {A} (a : A) (l : list A) :
  forM (getitem l) (seq 0 (length l)) = Ok l.
Proof.
  rewrite (forM_fmap_Ok _ (λ t, default a (l !! t))); [by rewrite fmap_lookup_seq|].
  intros t [_ Ht]%elem_of_seq. apply getitem_Ok.
  by destruct (lookup_lt_is_Some_2 l t) as [b ->]; [lia|].
Qed.



End enough_buckets.

(** ** The decoder: a sentence and its batch *)

Section batch_locality.
Import NP Decoder DecoderAux DecoderProps.
Context (batch_size batch_size' seq_len : nat) (sc sc' : list (list (list score))).
Context (lens lens' : list nat) (c c' L : nat).
Hypothesis Hsc : ∀ i j, i ≤ L → j ≤ L → get3 sc i j c = get3 sc' i j c'.
Hypothesis Hlens : ∀ w, lens !!! c = w ↔ lens' !!! c' = w.


Section one_round.
Context (t t' : tables) (w : nat).
Hypothesis Ht : columns_agree c c' L t t'.

Lemma ilr_at_column k l :
  k + w ≤ L → l < w → ilr_at t w c k l = ilr_at t' w c' k l.
Proof using Ht.
  intros Hk Hl. unfold ilr_at.
  destruct (Ht k (k + l)) as (_ & -> & _); [lia..|].
  destruct (Ht (w + k) (1 + k + l)) as (_ & -> & _); [lia..|]. done.
Qed.

Lemma il_row_column k : k + w ≤ L → il_row sc t w c k = il_row sc' t' w c' k.
Proof using Ht Hsc.
  intros Hk. unfold il_row. apply tab_ext. intros l Hl.
  by rewrite ilr_at_column, Hsc by lia.
Qed.

Lemma ir_row_column k : k + w ≤ L → ir_row sc t w c k = ir_row sc' t' w c' k.
Proof using Ht Hsc.
  intros Hk. unfold ir_row. apply tab_ext. intros l Hl.
  by rewrite ilr_at_column, Hsc by lia.
Qed.

Lemma s_i_at_column i j :
  i ≤ L → j ≤ L → s_i_at sc t w i j c = s_i_at sc' t' w i j c'.
Proof using Ht Hsc.
  intros Hi Hj. unfold s_i_at. repeat case_decide.
  - by rewrite ir_row_column by lia.
  - by rewrite il_row_column by lia.
  - by destruct (Ht i j) as (-> & _).
Qed.

Lemma p_i_at_column i j :
  i ≤ L → j ≤ L → p_i_at sc t w i j c = p_i_at sc' t' w i j c'.
Proof using Ht Hsc.
  intros Hi Hj. unfold p_i_at. repeat case_decide.
  - by rewrite ir_row_column by lia.
  - by rewrite il_row_column by lia.
  - by destruct (Ht i j) as (_ & _ & -> & _).
Qed.

Lemma cl_row_column k : k + w ≤ L → cl_row sc t w c k = cl_row sc' t' w c' k.
Proof using Ht Hsc.
  intros Hk. unfold cl_row. apply tab_ext. intros l Hl.
  destruct (Ht (k + l) k) as (_ & -> & _); [lia..|].
  by rewrite s_i_at_column by lia.
Qed.

Lemma s_c_mid_column i j :
  i ≤ L → j ≤ L → s_c_mid sc t w i j c = s_c_mid sc' t' w i j c'.
Proof using Ht Hsc.
  intros Hi Hj. unfold s_c_mid. case_decide.
  - by rewrite cl_row_column by lia.
  - by destruct (Ht i j) as (_ & -> & _).
Qed.

Lemma cr_row_column k : k + w ≤ L → cr_row sc t w c k = cr_row sc' t' w c' k.
Proof using Ht Hsc.
  intros Hk. unfold cr_row. apply tab_ext. intros l Hl.
  by rewrite s_i_at_column, s_c_mid_column by lia.
Qed.

Lemma s_c_at_column i j :
  i ≤ L → j ≤ L → s_c_at sc lens t w i j c = s_c_at sc' lens' t' w i j c'.
Proof using Ht Hsc Hlens.
  intros Hi Hj. unfold s_c_at.
  destruct (decide (i = 0 ∧ j = w ∧ lens !!! c ≠ w)) as [H1|H1];
    destruct (decide (i = 0 ∧ j = w ∧ lens' !!! c' ≠ w)) as [H2|H2].
  - done.
  - exfalso. apply H2. rewrite <-Hlens. done.
  - exfalso. apply H1. rewrite Hlens. done.
  - case_decide; [by rewrite cr_row_column by lia|by apply s_c_mid_column].
Qed.

Lemma p_c_at_column i j :
  i ≤ L → j ≤ L → p_c_at sc t w i j c = p_c_at sc' t' w i j c'.
Proof using Ht Hsc.
  intros Hi Hj. unfold p_c_at. repeat case_decide.
  - by rewrite cr_row_column by lia.
  - by rewrite cl_row_column by lia.
  - by destruct (Ht i j) as (_ & _ & _ & ->).
Qed.

Lemma eisner_step_column :
  1 ≤ w → w < seq_len → c < batch_size → c' < batch_size' → L < seq_len →
  columns_agree c c' L (eisner_step batch_size seq_len sc lens t w)
                (eisner_step batch_size' seq_len sc' lens' t' w).
Proof using Ht Hsc Hlens.
  intros Hw1 Hw2 Hc Hc' HL i j Hi Hj.
  rewrite !eisner_step_s_i, !eisner_step_s_c, !eisner_step_p_i, !eisner_step_p_c
    by (done || lia).
  split_and!.
  - by apply s_i_at_column.
  - by apply s_c_at_column.
  - by apply p_i_at_column.
  - by apply p_c_at_column.
Qed.

End one_round.

Lemma eisner_init_column :
  c < batch_size → c' < batch_size' → L < seq_len →
  columns_agree c c' L (eisner_init batch_size seq_len) (eisner_init batch_size' seq_len).
Proof.
  intros Hc Hc' HL i j Hi Hj. unfold eisner_init, fill_diagonal_scalar. simpl.
  rewrite !get3_tab3 by lia. done.
Qed.

Lemma eisner_loop_column m :
  m < seq_len → c < batch_size → c' < batch_size' → L < seq_len →
  columns_agree c c' L (eisner_loop batch_size seq_len sc lens m)
                (eisner_loop batch_size' seq_len sc' lens' m).
Proof using Hsc Hlens.
  intros Hm Hc Hc' HL. induction m as [|m IH]; [by apply eisner_init_column|].
  rewrite !eisner_loop_S. apply eisner_step_column; [|lia..]. apply IH. lia.
Qed.

End batch_locality.

Section sentence_alone.
Import NP Decoder DecoderAux DecoderProps.

#[local] Arguments backtrack : simpl never.

Lemma shapes_single scores mask batch n c sc m :
  shapes_ok scores mask batch n → scores !! c = Some sc → mask !! c = Some m →
  shapes_ok [sc] [m] 1 n.
Proof.
  intros (_ & Hs & _ & Hm) Hsc Hmc. split_and!; [done| |done|].
  - repeat constructor; by apply (Forall_lookup_1 _ _ _ _ Hs Hsc).
  - repeat constructor. by apply (Forall_lookup_1 _ _ _ _ Hm Hmc).
Qed.

Lemma mask_sum_lookup mask c m :
  mask !! c = Some m → mask_sum mask !!! c = mask_sum [m] !!! 0.
Proof.
  intros Hm. unfold mask_sum. simpl.
  apply list_lookup_total_correct. by rewrite list_lookup_fmap, Hm.
Qed.

(** The head array of a sentence is the one that [eisner] computes for the
    sentence on its own. *)
Lemma sentence_heads_alone scores mask batch n c sc m :
  shapes_ok scores mask batch n → scores !! c = Some sc → mask !! c = Some m →
  mask_sum mask !!! c < n →
  sentence_heads scores mask c = sentence_heads [sc] [m] 0.
Proof.
  intros Hshape Hsc Hm HL.
  pose proof (shapes_single _ _ _ _ _ _ _ Hshape Hsc Hm) as Hshape1.
  pose proof (lookup_lt_Some _ _ _ Hsc) as Hc.
  pose proof Hshape as (Hb & _).
  assert (length (scores !!! 0) = n) as Hn.
  { apply (shapes_seq_len scores mask batch n c); [done|lia]. }
  assert (length sc = n) as Hn1.
  { destruct Hshape as (_ & Hs & _). by apply (Forall_lookup_1 _ _ _ _ Hs Hsc). }
  pose proof (mask_sum_lookup mask c m Hm) as HLeq.
  unfold sentence_heads. rewrite <-HLeq.
  apply backtrack_agree with (L := mask_sum mask !!! c); [| |lia..].
  { apply sentence_pointers_ok; [lia|by rewrite Hn]. }
  intros i j Hi Hj. unfold sentence_p_i, sentence_p_c.
  change (length ([sc] !!! 0)) with (length sc). rewrite Hn, Hn1.
  rewrite !lookup_tab2 by lia.
  assert (columns_agree c 0 (mask_sum mask !!! c)
            (final_tables scores mask) (final_tables [sc] [m])) as Ht.
  { unfold final_tables. change (length ([sc] !!! 0)) with (length sc).
    rewrite Hn, Hn1. change (length [sc]) with 1.
    apply eisner_loop_column; [| |lia..].
    - intros i' j' Hi' Hj'. rewrite !get3_transpose_210 by lia.
      unfold get3. by rewrite (list_lookup_total_correct _ _ _ Hsc).
    - intros w. by rewrite HLeq. }
  destruct (Ht i j Hi Hj) as (_ & _ & -> & ->). done.
Qed.

End sentence_alone.

Section decoder_more_results.
Import NP Decoder DecoderAux DecoderProps.

(** X13: a sentence is decoded the same on its own as in a batch: the row
    that [eisner] returns for sentence [c] of a batch is the row it returns
    for the batch that holds this sentence alone. *)
Theorem eisner_sentence_alone scores mask batch n c sc m rows row :
  shapes_ok scores mask batch n → Forall (λ s, s < n) (mask_sum mask) →
  scores !! c = Some sc → mask !! c = Some m →
  eisner scores mask = Ok rows → rows !! c = Some row →
  eisner [sc] [m] = Ok [row].
Proof.
  intros Hshape Hlens Hsc Hm Hrows Hrow.
  pose proof (lookup_lt_Some _ _ _ Hsc) as Hc.
  pose proof Hshape as (Hb & _).
  pose proof (shapes_single _ _ _ _ _ _ _ Hshape Hsc Hm) as Hshape1.
  pose proof (mask_sum_lookup mask c m Hm) as HLeq.
  assert (mask_sum mask !!! c < n) as HL.
  { apply (shapes_lens _ _ _ _ c _ Hshape Hlens). lia. }
  destruct (eisner_batch scores mask batch n Hshape Hlens) as (rows0 & Hrows0 & _ & Hall).
  rewrite Hrows in Hrows0. simplify_eq.
  destruct (Hall c ltac:(lia)) as (h & Hh & _ & _ & _ & Hr).
  rewrite Hrow in Hr. simplify_eq.
  destruct (eisner_batch [sc] [m] 1 n Hshape1) as (rows1 & -> & Hlen1 & Hall1).
  { unfold mask_sum in *. simpl in *. repeat constructor. lia. }
  destruct (Hall1 0 ltac:(lia)) as (h1 & Hh1 & _ & _ & _ & Hr1).
  rewrite <-(sentence_heads_alone _ _ _ _ _ _ _ Hshape Hsc Hm HL), Hh in Hh1.
  simplify_eq. destruct rows1 as [|r [|? ?]]; simplify_eq/=. done.
Qed.

Lemma eisner_sentence_alone_witness :
  let s0 := score_matrix 3 (λ dep head, if decide (head = 0) then 5%Z else 0%Z) in
  let s1 := score_matrix 3 (λ dep head,
              if decide ((dep, head) = (2, 0)) then 9%Z
              else if decide ((dep, head) = (1, 2)) then 9%Z else 0%Z) in
  eisner [s1] [[true; true; false]] = Ok [[1; 2; 0]%Z].
Proof.
  intros s0 s1.
  apply (eisner_sentence_alone [s0; s1] [[false; true; false]; [true; true; false]]
           2 3 1 s1 [true; true; false] [[1; 0; 1]; [1; 2; 0]]%Z [1; 2; 0]%Z).
  - unfold shapes_ok. simpl. repeat constructor.
  - simpl. repeat constructor.
  - reflexivity.
  - reflexivity.
  - vm_compute. reflexivity.
  - reflexivity.
Defined.

End decoder_more_results.

(** ** When the decoder raises *)

Section decoder_errors.
Import NP Decoder DecoderAux.

(** A comprehension whose body raises at most one kind of error, and raises
    it at some element, raises that error. *)
Lemma forM_Raise {A B} (f : A → result B) e l :
  (∀ x, x ∈ l → (∃ y, f x = Ok y) ∨ f x = Raise e) →
  (∃ x, x ∈ l ∧ f x = Raise e) →
  forM f l = Raise e.
Proof.
  induction l as [|a l IH]; intros Hall (x & Hx & Hfx).
  - by apply elem_of_nil in Hx.
  - simpl. destruct (Hall a) as [[y Hy]|Ha]; [by left| |by rewrite Ha].
    rewrite Hy. simpl. rewrite IH; [done| |].
    + intros z Hz. apply Hall. by right.
    + apply elem_of_cons in Hx as [->|Hx]; [congruence|eauto].
Qed.

Lemma count_true_le (row : list bool) :
  length (filter (λ v, v = true) row) ≤ length row.
Proof. apply length_filter. Qed.

Lemma count_true_full (row : list bool) :
  length (filter (λ v, v = true) row) = length row ↔ Forall (λ v, v = true) row.
Proof.
  induction row as [|v row IH]; [done|].
  pose proof (count_true_le row) as Hle.
  rewrite filter_cons. case_decide as Hv; simpl.
  - rewrite Forall_cons. split.
    + intros Hlen. split; [done|]. apply IH. lia.
    + intros [_ Hall]. f_equal. by apply IH.
  - split; [lia|]. by intros [? _]%Forall_cons.
Qed.

(** Backtracking from the span [(0, n)] through tables of [n] rows and [n]
    columns reads a column that is not there. *)
Lemma backtrack_full n fuel (f g : nat → nat → nat) heads :
  1 ≤ n →
  backtrack (S fuel) (tab2 n n f) (tab2 n n g) heads 0 n true = Raise IndexError.
Proof.
  intros Hn. rewrite backtrack_S. rewrite decide_False by lia.
  assert (getitem (tab2 n n g) 0 = Ok (tab n (g 0))) as ->.
  { apply getitem_Ok. unfold tab2. by rewrite lookup_tab by lia. }
  simpl.
  rewrite getitem_ge; [done|]. by rewrite length_tab.
Qed.

End decoder_errors.

Section decoder_error_results.
Import NP Decoder DecoderAux.

(** X19: on a batch with shapes (batch, n, n) and (batch, n), [n ≥ 1],
    [eisner] raises [IndexError] exactly when some row of the mask is true
    at every position; it raises no other error and returns otherwise. *)
Theorem eisner_raises_iff_full_row scores mask batch n :
  shapes_ok scores mask batch n → 1 ≤ n →
  (eisner scores mask = Raise IndexError ↔
     Exists (Forall (λ v, v = true)) mask) ∧
  (¬ Exists (Forall (λ v, v = true)) mask → ∃ rows, eisner scores mask = Ok rows).
Proof.
  intros Hshape Hn.
  assert (¬ Exists (Forall (λ v, v = true)) mask → ∃ rows, eisner scores mask = Ok rows)
    as Hret.
  { intros Hno.
    destruct (eisner_batch scores mask batch n Hshape) as (rows & -> & _); [|by eexists].
    destruct Hshape as (_ & _ & _ & Hrows).
    unfold mask_sum. apply Forall_fmap, Forall_forall. intros row Hrow. simpl.
    pose proof (count_true_le row) as Hle.
    rewrite Forall_forall in Hrows. pose proof (Hrows row Hrow) as Hlen. simpl in Hlen.
    destruct (decide (length (filter (λ v, v = true) row) = length row)) as [Hfull|]; [|lia].
    destruct Hno. apply Exists_exists. exists row. split; [done|].
    by apply count_true_full. }
  split; [|done]. split.
  - intros Hraise. destruct (decide (Exists (Forall (λ v, v = true)) mask)) as [|Hno]; [done|].
    destruct (Hret Hno) as [rows Hrows]. congruence.
  - intros (row & Hrow & Hfull)%Exists_exists.
    apply list_elem_of_lookup in Hrow as [c Hc].
    pose proof (lookup_lt_Some _ _ _ Hc) as Hcb.
    pose proof Hshape as (Hb & _ & Hmb & Hrows).
    rewrite Hmb in Hcb.
    pose proof (shapes_seq_len _ _ _ _ c Hshape Hcb) as Hseq.
    unfold eisner. rewrite Hseq, Hb.
    rewrite (forM_Raise _ IndexError); [done| |].
    + intros x Hx. apply elem_of_lookup_imap in Hx as (i & L & -> & HL).
      pose proof (lookup_lt_Some _ _ _ HL) as Hi. rewrite length_mask_sum, Hmb in Hi.
      rewrite !getitem_transpose_201 by done. simpl.
      assert (L ≤ n) as HLn.
      { unfold mask_sum in HL. rewrite list_lookup_fmap in HL.
        destruct (mask !! i) as [r|] eqn:Hr; simplify_eq/=.
        pose proof (count_true_le r) as Hle.
        by rewrite (Forall_lookup_1 _ _ _ _ Hrows Hr) in Hle. }
      destruct (decide (L = n)) as [->|HLne].
      * right. match goal with
        | |- backtrack ?k _ _ _ _ _ _ = _ => replace k with (S (2 * n + 1)) by lia
        end.
        by apply backtrack_full.
      * left. destruct (sentence_heads_Ok scores mask i) as (h & Hh & _).
        { lia. }
        { rewrite (list_lookup_total_correct _ _ _ HL), Hseq. lia. }
        exists h. rewrite <-Hh. unfold sentence_heads, sentence_p_i, sentence_p_c,
          final_tables.
        by rewrite (list_lookup_total_correct _ _ _ HL), Hseq, Hb.
    + exists (c, n). split.
      * apply elem_of_lookup_imap. exists c, n. split; [done|].
        unfold mask_sum. rewrite list_lookup_fmap, Hc. simpl. f_equal.
        rewrite <-(Forall_lookup_1 _ _ _ _ Hrows Hc). by apply count_true_full.
      * rewrite !getitem_transpose_201 by done. simpl.
        match goal with
        | |- backtrack ?k _ _ _ _ _ _ = _ => replace k with (S (2 * n + 1)) by lia
        end.
        by apply backtrack_full.
Qed.

Lemma eisner_raises_iff_full_row_witness :
  eisner [score_matrix 3 (λ _ _, 0%Z); score_matrix 3 (λ _ _, 0%Z)]
         [[true; false; true]; [true; true; true]] = Raise IndexError.
Proof.
  apply (eisner_raises_iff_full_row
           [score_matrix 3 (λ _ _, 0%Z); score_matrix 3 (λ _ _, 0%Z)]
           [[true; false; true]; [true; true; true]] 2 3).
  - unfold shapes_ok. simpl. repeat constructor.
  - lia.
  - apply Exists_cons_tl, Exists_cons_hd. repeat constructor.
Defined.

End decoder_error_results.

(** ** The decoder finds a best tree *)

Section score_algebra.
Import DecoderProps.

Lemma Qplus_assoc_eq (a b c : Q) : (a + (b + c))%Q = (a + b + c)%Q.
Proof.
  destruct a as [an ad], b as [bn bd], c as [cn cd]. unfold Qplus. simpl.
  f_equal; [|by rewrite Pos.mul_assoc].
  rewrite !Pos2Z.inj_mul. ring.
Qed.

Lemma Qplus_comm_eq (a b : Q) : (a + b)%Q = (b + a)%Q.
Proof.
  destruct a as [an ad], b as [bn bd]. unfold Qplus. simpl.
  f_equal; [ring|apply Pos.mul_comm].
Qed.

Lemma Qplus_0_l_eq (a : Q) : (0 + a)%Q = a.
Proof.
  destruct a as [an ad]. unfold Qplus. simpl. f_equal. lia.
Qed.

Lemma score_add_assoc a b c :
  score_add a (score_add b c) = score_add (score_add a b) c.
Proof. destruct a, b, c; simpl; try done. by rewrite Qplus_assoc_eq. Qed.

Lemma score_add_comm a b : score_add a b = score_add b a.
Proof. destruct a, b; simpl; try done. by rewrite Qplus_comm_eq. Qed.

Lemma score_add_0_l a : score_add (Fin 0) a = a.
Proof. destruct a; simpl; [done|]. by rewrite Qplus_0_l_eq. Qed.

Lemma score_add_0_r a : score_add a (Fin 0) = a.
Proof. by rewrite score_add_comm, score_add_0_l. Qed.

Lemma score_le_refl a : score_le a a.
Proof. destruct a; simpl; [done|apply Qle_refl]. Qed.

Lemma score_le_trans a b c : score_le a b → score_le b c → score_le a c.
Proof. destruct a, b, c; simpl; try done. apply Qle_trans. Qed.

Lemma score_add_mono a a' b b' :
  score_le a a' → score_le b b' → score_le (score_add a b) (score_add a' b').
Proof. destruct a, a', b, b'; simpl; try done. apply Qplus_le_compat. Qed.

Lemma score_ltb_false a b : score_ltb a b = false → score_le b a.
Proof.
  destruct a, b; simpl; try done. rewrite negb_false_iff. apply Qle_bool_iff.
Qed.

Lemma score_ltb_true a b : score_ltb a b = true → score_le a b.
Proof.
  destruct a, b; simpl; try done. rewrite negb_true_iff.
  intros Hf. apply Qlt_le_weak, Qnot_le_lt. intros Hle.
  apply Qle_bool_iff in Hle. congruence.
Qed.

(** [amax] holds the entry at the position [argmax], and no entry is
    greater. *)
Lemma argmax_from_spec l :
  ∀ pre best bi,
    (pre ++ l) !! bi = Some best → bi < length pre →
    Forall (λ q, score_le q best) pre →
    let r := argmax_from best bi (length pre) l in
    (pre ++ l) !! r.1 = Some r.2 ∧ Forall (λ q, score_le q r.2) (pre ++ l).
Proof.
  induction l as [|x l IH]; intros pre best bi Hbest Hbi Hpre; simpl.
  - by rewrite app_nil_r in *.
  - replace (pre ++ x :: l) with ((pre ++ [x]) ++ l) in * by by rewrite <-app_assoc.
    replace (S (length pre)) with (length (pre ++ [x]))
      by (rewrite length_app; simpl; lia).
    destruct (score_ltb best x) eqn:Hlt.
    + apply IH.
      * rewrite lookup_app_l by (rewrite length_app; simpl; lia).
        by rewrite lookup_app_r, Nat.sub_diag.
      * rewrite length_app. simpl. lia.
      * apply Forall_app. split; [|repeat constructor; apply score_le_refl].
        eapply Forall_impl; [done|]. simpl. intros q Hq.
        eapply score_le_trans; [done|]. by apply score_ltb_true.
    + apply IH; [done|rewrite length_app; simpl; lia|].
      apply Forall_app. split; [done|]. repeat constructor. by apply score_ltb_false.
Qed.

Lemma amax_spec l :
  l ≠ [] → l !! argmax l = Some (amax l) ∧ Forall (λ q, score_le q (amax l)) l.
Proof.
  destruct l as [|x l]; [done|]. intros _. unfold argmax, amax.
  apply (argmax_from_spec l [x] x 0); [done|simpl; lia|].
  repeat constructor. apply score_le_refl.
Qed.

Lemma sum_range_0 arc a : sum_range arc a 0 = Fin 0.
Proof. done. Qed.

Lemma sum_range_app arc a k1 k2 :
  sum_range arc a (k1 + k2) = score_add (sum_range arc a k1) (sum_range arc (a + k1) k2).
Proof.
  unfold sum_range. rewrite seq_app, fmap_app.
  generalize (arc <$> seq (a + k1) k2). generalize (arc <$> seq a k1).
  intros l1 l2. induction l1 as [|x l1 IH].
  - change (foldr score_add (Fin 0) l2 =
            score_add (Fin 0) (foldr score_add (Fin 0) l2)).
    by rewrite score_add_0_l.
  - change (score_add x (foldr score_add (Fin 0) (l1 ++ l2)) =
            score_add (score_add x (foldr score_add (Fin 0) l1))
                      (foldr score_add (Fin 0) l2)).
    by rewrite IH, score_add_assoc.
Qed.

Lemma sum_range_1 arc a : sum_range arc a 1 = arc a.
Proof.
  unfold sum_range. change (score_add (arc a) (Fin 0) = arc a). apply score_add_0_r.
Qed.

Lemma sum_range_ext arc arc' a k :
  (∀ d, a ≤ d → d < a + k → arc d = arc' d) → sum_range arc a k = sum_range arc' a k.
Proof.
  intros Hext. unfold sum_range. f_equal. apply list_eq. intros i.
  rewrite !list_lookup_fmap. destruct (seq a k !! i) as [d|] eqn:Hd; [|done].
  apply lookup_seq in Hd as [-> ?]. simpl. f_equal. apply Hext; lia.
Qed.

Lemma span_sum_ext arc arc' i j :
  (∀ d, DecoderAux.assigned i j d → arc d = arc' d) →
  span_sum arc i j = span_sum arc' i j.
Proof.
  unfold DecoderAux.assigned, span_sum. intros Hext.
  case_decide; apply sum_range_ext; intros d ? ?; apply Hext; lia.
Qed.

Lemma span_sum_nil arc i : span_sum arc i i = Fin 0.
Proof. unfold span_sum. rewrite decide_True by done. by rewrite Nat.sub_diag. Qed.

(** The positions of a span to the right, in the four parts of its
    decomposition. *)
Lemma span_sum_right arc i j r r' :
  i ≤ r' → r' < r → r ≤ j →
  span_sum arc i j =
  score_add (score_add (score_add (span_sum arc i r') (span_sum arc r (r' + 1)))
                       (arc r))
            (span_sum arc r j).
Proof.
  intros H1 H2 H3. unfold span_sum.
  rewrite (decide_True (P := i ≤ j)), (decide_True (P := i ≤ r')),
    (decide_True (P := r ≤ j)) by lia.
  destruct (decide (r ≤ r' + 1)) as [Heq|Hgt].
  - assert (r = r' + 1) as -> by lia.
    replace (r' + 1 - (r' + 1)) with 0 by lia. rewrite sum_range_0, score_add_0_r.
    replace (j - i) with ((r' - i) + (1 + (j - (r' + 1)))) by lia.
    rewrite sum_range_app, sum_range_app, sum_range_1, score_add_assoc.
    by replace (i + 1 + (r' - i)) with (r' + 1) by lia.
  - replace (j - i) with ((r' - i) + ((r - (r' + 1)) + (1 + (j - r)))) by lia.
    rewrite !sum_range_app, sum_range_1, !score_add_assoc.
    replace (i + 1 + (r' - i)) with (r' + 1) by lia.
    replace (r' + 1 + (r - (r' + 1))) with r by lia.
    by replace (r + 1) with (r + 1) by lia.
Qed.

(** The same for a span to the left. *)
Lemma span_sum_left arc i j r r' :
  j ≤ r → r ≤ r' → r' < i →
  span_sum arc i j =
  score_add (score_add (score_add (span_sum arc r r') (span_sum arc i (r' + 1)))
                       (arc r))
            (span_sum arc r j).
Proof.
  intros H1 H2 H3. unfold span_sum.
  rewrite (decide_True (P := r ≤ r')) by lia.
  destruct (decide (i ≤ j)) as [|_]; [lia|].
  destruct (decide (r ≤ j)) as [Hrj|Hrj];
    destruct (decide (i ≤ r' + 1)) as [Hir|Hir].
  - assert (r = j) as -> by lia. assert (i = r' + 1) as -> by lia.
    rewrite !Nat.sub_diag, !sum_range_0, !score_add_0_r.
    replace (r' + 1 - j) with (1 + (r' - j)) by lia.
    rewrite sum_range_app, sum_range_1. apply score_add_comm.
  - assert (r = j) as -> by lia.
    rewrite Nat.sub_diag, sum_range_0, score_add_0_r.
    replace (i - j) with (1 + ((r' - j) + (i - (r' + 1)))) by lia.
    rewrite !sum_range_app, sum_range_1.
    replace (j + 1 + (r' - j)) with (r' + 1) by lia.
    rewrite (score_add_comm (arc j)). done.
  - assert (i = r' + 1) as -> by lia.
    rewrite Nat.sub_diag, sum_range_0, score_add_0_r.
    replace (r' + 1 - j) with ((r - j) + (1 + (r' - r))) by lia.
    rewrite !sum_range_app, sum_range_1.
    replace (j + (r - j)) with r by lia.
    rewrite (score_add_comm (sum_range arc j (r - j))).
    by rewrite (score_add_comm (arc r)).
  - replace (i - j) with ((r - j) + (1 + ((r' - r) + (i - (r' + 1))))) by lia.
    rewrite !sum_range_app, sum_range_1.
    replace (j + (r - j)) with r by lia.
    replace (r + 1 + (r' - r)) with (r' + 1) by lia.
    rewrite (score_add_comm (sum_range arc j (r - j))).
    by rewrite (score_add_comm (arc r)).
Qed.

End score_algebra.

(** ** Spans and the tables, in general *)

Section bounds.
Import NP Decoder DecoderAux DecoderProps.
Context (pi pc : list (list nat)) (L : nat).
Context (C I A : nat → nat → score).

Lemma arcs_of_lookup H d p : H !! d = Some (Z.of_nat p) → arcs_of A H d = A p d.
Proof. unfold arcs_of. intros ->. by rewrite Nat2Z.id. Qed.

#[local] Arguments backtrack : simpl never.

Section lower.
Hypothesis Hp : pointers_ok pi pc L.
Hypothesis HC0 : ∀ i, i ≤ L → score_le (C i i) (Fin 0).
Hypothesis HCp : ∀ i j r, i ≤ L → j ≤ L → i ≠ j →
  pc !! i ≫= (.!! j) = Some r → score_le (C i j) (score_add (I i r) (C r j)).
Hypothesis HIp : ∀ i j r, i ≤ L → j ≤ L → i ≠ j →
  pi !! i ≫= (.!! j) = Some r →
  score_le (I i j)
    (score_add (score_add (C (i `min` j) r) (C (i `max` j) (r + 1))) (A i j)).

(** The table entry of a complete span is at most the score of the arcs
    that backtracking writes for it. *)
Lemma backtrack_lower d :
  ∀ i j heads fuel heads', i ≤ L → j ≤ L → L < length heads →
    (i - j) + (j - i) = d → 2 * d + 1 ≤ fuel →
    backtrack fuel pi pc heads i j true = Ok heads' →
    score_le (C i j) (span_sum (arcs_of A heads') i j).
Proof using Hp HC0 HCp HIp.
  induction d as [d IH] using lt_wf_ind.
  intros i j heads fuel heads' Hi Hj Hlen Hd Hfuel Hrun.
  destruct fuel as [|fuel]; [lia|]. rewrite backtrack_S in Hrun.
  case_decide as Hij.
  { subst j. rewrite span_sum_nil. by apply HC0. }
  destruct (Hp i j Hi Hj Hij) as (_ & r & _ & Hr & _ & _ & Hlt & Hgt & _).
  rewrite (getitem2_bind pc i j r) in Hrun by done.
  assert (Hir : i ≠ r) by lia. assert (HrL : r ≤ L) by lia.
  destruct (Hp i r Hi HrL Hir) as (r2 & _ & Hr2 & _ & Hmin & Hmax & _ & _ & Hroot).
  destruct fuel as [|fuel']; [lia|]. rewrite backtrack_S in Hrun.
  rewrite decide_False in Hrun by done.
  rewrite (getitem2_bind pi i r r2) in Hrun by done.
  rewrite decide_True in Hrun by lia. simpl in Hrun.
  assert (Hlen1 : length (<[r:=Z.of_nat i]> heads) = length heads)
    by apply length_insert.
  pose proof (HCp i j r Hi Hj Hij Hr) as HCij.
  pose proof (HIp i r r2 Hi HrL Hir Hr2) as HIir.
  destruct (decide (i < j)) as [Hlt'|Hge].
  - destruct (Hlt Hlt') as [? ?].
    rewrite Nat.min_l, Nat.max_r in * by lia.
    destruct (backtrack_complete pi pc L Hp (r2 - i) i r2 (<[r:=Z.of_nat i]> heads) fuel')
      as (h2 & Hh2 & Hlen2 & Hfr2 & _); [lia..|].
    rewrite Hh2 in Hrun. simpl in Hrun.
    destruct (backtrack_complete pi pc L Hp (r - (r2 + 1)) r (r2 + 1) h2 fuel')
      as (h3 & Hh3 & Hlen3 & Hfr3 & _); [lia..|].
    rewrite Hh3 in Hrun. simpl in Hrun.
    destruct (backtrack_complete pi pc L Hp (j - r) r j h3 (S fuel'))
      as (h4 & Hh4 & Hlen4 & Hfr4 & _); [lia..|].
    rewrite Hh4 in Hrun. simplify_eq.
    unfold assigned in *.
    rewrite (span_sum_right _ i j r r2) by lia.
    eapply score_le_trans; [exact HCij|].
    apply score_add_mono; [|apply (IH (j - r) ltac:(lia) r j h3 (S fuel')); lia || done].
    eapply score_le_trans; [exact HIir|].
    apply score_add_mono; [apply score_add_mono|].
    + rewrite (span_sum_ext _ (arcs_of A h2)).
      * apply (IH (r2 - i) ltac:(lia) i r2 (<[r:=Z.of_nat i]> heads) fuel'); lia || done.
      * unfold assigned, arcs_of. intros c Hc. rewrite Hfr4, Hfr3 by lia. done.
    + rewrite (span_sum_ext _ (arcs_of A h3)).
      * apply (IH (r - (r2 + 1)) ltac:(lia) r (r2 + 1) h2 fuel'); lia || done.
      * unfold assigned, arcs_of. intros c Hc. rewrite Hfr4 by lia. done.
    + rewrite (arcs_of_lookup _ r i); [apply score_le_refl|].
      rewrite Hfr4, Hfr3, Hfr2 by lia. apply list_lookup_insert_eq. lia.
  - destruct (Hgt ltac:(lia)) as [? ?].
    rewrite Nat.min_r, Nat.max_l in * by lia.
    destruct (backtrack_complete pi pc L Hp (r2 - r) r r2 (<[r:=Z.of_nat i]> heads) fuel')
      as (h2 & Hh2 & Hlen2 & Hfr2 & _); [lia..|].
    rewrite Hh2 in Hrun. simpl in Hrun.
    destruct (backtrack_complete pi pc L Hp (i - (r2 + 1)) i (r2 + 1) h2 fuel')
      as (h3 & Hh3 & Hlen3 & Hfr3 & _); [lia..|].
    rewrite Hh3 in Hrun. simpl in Hrun.
    destruct (backtrack_complete pi pc L Hp (r - j) r j h3 (S fuel'))
      as (h4 & Hh4 & Hlen4 & Hfr4 & _); [lia..|].
    rewrite Hh4 in Hrun. simplify_eq.
    unfold assigned in *.
    rewrite (span_sum_left _ i j r r2) by lia.
    eapply score_le_trans; [exact HCij|].
    apply score_add_mono; [|apply (IH (r - j) ltac:(lia) r j h3 (S fuel')); lia || done].
    eapply score_le_trans; [exact HIir|].
    apply score_add_mono; [apply score_add_mono|].
    + rewrite (span_sum_ext _ (arcs_of A h2)).
      * apply (IH (r2 - r) ltac:(lia) r r2 (<[r:=Z.of_nat i]> heads) fuel'); lia || done.
      * unfold assigned, arcs_of. intros c Hc. rewrite Hfr4, Hfr3 by lia. done.
    + rewrite (span_sum_ext _ (arcs_of A h3)).
      * apply (IH (i - (r2 + 1)) ltac:(lia) i (r2 + 1) h2 fuel'); lia || done.
      * unfold assigned, arcs_of. intros c Hc. rewrite Hfr4 by lia. done.
    + rewrite (arcs_of_lookup _ r i); [apply score_le_refl|].
      rewrite Hfr4, Hfr3, Hfr2 by lia. apply list_lookup_insert_eq. lia.
Qed.

End lower.

Section upper.
Hypothesis HC0 : ∀ i, i ≤ L → score_le (Fin 0) (C i i).
Hypothesis HCr : ∀ i j r, i < r → r ≤ j → j ≤ L → (i = 0 → j = L) →
  score_le (score_add (I i r) (C r j)) (C i j).
Hypothesis HCl : ∀ i j r, 1 ≤ j → j ≤ r → r < i → i ≤ L →
  score_le (score_add (I i r) (C r j)) (C i j).
Hypothesis HIr : ∀ i r r', i ≤ r' → r' < r → r ≤ L →
  score_le (score_add (score_add (C i r') (C r (r' + 1))) (A i r)) (I i r).
Hypothesis HIl : ∀ i r r', 1 ≤ r → r ≤ r' → r' < i → i ≤ L →
  score_le (score_add (score_add (C r r') (C i (r' + 1))) (A i r)) (I i r).

(** The arcs of a span decomposition score at most the table entry of the
    span. *)
Lemma cspan_upper H i j :
  cspan H i j → 1 ≤ i → 1 ≤ j → i ≤ L → j ≤ L →
  score_le (span_sum (arcs_of A H) i j) (C i j).
Proof using HC0 HCr HCl HIr HIl.
  induction 1 as [i|i j r r' ? ? ? ? Hr _ IH1 _ IH2 _ IH3
                   |i j r r' ? ? ? Hr _ IH1 _ IH2 _ IH3]; intros Hi1 Hj1 HiL HjL.
  - rewrite span_sum_nil. by apply HC0.
  - rewrite (span_sum_right _ i j r r') by lia.
    eapply score_le_trans; [|apply (HCr i j r); lia].
    apply score_add_mono; [|apply IH3; lia].
    eapply score_le_trans; [|apply (HIr i r r'); lia].
    rewrite (arcs_of_lookup _ r i) by done.
    apply score_add_mono; [apply score_add_mono|apply score_le_refl].
    + apply IH1; lia.
    + apply IH2; lia.
  - rewrite (span_sum_left _ i j r r') by lia.
    eapply score_le_trans; [|apply (HCl i j r); lia].
    apply score_add_mono; [|apply IH3; lia].
    eapply score_le_trans; [|apply (HIl i r r'); lia].
    rewrite (arcs_of_lookup _ r i) by done.
    apply score_add_mono; [apply score_add_mono|apply score_le_refl].
    + apply IH1; lia.
    + apply IH2; lia.
Qed.

Lemma root_span_upper H :
  1 ≤ L → root_span H L → score_le (span_sum (arcs_of A H) 0 L) (C 0 L).
Proof using HC0 HCr HCl HIr HIl.
  intros HL (r & Hr1 & HrL & Hr & Hs1 & Hs2).
  rewrite (span_sum_right _ 0 L r 0) by lia.
  eapply score_le_trans; [|apply (HCr 0 L r); lia].
  apply score_add_mono; [|apply cspan_upper; done || lia].
  eapply score_le_trans; [|apply (HIr 0 r 0); lia].
  rewrite (arcs_of_lookup _ r 0) by done.
  apply score_add_mono; [apply score_add_mono|apply score_le_refl].
  - rewrite span_sum_nil. apply HC0. lia.
  - apply cspan_upper; done || lia.
Qed.

End upper.

End bounds.

(** ** The tables at the end of the loop *)

Section final_entries.
Import NP Decoder DecoderAux DecoderProps.
Context (batch_size seq_len : nat) (sc : list (list (list score))) (lens : list nat).
Context (c : nat).
Hypothesis Hc : c < batch_size.

(** A round leaves the entries of the narrower spans as they are. *)
Lemma eisner_loop_stable m m' i j :
  m ≤ m' → m' < seq_len → i < seq_len → j < seq_len → i - j ≤ m → j - i ≤ m →
  get3 (s_i (eisner_loop batch_size seq_len sc lens m')) i j c = get3 (s_i (eisner_loop batch_size seq_len sc lens m)) i j c ∧
  get3 (s_c (eisner_loop batch_size seq_len sc lens m')) i j c = get3 (s_c (eisner_loop batch_size seq_len sc lens m)) i j c ∧
  get3 (p_i (eisner_loop batch_size seq_len sc lens m')) i j c = get3 (p_i (eisner_loop batch_size seq_len sc lens m)) i j c ∧
  get3 (p_c (eisner_loop batch_size seq_len sc lens m')) i j c = get3 (p_c (eisner_loop batch_size seq_len sc lens m)) i j c.
Proof using Hc.
  intros Hm Hm' Hi Hj Hij Hji. induction m' as [|m' IH]; [by replace m with 0 by lia|].
  destruct (decide (m = S m')) as [->|]; [done|].
  destruct IH as (IH1 & IH2 & IH3 & IH4); [lia..|].
  rewrite eisner_loop_S.
  rewrite eisner_step_s_i, eisner_step_s_c, eisner_step_p_i, eisner_step_p_c
    by (done || lia).
  unfold s_i_at, s_c_at, p_i_at, p_c_at, s_c_mid.
  rewrite !(decide_False (P := j = i + S m')) by lia.
  rewrite !(decide_False (P := i = j + S m')) by lia.
  rewrite (decide_False (P := i = 0 ∧ j = S m' ∧ _)) by lia.
  done.
Qed.

Context (T : tables).
Hypothesis HT : T = eisner_loop batch_size seq_len sc lens (seq_len - 1).


Lemma final_stable m i j :
  m < seq_len → i < seq_len → j < seq_len → i - j ≤ m → j - i ≤ m →
  get3 (s_i (eisner_loop batch_size seq_len sc lens m)) i j c = If T c i j ∧
  get3 (s_c (eisner_loop batch_size seq_len sc lens m)) i j c = Cf T c i j ∧
  get3 (p_i (eisner_loop batch_size seq_len sc lens m)) i j c = get3 (p_i T) i j c ∧
  get3 (p_c (eisner_loop batch_size seq_len sc lens m)) i j c = get3 (p_c T) i j c.
Proof using Hc HT.
  intros Hm Hi Hj Hij Hji. unfold If, Cf. rewrite HT.
  destruct (eisner_loop_stable m (seq_len - 1) i j) as (-> & -> & -> & ->);
    [lia..|done].
Qed.

Lemma final_diag i : i < seq_len → Cf T c i i = Fin 0.
Proof using Hc HT.
  intros Hi. destruct (final_stable 0 i i) as (_ & <- & _); [lia..|].
  unfold eisner_loop, eisner_init, fill_diagonal_scalar. simpl.
  rewrite get3_tab3 by lia. by rewrite decide_True.
Qed.

Section round.
Context (w : nat).
Hypothesis Hw : 1 ≤ w < seq_len.

Lemma final_ilr k l :
  k + w < seq_len → l < w →
  ilr_at (eisner_loop batch_size seq_len sc lens (w - 1)) w c k l = score_add (Cf T c k (k + l)) (Cf T c (w + k) (1 + k + l)).
Proof using Hc HT Hw.
  intros Hk Hl. unfold ilr_at.
  destruct (final_stable (w - 1) k (k + l)) as (_ & -> & _); [lia..|].
  destruct (final_stable (w - 1) (w + k) (1 + k + l)) as (_ & -> & _); [lia..|].
  done.
Qed.

Lemma final_ir_row k :
  k + w < seq_len →
  ir_row sc (eisner_loop batch_size seq_len sc lens (w - 1)) w c k =
  tab w (λ l, score_add (score_add (Cf T c k (k + l)) (Cf T c (w + k) (1 + k + l)))
                        (Af sc c k (k + w))).
Proof using Hc HT Hw.
  intros Hk. unfold ir_row. apply tab_ext. intros l Hl. by rewrite final_ilr.
Qed.

Lemma final_il_row k :
  k + w < seq_len →
  il_row sc (eisner_loop batch_size seq_len sc lens (w - 1)) w c k =
  tab w (λ l, score_add (score_add (Cf T c k (k + l)) (Cf T c (w + k) (1 + k + l)))
                        (Af sc c (k + w) k)).
Proof using Hc HT Hw.
  intros Hk. unfold il_row. apply tab_ext. intros l Hl. by rewrite final_ilr.
Qed.

Lemma loop_round :
  eisner_loop batch_size seq_len sc lens w =
  eisner_step batch_size seq_len sc lens (eisner_loop batch_size seq_len sc lens (w - 1)) w.
Proof using Hc Hw.
  replace w with (S (w - 1)) at 1 3 by lia. apply eisner_loop_S.
Qed.

(** The entries that the round for width [w] writes are those of the
    end. *)
Lemma final_s_i_at i j :
  i < seq_len → j < seq_len → i - j ≤ w → j - i ≤ w →
  s_i_at sc (eisner_loop batch_size seq_len sc lens (w - 1)) w i j c = If T c i j.
Proof using Hc HT Hw.
  intros Hi Hj Hij Hji.
  destruct (final_stable w i j) as (<- & _); [lia..|].
  rewrite loop_round. by rewrite eisner_step_s_i by (done || lia).
Qed.

Lemma final_p_i_at i j :
  i < seq_len → j < seq_len → i - j ≤ w → j - i ≤ w →
  p_i_at sc (eisner_loop batch_size seq_len sc lens (w - 1)) w i j c = get3 (p_i T) i j c.
Proof using Hc HT Hw.
  intros Hi Hj Hij Hji.
  destruct (final_stable w i j) as (_ & _ & <- & _); [lia..|].
  rewrite loop_round. by rewrite eisner_step_p_i by (done || lia).
Qed.

Lemma final_s_c_at i j :
  i < seq_len → j < seq_len → i - j ≤ w → j - i ≤ w →
  s_c_at sc lens (eisner_loop batch_size seq_len sc lens (w - 1)) w i j c = Cf T c i j.
Proof using Hc HT Hw.
  intros Hi Hj Hij Hji.
  destruct (final_stable w i j) as (_ & <- & _); [lia..|].
  rewrite loop_round. by rewrite eisner_step_s_c by (done || lia).
Qed.

Lemma final_p_c_at i j :
  i < seq_len → j < seq_len → i - j ≤ w → j - i ≤ w →
  p_c_at sc (eisner_loop batch_size seq_len sc lens (w - 1)) w i j c = get3 (p_c T) i j c.
Proof using Hc HT Hw.
  intros Hi Hj Hij Hji.
  destruct (final_stable w i j) as (_ & _ & _ & <-); [lia..|].
  rewrite loop_round. by rewrite eisner_step_p_c by (done || lia).
Qed.

Lemma final_cl_row k :
  k + w < seq_len →
  cl_row sc (eisner_loop batch_size seq_len sc lens (w - 1)) w c k =
  tab w (λ l, score_add (Cf T c (k + l) k) (If T c (w + k) (k + l))).
Proof using Hc HT Hw.
  intros Hk. unfold cl_row. apply tab_ext. intros l Hl.
  rewrite final_s_i_at by lia.
  by destruct (final_stable (w - 1) (k + l) k) as (_ & -> & _); [lia..|].
Qed.

Lemma final_cr_row k :
  k + w < seq_len →
  cr_row sc (eisner_loop batch_size seq_len sc lens (w - 1)) w c k =
  tab w (λ l, score_add (If T c k (1 + k + l)) (Cf T c (1 + k + l) (w + k))).
Proof using Hc HT Hw.
  intros Hk. unfold cr_row. apply tab_ext. intros l Hl.
  rewrite final_s_i_at by lia. unfold s_c_mid.
  rewrite decide_False by lia.
  by destruct (final_stable (w - 1) (1 + k + l) (w + k)) as (_ & -> & _); [lia..|].
Qed.

End round.

End final_entries.

(** ** The tables at the end bound the spans of a sentence *)

Section maxima_of_rows.
Import NP DecoderProps.

Lemma amax_tab w (f : nat → score) :
  1 ≤ w →
  amax (tab w f) = f (argmax (tab w f)) ∧ argmax (tab w f) < w ∧
  ∀ l, l < w → score_le (f l) (amax (tab w f)).
Proof.
  intros Hw. assert (tab w f ≠ []) as Hne.
  { intros Hnil. apply (f_equal length) in Hnil. rewrite length_tab in Hnil.
    simpl in Hnil. lia. }
  destruct (amax_spec _ Hne) as [Hat Hall].
  pose proof (argmax_lt _ Hne) as Hlt. rewrite length_tab in Hlt.
  rewrite lookup_tab in Hat by done. split_and!; [congruence|done|].
  intros l Hl. apply (proj1 (Forall_lookup _ _) Hall l). by apply lookup_tab.
Qed.

End maxima_of_rows.

Section final_bounds.
Import NP Decoder DecoderAux DecoderProps.
Context (batch_size seq_len : nat) (sc : list (list (list score))) (lens : list nat).
Context (c L : nat) (T : tables).
Hypothesis Hc : c < batch_size.
Hypothesis HT : T = eisner_loop batch_size seq_len sc lens (seq_len - 1).
Hypothesis HL : L < seq_len.
Hypothesis HLens : ∀ w, lens !!! c = w ↔ L = w.

Lemma final_lower_C i j r :
  i ≤ L → j ≤ L → i ≠ j → get3 (p_c T) i j c = r →
  score_le (Cf T c i j) (score_add (If T c i r) (Cf T c r j)).
Proof using Hc HT HL.
  intros Hi Hj Hij Hr. destruct (decide (i < j)) as [Hlt|Hge].
  - assert (Hw : 1 ≤ j - i < seq_len) by lia.
    rewrite <-(final_s_c_at batch_size seq_len sc lens c Hc T HT (j - i) Hw i j) by lia.
    rewrite <-(final_p_c_at batch_size seq_len sc lens c Hc T HT (j - i) Hw i j) in Hr by lia.
    unfold s_c_at, p_c_at in *.
    destruct (decide (i = 0 ∧ j = j - i ∧ lens !!! c ≠ j - i)); [done|].
    rewrite (decide_True (P := j = i + (j - i))) in Hr by lia.
    rewrite (decide_True (P := j = i + (j - i))) by lia.
    rewrite (final_cr_row batch_size seq_len sc lens c Hc T HT (j - i) Hw i) in Hr |- * by lia.
    destruct (amax_tab (j - i)
      (λ l, score_add (If T c i (1 + i + l)) (Cf T c (1 + i + l) (j - i + i))))
      as (-> & Ha & _); [lia|].
    subst r. set (a := argmax _) in *.
    replace (a + i + 1) with (1 + i + a) by lia.
    replace (j - i + i) with j by lia. apply score_le_refl.
  - assert (Hw : 1 ≤ i - j < seq_len) by lia.
    rewrite <-(final_s_c_at batch_size seq_len sc lens c Hc T HT (i - j) Hw i j) by lia.
    rewrite <-(final_p_c_at batch_size seq_len sc lens c Hc T HT (i - j) Hw i j) in Hr by lia.
    unfold s_c_at, p_c_at, s_c_mid in *.
    rewrite (decide_False (P := i = 0 ∧ _)) by lia.
    rewrite (decide_False (P := j = i + (i - j))) in Hr by lia.
    rewrite (decide_False (P := j = i + (i - j))) by lia.
    rewrite (decide_True (P := i = j + (i - j))) in Hr by lia.
    rewrite (decide_True (P := i = j + (i - j))) by lia.
    rewrite (final_cl_row batch_size seq_len sc lens c Hc T HT (i - j) Hw j) in Hr |- * by lia.
    destruct (amax_tab (i - j)
      (λ l, score_add (Cf T c (j + l) j) (If T c (i - j + j) (j + l))))
      as (-> & Ha & _); [lia|].
    subst r. set (a := argmax _) in *.
    replace (a + j) with (j + a) by lia.
    replace (i - j + j) with i by lia. rewrite score_add_comm. apply score_le_refl.
Qed.

Lemma final_lower_I i j r :
  i ≤ L → j ≤ L → i ≠ j → get3 (p_i T) i j c = r →
  score_le (If T c i j)
    (score_add (score_add (Cf T c (i `min` j) r) (Cf T c (i `max` j) (r + 1)))
               (Af sc c i j)).
Proof using Hc HT HL.
  intros Hi Hj Hij Hr. destruct (decide (i < j)) as [Hlt|Hge].
  - assert (Hw : 1 ≤ j - i < seq_len) by lia.
    rewrite <-(final_s_i_at batch_size seq_len sc lens c Hc T HT (j - i) Hw i j) by lia.
    rewrite <-(final_p_i_at batch_size seq_len sc lens c Hc T HT (j - i) Hw i j) in Hr by lia.
    unfold s_i_at, p_i_at in *.
    rewrite (decide_True (P := j = i + (j - i))) in Hr by lia.
    rewrite (decide_True (P := j = i + (j - i))) by lia.
    rewrite (final_ir_row batch_size seq_len sc lens c Hc T HT (j - i) Hw i) in Hr |- * by lia.
    destruct (amax_tab (j - i)
      (λ l, score_add (score_add (Cf T c i (i + l)) (Cf T c (j - i + i) (1 + i + l)))
                      (Af sc c i (i + (j - i)))))
      as (-> & Ha & _); [lia|].
    subst r. set (a := argmax _) in *.
    rewrite Nat.min_l, Nat.max_r by lia.
    replace (a + i) with (i + a) by lia. replace (i + a + 1) with (1 + i + a) by lia.
    replace (j - i + i) with j by lia. replace (i + (j - i)) with j by lia.
    apply score_le_refl.
  - assert (Hw : 1 ≤ i - j < seq_len) by lia.
    rewrite <-(final_s_i_at batch_size seq_len sc lens c Hc T HT (i - j) Hw i j) by lia.
    rewrite <-(final_p_i_at batch_size seq_len sc lens c Hc T HT (i - j) Hw i j) in Hr by lia.
    unfold s_i_at, p_i_at in *.
    rewrite (decide_False (P := j = i + (i - j))) in Hr by lia.
    rewrite (decide_False (P := j = i + (i - j))) by lia.
    rewrite (decide_True (P := i = j + (i - j))) in Hr by lia.
    rewrite (decide_True (P := i = j + (i - j))) by lia.
    rewrite (final_il_row batch_size seq_len sc lens c Hc T HT (i - j) Hw j) in Hr |- * by lia.
    destruct (amax_tab (i - j)
      (λ l, score_add (score_add (Cf T c j (j + l)) (Cf T c (i - j + j) (1 + j + l)))
                      (Af sc c (j + (i - j)) j)))
      as (-> & Ha & _); [lia|].
    subst r. set (a := argmax _) in *.
    rewrite Nat.min_r, Nat.max_l by lia.
    replace (a + j) with (j + a) by lia. replace (j + a + 1) with (1 + j + a) by lia.
    replace (i - j + j) with i by lia. replace (j + (i - j)) with i by lia.
    apply score_le_refl.
Qed.

Lemma final_upper_Cr i j r :
  i < r → r ≤ j → j ≤ L → (i = 0 → j = L) →
  score_le (score_add (If T c i r) (Cf T c r j)) (Cf T c i j).
Proof using Hc HT HL HLens.
  intros Hir Hrj Hj Hroot.
  assert (Hw : 1 ≤ j - i < seq_len) by lia.
  rewrite <-(final_s_c_at batch_size seq_len sc lens c Hc T HT (j - i) Hw i j) by lia.
  unfold s_c_at. rewrite decide_False.
  2:{ intros (-> & _ & Hne). apply Hne. apply HLens. rewrite Hroot by done. lia. }
  rewrite (decide_True (P := j = i + (j - i))) by lia.
  rewrite (final_cr_row batch_size seq_len sc lens c Hc T HT (j - i) Hw i) by lia.
  destruct (amax_tab (j - i)
    (λ l, score_add (If T c i (1 + i + l)) (Cf T c (1 + i + l) (j - i + i))))
    as (_ & _ & Hall); [lia|].
  eapply score_le_trans; [|apply (Hall (r - i - 1)); lia]. cbv beta.
  replace (1 + i + (r - i - 1)) with r by lia.
  replace (j - i + i) with j by lia. apply score_le_refl.
Qed.

Lemma final_upper_Cl i j r :
  1 ≤ j → j ≤ r → r < i → i ≤ L →
  score_le (score_add (If T c i r) (Cf T c r j)) (Cf T c i j).
Proof using Hc HT HL.
  intros Hj Hjr Hri Hi.
  assert (Hw : 1 ≤ i - j < seq_len) by lia.
  rewrite <-(final_s_c_at batch_size seq_len sc lens c Hc T HT (i - j) Hw i j) by lia.
  unfold s_c_at, s_c_mid. rewrite (decide_False (P := i = 0 ∧ _)) by lia.
  rewrite (decide_False (P := j = i + (i - j))) by lia.
  rewrite (decide_True (P := i = j + (i - j))) by lia.
  rewrite (final_cl_row batch_size seq_len sc lens c Hc T HT (i - j) Hw j) by lia.
  destruct (amax_tab (i - j)
    (λ l, score_add (Cf T c (j + l) j) (If T c (i - j + j) (j + l))))
    as (_ & _ & Hall); [lia|].
  eapply score_le_trans; [|apply (Hall (r - j)); lia]. cbv beta.
  replace (j + (r - j)) with r by lia.
  replace (i - j + j) with i by lia. rewrite score_add_comm. apply score_le_refl.
Qed.

Lemma final_upper_Ir i r r' :
  i ≤ r' → r' < r → r ≤ L →
  score_le (score_add (score_add (Cf T c i r') (Cf T c r (r' + 1))) (Af sc c i r))
           (If T c i r).
Proof using Hc HT HL.
  intros Hir' Hr'r Hr.
  assert (Hw : 1 ≤ r - i < seq_len) by lia.
  rewrite <-(final_s_i_at batch_size seq_len sc lens c Hc T HT (r - i) Hw i r) by lia.
  unfold s_i_at. rewrite (decide_True (P := r = i + (r - i))) by lia.
  rewrite (final_ir_row batch_size seq_len sc lens c Hc T HT (r - i) Hw i) by lia.
  destruct (amax_tab (r - i)
    (λ l, score_add (score_add (Cf T c i (i + l)) (Cf T c (r - i + i) (1 + i + l)))
                    (Af sc c i (i + (r - i)))))
    as (_ & _ & Hall); [lia|].
  eapply score_le_trans; [|apply (Hall (r' - i)); lia]. cbv beta.
  replace (1 + i + (r' - i)) with (r' + 1) by lia.
  replace (i + (r' - i)) with r' by lia.
  replace (r - i + i) with r by lia.
  replace (i + (r - i)) with r by lia. apply score_le_refl.
Qed.

Lemma final_upper_Il i r r' :
  1 ≤ r → r ≤ r' → r' < i → i ≤ L →
  score_le (score_add (score_add (Cf T c r r') (Cf T c i (r' + 1))) (Af sc c i r))
           (If T c i r).
Proof using Hc HT HL.
  intros Hr Hrr' Hr'i Hi.
  assert (Hw : 1 ≤ i - r < seq_len) by lia.
  rewrite <-(final_s_i_at batch_size seq_len sc lens c Hc T HT (i - r) Hw i r) by lia.
  unfold s_i_at. rewrite (decide_False (P := r = i + (i - r))) by lia.
  rewrite (decide_True (P := i = r + (i - r))) by lia.
  rewrite (final_il_row batch_size seq_len sc lens c Hc T HT (i - r) Hw r) by lia.
  destruct (amax_tab (i - r)
    (λ l, score_add (score_add (Cf T c r (r + l)) (Cf T c (i - r + r) (1 + r + l)))
                    (Af sc c (r + (i - r)) r)))
    as (_ & _ & Hall); [lia|].
  eapply score_le_trans; [|apply (Hall (r' - r)); lia]. cbv beta.
  replace (1 + r + (r' - r)) with (r' + 1) by lia.
  replace (r + (r' - r)) with r' by lia.
  replace (i - r + r) with i by lia.
  replace (r + (i - r)) with i by lia. apply score_le_refl.
Qed.

End final_bounds.

(** ** A projective tree has a span decomposition *)

Section tree_to_spans.
Import Validator ValidatorAux DecoderAux.
Context (H : list Z).
Hypothesis Hvalid : valid_heads H.

Lemma seq_app_blocks a n (l1 l2 : list nat) :
  seq a n = l1 ++ l2 → l1 = seq a (length l1) ∧ l2 = seq (a + length l1) (length l2) ∧
                        n = length l1 + length l2.
Proof.
  intros Heq. split_and!.
  - pose proof (seq_block a n [] l1 l2 Heq) as Hb. simpl in Hb.
    by rewrite Nat.add_0_r in Hb.
  - apply (seq_block a n l1 l2 []). by rewrite app_nil_r.
  - apply (f_equal length) in Heq. by rewrite length_seq, length_app in Heq.
Qed.

Section node.
Context (f x : nat).
Hypothesis Hx : 1 ≤ x.
Hypothesis IH : ∀ c B a, 1 ≤ c → inorder_spec f H c = Some B → B = seq a (length B) →
  cspan H c a ∧ cspan H c (a + length B - 1) ∧ a ≤ c ∧ c < a + length B.

Lemma left_spans cs Bs :
  Forall2 (λ c B, inorder_spec f H c = Some B) cs Bs →
  ∀ a, concat Bs = seq a (x - a) → a ≤ x →
    (∀ c, c ∈ cs → 1 ≤ c ∧ H !! c = Some (Z.of_nat x)) → cspan H x a.
Proof using IH Hx.
  induction 1 as [|c B cs Bs Hc _ IHl]; intros a Hcat Hax Hhead.
  - simpl in Hcat. destruct (x - a) eqn:Hd; [|done].
    replace a with x by lia. constructor.
  - simpl in Hcat. symmetry in Hcat.
    destruct (seq_app_blocks _ _ _ _ Hcat) as (HB & Hrest & Hlen).
    destruct (Hhead c) as [Hc1 Hhc]; [left|].
    destruct (IH c B a Hc1 Hc HB) as (Hs1 & Hs2 & Hac & Hca).
    apply (cspan_left H x a c (a + length B - 1)); [lia..|done|done| |done].
    replace (a + length B - 1 + 1) with (a + length B) by lia.
    apply IHl; [|lia|].
    + rewrite Hrest. f_equal. lia.
    + intros c' Hc'. apply Hhead. by right.
Qed.

Lemma right_spans ds Bs :
  Forall2 (λ d B, inorder_spec f H d = Some B) ds Bs →
  ∀ e, cspan H x e → x ≤ e → concat Bs = seq (e + 1) (length (concat Bs)) →
    (∀ d, d ∈ ds → 1 ≤ d ∧ H !! d = Some (Z.of_nat x)) →
    cspan H x (e + length (concat Bs)).
Proof using IH Hx.
  induction 1 as [|d B ds Bs Hd _ IHr]; intros e Hse Hxe Hcat Hhead.
  - simpl. by rewrite Nat.add_0_r.
  - simpl in Hcat |- *. symmetry in Hcat.
    destruct (seq_app_blocks _ _ _ _ Hcat) as (HB & Hrest & Hlen).
    destruct (Hhead d) as [Hd1 Hhd]; [left|].
    destruct (IH d B (e + 1) Hd1 Hd HB) as (Hs1 & Hs2 & Hed & Hde).
    rewrite length_app.
    replace (e + (length B + length (concat Bs)))
      with ((e + length B) + length (concat Bs)) by lia.
    apply IHr; [|lia| |].
    + apply (cspan_right H x (e + length B) d e); [lia..|lia|done|done|done|].
      by replace (e + 1 + length B - 1) with (e + length B) in Hs2 by lia.
    + rewrite Hrest at 1. f_equal. lia.
    + intros d' Hd'. apply Hhead. by right.
Qed.

End node.

(** The traversal of a node that is a block of positions gives the spans
    of the node to both ends of the block. *)
Lemma spans_of_traversal f :
  ∀ x l a, 1 ≤ x → inorder_spec f H x = Some l → l = seq a (length l) →
    cspan H x a ∧ cspan H x (a + length l - 1) ∧ a ≤ x ∧ x < a + length l.
Proof using Hvalid.
  induction f as [|f IH]; intros x l a Hx Hl Hblock; [done|].
  apply inorder_spec_step in Hl as (ls & rs & Hls & Hrs & ->).
  symmetry in Hblock.
  destruct (seq_app_blocks _ _ _ _ Hblock) as (HL & Hrest & Hlen).
  simpl in Hrest. injection Hrest as Hxa HR.
  assert (∀ c, c ∈ left_dependents H x → 1 ≤ c ∧ H !! c = Some (Z.of_nat x)) as Hlh.
  { intros c [Hc _]%elem_of_left_dependents; [|done].
    pose proof (head_of_lt _ _ _ Hc). split; [lia|].
    by apply head_of_valid in Hc; [|done|lia]. }
  assert (∀ c, c ∈ right_dependents H x → 1 ≤ c ∧ H !! c = Some (Z.of_nat x)) as Hrh.
  { intros c [Hc _]%elem_of_right_dependents; [|done].
    pose proof (head_of_lt _ _ _ Hc). split; [lia|].
    by apply head_of_valid in Hc; [|done|lia]. }
  assert (cspan H x a) as Hleft.
  { apply (left_spans f x Hx IH _ _ Hls); [|lia|done].
    rewrite HL at 1. f_equal. lia. }
  assert (cspan H x (x + length (concat rs))) as Hright.
  { apply (right_spans f x Hx IH _ _ Hrs); [constructor|lia| |done].
    rewrite HR at 1. f_equal. lia. }
  rewrite !length_app. simpl. split_and!; [done| |lia|lia].
  by replace (a + (length (concat ls) + S (length (concat rs))) - 1)
    with (x + length (concat rs)) by lia.
Qed.

(** What [istree] accepts has the span decomposition of a sentence. *)
Lemma istree_root_span L :
  1 ≤ L → length H = L + 1 → istree H = Ok true → root_span H L.
Proof using Hvalid.
  intros HL Hlen Htree.
  destruct (istree_valid H ltac:(lia) Hvalid) as (l & Hspec & _ & Hres).
  rewrite Hres in Htree. injection Htree as [Hroot <-]%bool_decide_eq_true.
  apply inorder_spec_step in Hspec as (ls & rs & Hls & Hrs & Hl).
  assert (left_dependents H 0 = []) as Hl0.
  { apply filter_none. intros; lia. }
  assert (right_dependents H 0 = dependents H 0) as Hr0.
  { apply filter_all. intros; lia. }
  rewrite Hl0 in Hls. rewrite Hr0 in Hrs.
  apply Forall2_nil_inv_l in Hls as ->.
  destruct (dependents H 0) as [|r [|? ?]] eqn:Hdeps; simplify_eq/=.
  apply Forall2_cons_inv_l in Hrs as (B & rs' & HB & Hrs' & ->).
  apply Forall2_nil_inv_l in Hrs' as ->. simpl in Hl. rewrite app_nil_r in Hl.
  rewrite Hlen in Hl. replace (L + 1) with (S L) in Hl by lia. simpl in Hl.
  injection Hl as HBseq.
  assert (r ∈ dependents H 0) as Hr by (rewrite Hdeps; left).
  apply elem_of_dependents in Hr; [|done].
  pose proof (head_of_lt _ _ _ Hr) as [Hr1 _].
  apply head_of_valid in Hr; [|done|lia].
  destruct (spans_of_traversal _ r B 1 ltac:(lia) HB) as (Hs1 & Hs2 & Hr1' & HrL).
  { rewrite <-HBseq. by rewrite length_seq. }
  rewrite <-HBseq, length_seq in Hs2, HrL.
  exists r. split_and!; [lia|lia|done|done|].
  by replace (1 + L - 1) with L in Hs2 by lia.
Qed.

End tree_to_spans.

(** ** The tree that [eisner] returns is a best one *)

Section decoder_optimal.
Import NP Decoder DecoderAux DecoderProps Validator.

Lemma tree_score_span (scores : list (list (list score))) batch n c H L :
  length scores = batch → c < batch → L < n →
  (∀ d, 1 ≤ d → d ≤ L → ∃ p, H !! d = Some (Z.of_nat p) ∧ p < n) →
  tree_score (scores !!! c) H L =
  span_sum (arcs_of (Af (transpose_210 batch n n scores) c) H) 0 L.
Proof.
  intros Hb Hc HL Hheads. unfold tree_score, span_sum.
  rewrite decide_True by lia. rewrite Nat.sub_0_r.
  apply sum_range_ext. intros d Hd1 Hd2.
  destruct (Hheads d) as (p & Hp & Hpn); [lia..|].
  unfold arc_score, arcs_of, Af. rewrite Hp, Nat2Z.id.
  by rewrite get3_transpose_210 by lia.
Qed.

Lemma valid_heads_nat H d :
  valid_heads H → 1 ≤ d → d < length H →
  ∃ p, H !! d = Some (Z.of_nat p) ∧ p < length H.
Proof.
  intros Hv Hd1 Hd. destruct (lookup_lt_is_Some_2 H d Hd) as [z Hz].
  pose proof (valid_heads_lookup _ _ _ Hv Hd1 Hz).
  exists (Z.to_nat z). rewrite Z2Nat.id by lia. split; [done|lia].
Qed.



End decoder_optimal.

(** ** Tokens, paths and the download *)

Section text.
Import Text.
Context {char : Type} (category_of : char → category).

(** X14: the empty token counts as punctuation, and a token made of two
    pieces is punctuation exactly when both pieces are. *)
Theorem ispunct_concat :
  ispunct category_of [] = true ∧
  ∀ a b, ispunct category_of (a ++ b) = ispunct category_of a && ispunct category_of b.
Proof. split; [done|]. intros a b. apply forallb_app. Qed.

End text.

Section paths.
Import Paths.
Context {char : Type} `{EqDecision char}.
Context (abspath : list char → list char) (sep : char).

Lemma commonprefix_eq (a b : list char) : commonprefix a b = a ↔ a `prefix_of` b.
Proof.
  revert b. induction a as [|x a IH]; intros b.
  - split; [intros _; apply prefix_nil|by destruct b].
  - destruct b as [|y b]; simpl.
    + split; [done|]. by intros ?%prefix_nil_not.
    + case_decide as Hxy.
      * subst. split.
        -- intros [= Heq]. apply prefix_cons. by apply IH.
        -- intros Hp. f_equal. apply IH. by apply prefix_cons_inv_2 in Hp.
      * split; [done|]. intros Hp. by apply prefix_cons_inv_1 in Hp.
Qed.

Lemma within_prefix directory target :
  is_within_directory abspath directory target = true ↔
  abspath directory `prefix_of` abspath target.
Proof.
  unfold is_within_directory. simpl. rewrite bool_decide_eq_true.
  apply commonprefix_eq.
Qed.

(** X15: [is_within_directory] compares characters, not path components:
    it answers true exactly when the absolute path of the target begins
    with the characters of the absolute path of the directory. *)
Theorem is_within_directory_prefix directory target :
  is_within_directory abspath directory target = true ↔
  abspath directory `prefix_of` abspath target.
Proof. apply within_prefix. Qed.

(** X16: [safe_extract] hands all members on to the extraction when every
    member passes the check on its joined path, and none of them when one
    member fails it. *)
Theorem safe_extract_all_or_nothing names path :
  safe_extract abspath sep names path =
  if decide (Forall (λ name, abspath path `prefix_of` abspath (join sep path name)) names)
  then Extracted names else PathTraversal.
Proof.
  unfold safe_extract.
  assert (check_members abspath sep path names = true ↔
          Forall (λ name, abspath path `prefix_of` abspath (join sep path name)) names)
    as Hcheck.
  { induction names as [|name names IH]; simpl.
    - split; [by constructor|done].
    - rewrite Forall_cons, <-within_prefix.
      destruct (is_within_directory abspath path (join sep path name)); simpl.
      + rewrite IH. tauto.
      + split; [done|]. by intros [? _]. }
  case_decide as HF.
  - by rewrite (proj2 Hcheck HF).
  - destruct (check_members abspath sep path names); [|done].
    exfalso. by apply HF, Hcheck.
Qed.

End paths.

Section download.
Import Download.
Context {world : Type} (exists_ : world → string → bool).
Context (fetch : string → string → world → outcome * world).

(** X17: when the path exists the call returns at once and changes
    nothing; when it does not, every model name other than the one key of
    the table of addresses raises [KeyError] before anything is fetched or
    written, and the default value of [model] is such a name. *)
Theorem download_unknown_model path model w :
  (exists_ w path = true →
     download_model_from_url exists_ fetch path model w = (Returned, w)) ∧
  (exists_ w path = false → model ≠ "ernie-lstm" →
     download_model_from_url exists_ fetch path model w = (KeyError, w)) ∧
  (exists_ w path = false →
     download_model_from_url exists_ fetch path default_model w = (KeyError, w)).
Proof.
  unfold download_model_from_url, DOWNLOAD_MODEL_PATH_DICT. split_and!.
  - by intros ->.
  - intros -> Hne. by rewrite lookup_singleton_ne.
  - by intros ->.
Qed.

End download.
